(** * Private-PGM: clique vectors, mirror descent and the AIM mechanism

    A shallow embedding of
      - [src/mbi/clique_vector.py]   (class [CliqueVector]),
      - [src/mbi/estimation.py]      ([GraphicalModel],
                                      [minimum_variance_unbiased_total],
                                      [_initialize], [mirror_descent],
                                      [interior_gradient]),
      - [mechanisms/aim_simple.py]   ([powerset], [downward_closure],
                                      [compile_workload], [filter_candidates],
                                      class [AIM]).

    Conventions of the embedding.
      - Python floats are idealised as exact rationals [Q]; statements
        about them use [==] ([Qeq]), [<=] and [<].  Where numpy divides
        arrays, a float is a rational, an infinity or nan ([npfloat]).
      - A Python tuple of attribute names is a [list string]; a Python
        [dict] is an association list in insertion order with distinct
        keys ([dict_set] overwrites in place, as Python does).
      - A Python exception is the [Raise] branch of [result]; a method
        the class does not define raises [AttributeError].
      - The collaborators the repository imports but does not define are
        parameters: Domain and Factor are the fields of the class [Base];
        the dataset, the marginal oracle, the loss built from
        measurements, the junction tree, the base class of the mechanism
        (its budget conversion, its random generator, its exponential
        mechanism) and numpy's square root are the fields of the class
        [Externals]. *)

From Stdlib Require Import List String Bool Arith ZArith Lia.
From Stdlib Require Import QArith Qabs Lqa.
From Stdlib Require Import Permutation Sorting.Sorted.
Import ListNotations.

(* ================================================================== *)
(** ** Exceptions *)

Inductive exn : Type :=
| KeyError
| ValueError
| TypeError
| ZeroDivisionError
| AttributeError.

Inductive result (A : Type) : Type :=
| Ok (a : A)
| Raise (e : exn).
Arguments Ok {A} a.
Arguments Raise {A} e.

Definition bind {A B} (c : result A) (k : A -> result B) : result B :=
  match c with
  | Ok a => k a
  | Raise e => Raise e
  end.

(** [for x in xs: st = body st x], leaving at the first exception. *)
Fixpoint for_each {A S} (xs : list A) (body : S -> A -> result S) (st : S)
  : result S :=
  match xs with
  | [] => Ok st
  | x :: xs' => bind (body st x) (for_each xs' body)
  end.

(* ================================================================== *)
(** ** Cliques and Python sets of attributes *)

Definition attr := string.
Definition Clique := list attr.

Definition attr_in (a : attr) (c : Clique) : bool := existsb (String.eqb a) c.

Fixpoint clique_eqb (c d : Clique) : bool :=
  match c, d with
  | [], [] => true
  | a :: c', b :: d' => String.eqb a b && clique_eqb c' d'
  | _, _ => false
  end.

(** [set(c) <= set(d)] *)
Definition subset (c d : Clique) : bool := forallb (fun a => attr_in a d) c.

(** [set(c)]: the distinct attributes of [c]. *)
Fixpoint distinct (c : Clique) : Clique :=
  match c with
  | [] => []
  | a :: c' => if attr_in a c' then distinct c' else a :: distinct c'
  end.

(** [len(set(c) & set(d))] *)
Definition overlap (c d : Clique) : nat :=
  List.length (filter (fun a => attr_in a d) (distinct c)).

(** A Python [set] of cliques, kept as a duplicate-free list.  CPython
    leaves the iteration order of a set unspecified; the embedding
    iterates in order of first insertion, and no statement below depends
    on that choice. *)
Definition set_mem (c : Clique) (s : list Clique) : bool :=
  existsb (clique_eqb c) s.

Definition set_add (s : list Clique) (c : Clique) : list Clique :=
  if set_mem c s then s else s ++ [c].

(** [s.update(cs)] *)
Definition set_update (s cs : list Clique) : list Clique :=
  fold_left set_add cs s.

(* ================================================================== *)
(** ** Python dictionaries keyed by cliques *)

Definition dict (V : Type) : Type := list (Clique * V).

Definition dict_keys {V} (d : dict V) : list Clique := map fst d.

(** [d[k]], or [KeyError]. *)
Fixpoint dict_get {V} (k : Clique) (d : dict V) : result V :=
  match d with
  | [] => Raise KeyError
  | (k', v) :: d' => if clique_eqb k k' then Ok v else dict_get k d'
  end.

(** [d[k] = v]: overwrite in place, or append a new key. *)
Fixpoint dict_set {V} (k : Clique) (v : V) (d : dict V) : dict V :=
  match d with
  | [] => [(k, v)]
  | (k', v') :: d' =>
      if clique_eqb k k' then (k', v) :: d' else (k', v') :: dict_set k v d'
  end.

(** [{k: v for (k, v) in kvs}] *)
Definition dict_of_pairs {V} (kvs : list (Clique * V)) : dict V :=
  fold_left (fun d kv => dict_set (fst kv) (snd kv) d) kvs [].

(** [{k: f(k) for k in ks}], where [f] may raise; the comprehension
    continues from the dictionary [acc] built so far. *)
Fixpoint dict_comp {V} (ks : list Clique) (f : Clique -> result V)
  (acc : dict V) : result (dict V) :=
  match ks with
  | [] => Ok acc
  | k :: ks' => bind (f k) (fun v => dict_comp ks' f (dict_set k v acc))
  end.

(* ================================================================== *)
(** ** numpy vectors *)

Open Scope Q_scope.

Definition vec := list Q.

Definition Qlen {A} (l : list A) : Q := inject_Z (Z.of_nat (List.length l)).

(** [v.sum()], [np.sum(v)] *)
Definition vec_sum (v : vec) : Q := fold_left Qplus v 0.

Fixpoint zip_with (op : Q -> Q -> Q) (a b : vec) : vec :=
  match a, b with
  | x :: a', y :: b' => op x y :: zip_with op a' b'
  | _, _ => []
  end.

(** An elementwise binary operation on two 1-D arrays, with numpy's
    broadcasting: equal lengths, or one operand of length one; any other
    pair of shapes raises [ValueError]. *)
Definition broadcast (op : Q -> Q -> Q) (a b : vec) : result vec :=
  if Nat.eqb (List.length a) (List.length b) then Ok (zip_with op a b)
  else match a, b with
       | [x], _ => Ok (map (op x) b)
       | _, [y] => Ok (map (fun x => op x y) a)
       | _, _ => Raise ValueError
       end.

(** [np.allclose(a, b)] with the default tolerances
    [rtol = 1e-05], [atol = 1e-08]. *)
Definition isclose (x y : Q) : bool :=
  Qle_bool (Qabs (x - y)) (1e-8 + 1e-5 * Qabs y).

Definition allclose (a b : vec) : result bool :=
  if Nat.eqb (List.length a) (List.length b)
  then Ok (forallb (fun xy => isclose (fst xy) (snd xy)) (combine a b))
  else match a, b with
       | [x], _ => Ok (forallb (fun y => isclose x y) b)
       | _, [y] => Ok (forallb (fun x => isclose x y) a)
       | _, _ => Raise ValueError
       end.

(** [np.linalg.norm(v, 1)] *)
Definition norm1 (v : vec) : Q := vec_sum (map Qabs v).

(** Python's [max(a, b)]: the first argument unless the second is
    strictly greater. *)
Definition py_max (a b : Q) : Q := if Qlt_le_dec a b then b else a.

(** [max(vs)] over a sequence: [ValueError] when it is empty. *)
Definition py_max_list (vs : list Q) : result Q :=
  match vs with
  | [] => Raise ValueError
  | v :: vs' => Ok (fold_left py_max vs' v)
  end.

(** Python's division of a float by a number: a zero divisor raises.
    (The budget [rho] of the mechanism and what is computed from it are
    Python floats, not numpy scalars.) *)
Definition py_div (a b : Q) : result Q :=
  if Qeq_bool b 0 then Raise ZeroDivisionError else Ok (a / b).

(* ================================================================== *)
(** ** numpy floats

    Rounding apart, a float is a rational, an infinity or nan.  A zero
    is taken as [+0.0]: the only zeros the code below divides by are
    products of a square and a size. *)

Inductive npfloat : Type :=
| Fin (q : Q)
| PInf
| NInf
| NaN.

(** [x * inf] and [x / 0.0]: the infinity of the sign of [x], nan for
    [x = 0]. *)
Definition np_signed_inf (x : Q) : npfloat :=
  if Qeq_bool x 0 then NaN else if Qle_bool 0 x then PInf else NInf.

Definition np_neg (a : npfloat) : npfloat :=
  match a with
  | Fin q => Fin (- q)
  | PInf => NInf
  | NInf => PInf
  | NaN => NaN
  end.

Definition np_add (a b : npfloat) : npfloat :=
  match a, b with
  | NaN, _ | _, NaN => NaN
  | Fin x, Fin y => Fin (x + y)
  | PInf, NInf | NInf, PInf => NaN
  | PInf, _ | _, PInf => PInf
  | NInf, _ | _, NInf => NInf
  end.

Definition np_mul (a b : npfloat) : npfloat :=
  match a, b with
  | NaN, _ | _, NaN => NaN
  | Fin x, Fin y => Fin (x * y)
  | Fin x, PInf | PInf, Fin x => np_signed_inf x
  | Fin x, NInf | NInf, Fin x => np_neg (np_signed_inf x)
  | PInf, PInf | NInf, NInf => PInf
  | PInf, NInf | NInf, PInf => NInf
  end.

(** numpy's division does not raise: [x / 0.0] is an infinity or nan,
    [x / inf] is zero. *)
Definition np_div (a b : npfloat) : npfloat :=
  match a, b with
  | NaN, _ | _, NaN => NaN
  | Fin x, Fin y => if Qeq_bool y 0 then np_signed_inf x else Fin (x / y)
  | Fin _, PInf | Fin _, NInf => Fin 0
  | PInf, Fin y => if Qle_bool 0 y then PInf else NInf
  | NInf, Fin y => if Qle_bool 0 y then NInf else PInf
  | _, _ => NaN
  end.

(** [np.sum] of an array of floats *)
Definition np_sum (l : list npfloat) : npfloat := fold_left np_add l (Fin 0).

(** Python's [max(a, b)] for a number [a] and a float [b]: [b] when
    [b > a], a comparison that nan never passes. *)
Definition py_max_float (a : Q) (b : npfloat) : npfloat :=
  match b with
  | Fin q => Fin (py_max a q)
  | PInf => PInf
  | NInf | NaN => Fin a
  end.

Definition np_finite (x : npfloat) : Prop :=
  match x with Fin _ => True | _ => False end.

(* ================================================================== *)
(** ** The external Domain and Factor types *)

Class Base : Type := {
  Domain : Type;
  Factor : Type;
  (** [domain.size(clique)], [len(domain)], [domain.project(clique)],
      [Domain.merge] (which fails on conflicting cardinalities) *)
  domain_size : Domain -> Clique -> nat;
  domain_len : Domain -> nat;
  domain_project : Domain -> Clique -> Domain;
  domain_merge : Domain -> Domain -> result Domain;
  (** [Factor.zeros(domain)], [f.domain], [f + g], [f + scalar],
      [scalar * f], [f * g], [f.sum()], [f.project(clique)],
      [f.datavector()] *)
  factor_zeros : Domain -> Factor;
  factor_domain : Factor -> Domain;
  factor_add : Factor -> Factor -> Factor;
  factor_add_scalar : Factor -> Q -> Factor;
  factor_rmul : Q -> Factor -> Factor;
  factor_mul : Factor -> Factor -> Factor;
  factor_sum : Factor -> Q;
  factor_project : Factor -> Clique -> Factor;
  factor_datavector : Factor -> vec
}.

(* ================================================================== *)
(** ** clique_vector.py *)

Section CliqueVectorDefs.
Context {B : Base}.

(** A [CliqueVector] is a dictionary from cliques to factors. *)
Definition CliqueVector : Type := dict Factor.

(** The right operand of [+] and [-]: a scalar ([np.isscalar]) or
    another clique vector. *)
Inductive operand : Type :=
| Scalar (q : Q)
| Vector (W : CliqueVector).

(** [CliqueVector.zeros(domain, cliques)] *)
Definition cv_zeros (domain : Domain) (cliques : list Clique) : CliqueVector :=
  dict_of_pairs (map (fun cl => (cl, factor_zeros (domain_project domain cl))) cliques).

(** The property [cliques]: [list(self.keys())]. *)
Definition cv_cliques (self : CliqueVector) : list Clique := dict_keys self.

(** The property [domain]:
    [functools.reduce(Domain.merge, [f.domain for f in self.values()])];
    [reduce] of an empty sequence raises [TypeError]. *)
Definition cv_domain (self : CliqueVector) : result Domain :=
  match map (fun kv => factor_domain (snd kv)) self with
  | [] => Raise TypeError
  | d :: ds => for_each ds domain_merge d
  end.

(** [project]: the scan of [for cl in self.cliques]. *)
Fixpoint project_scan (self : CliqueVector) (keys : list Clique)
  (clique : Clique) : result Factor :=
  match keys with
  | [] => Raise ValueError
  | cl :: keys' =>
      if subset clique cl
      then bind (dict_get cl self) (fun f => Ok (factor_project f clique))
      else project_scan self keys' clique
  end.

Definition cv_project (self : CliqueVector) (clique : Clique) : result Factor :=
  project_scan self (cv_cliques self) clique.

(** [combine]: the inner loop [for cl2 in self], leaving at the first
    covering key. *)
Fixpoint combine_inner (self other : CliqueVector) (keys2 : list Clique)
  (cl : Clique) : result CliqueVector :=
  match keys2 with
  | [] => Ok self
  | cl2 :: keys2' =>
      if subset cl cl2
      then bind (dict_get cl2 self) (fun f =>
           bind (dict_get cl other) (fun g =>
           Ok (dict_set cl2 (factor_add f g) self)))
      else combine_inner self other keys2' cl
  end.

(** [combine] mutates the receiver; the embedding returns its new value. *)
Definition cv_combine (self other : CliqueVector) : result CliqueVector :=
  for_each (dict_keys other)
    (fun self cl => combine_inner self other (dict_keys self) cl) self.

(** [__mul__] and [__rmul__] *)
Definition cv_mul (self : CliqueVector) (const : Q) : result CliqueVector :=
  dict_comp (dict_keys self)
    (fun cl => bind (dict_get cl self) (fun f => Ok (factor_rmul const f))) [].

Definition cv_rmul (self : CliqueVector) (const : Q) : result CliqueVector :=
  cv_mul self const.

(** [__add__] *)
Definition cv_add (self : CliqueVector) (other : operand) : result CliqueVector :=
  match other with
  | Scalar q =>
      dict_comp (dict_keys self)
        (fun cl => bind (dict_get cl self) (fun f => Ok (factor_add_scalar f q))) []
  | Vector W =>
      dict_comp (dict_keys self)
        (fun cl => bind (dict_get cl self) (fun f =>
                   bind (dict_get cl W) (fun g => Ok (factor_add f g)))) []
  end.

(** [-1 * other] *)
Definition neg_operand (other : operand) : result operand :=
  match other with
  | Scalar q => Ok (Scalar (-1 * q))
  | Vector W => bind (cv_rmul W (-1)) (fun W' => Ok (Vector W'))
  end.

(** [__sub__]: [self + -1 * other] *)
Definition cv_sub (self : CliqueVector) (other : operand) : result CliqueVector :=
  bind (neg_operand other) (cv_add self).

(** [dot]: [sum((self[cl] * other[cl]).sum() for cl in self)] *)
Definition cv_dot (self other : CliqueVector) : result Q :=
  for_each (dict_keys self)
    (fun acc cl => bind (dict_get cl self) (fun f =>
                   bind (dict_get cl other) (fun g =>
                   Ok (acc + factor_sum (factor_mul f g))))) 0.

(** [self.expand(cliques)]: neither [CliqueVector] nor [dict] has such
    an attribute, and looking it up raises [AttributeError]. *)
Definition cv_expand (self : CliqueVector) (cliques : list Clique)
  : result CliqueVector :=
  Raise AttributeError.

End CliqueVectorDefs.

(* ================================================================== *)
(** ** estimation.py: records *)

(** [LinearMeasurement] (external): the noisy value, the clique it was
    taken on, the noise scale and the query operator. *)
Record LinearMeasurement : Type := mkLinearMeasurement {
  noisy_measurement : vec;
  clique : Clique;
  stddev : Q;
  query : vec -> result vec
}.

Section EstimationRecords.
Context {B : Base}.

Record GraphicalModel : Type := mkGraphicalModel {
  potentials : CliqueVector;
  marginals : CliqueVector;
  total : Q
}.

(** [marginal_loss.MarginalLossFn] (external): a loss over marginals with
    its cliques; [loss_grad] is the gradient that
    [jax.value_and_grad] returns next to the value. *)
Record MarginalLossFn : Type := mkMarginalLossFn {
  loss_cliques : list Clique;
  loss_call : CliqueVector -> Q;
  loss_grad : CliqueVector -> CliqueVector
}.

End EstimationRecords.

(* ================================================================== *)
(** ** The other collaborators *)

Class Externals {B : Base} : Type := {
  Dataset : Type;
  PRNG : Type;
  Synth : Type;
  (** [marginal_oracles.message_passing_new] and
      [marginal_oracles.variable_elimination] *)
  message_passing_new : CliqueVector -> Q -> CliqueVector;
  variable_elimination : CliqueVector -> Clique -> Q -> Factor;
  (** [marginal_loss.from_linear_measurements] *)
  from_linear_measurements : list LinearMeasurement -> MarginalLossFn;
  (** [synthetic_data.from_marginals] *)
  from_marginals : GraphicalModel -> Q -> Synth;
  (** [data.domain] and [data.project(cl).datavector()] *)
  data_domain : Dataset -> Domain;
  data_project_datavector : Dataset -> Clique -> vec;
  (** [prng.normal(0, sigma, size)], threading the generator *)
  prng_normal : PRNG -> Q -> nat -> vec * PRNG;
  (** [Mechanism.exponential_mechanism(qualities, epsilon, sensitivity)],
      which draws from [self.prng]; a method of the base class, it knows
      nothing of the counter [rho_used] of [AIM] *)
  exponential_mechanism : PRNG -> dict Q -> Q -> Q -> Clique * PRNG;
  (** the conversion of [(epsilon, delta)] into the zCDP budget [rho]
      made by [Mechanism.__init__] *)
  cdp_rho : Q -> Q -> Q;
  (** [junction_tree.maximal_cliques] of
      [junction_tree.make_junction_tree(domain, cliques)] *)
  jt_maximal_cliques : Domain -> list Clique -> list Clique;
  (** [np.sqrt] and [np.pi] *)
  np_sqrt : Q -> Q;
  np_pi : Q;
  (** the default [query] of a [LinearMeasurement] *)
  default_query : vec -> result vec
}.

(* ================================================================== *)
(** ** estimation.py: functions *)

Section EstimationDefs.
Context {B : Base}.

(** [GraphicalModel.project]: the marginals' projection, or variable
    elimination when that raises. *)
Definition gm_project {E : Externals} (self : GraphicalModel) (attrs : Clique) : Factor :=
  match cv_project (marginals self) attrs with
  | Ok f => f
  | Raise _ => variable_elimination (potentials self) attrs (total self)
  end.

(** The loop of [minimum_variance_unbiased_total]: the lists
    [estimates] and [variances] after the measurements [ms].  A
    measurement whose identity test raises is skipped ([except: continue]). *)
Fixpoint mvut_collect (ms : list LinearMeasurement) (estimates variances : list Q)
  : list Q * list Q :=
  match ms with
  | [] => (estimates, variances)
  | M :: ms' =>
      let y := noisy_measurement M in
      match bind (query M y) (fun qy => allclose qy y) with
      | Ok true =>
          mvut_collect ms'
            (estimates ++ [vec_sum y])
            (variances ++ [stddev M * stddev M * Qlen y])
      | Ok false => mvut_collect ms' estimates variances
      | Raise _ => mvut_collect ms' estimates variances
      end
  end.

(** [minimum_variance_unbiased_total], line by line.  The arrays
    [1.0 / variances] and [estimates / variances] and their sums are
    numpy's: a variance of zero gives an infinite weight, then
    [variance = 1 / inf = 0], [estimate = 0 * inf = nan] and
    [max(1, nan) = 1]. *)
Definition mvut_value (measurements : list LinearMeasurement) : npfloat :=
  let (estimates, variances) := mvut_collect measurements [] [] in
  match estimates with
  | [] => Fin 1
  | _ =>
      let variance :=
        np_div (Fin 1) (np_sum (map (fun v => np_div (Fin 1) (Fin v)) variances)) in
      let estimate :=
        np_mul variance
          (np_sum (map (fun ev => np_div (Fin (fst ev)) (Fin (snd ev)))
                     (combine estimates variances))) in
      py_max_float 1 estimate
  end.

(** The value returned is always a finite number (lemma
    [mvut_value_finite] below); [minimum_variance_unbiased_total] is that
    number. *)
Definition minimum_variance_unbiased_total (measurements : list LinearMeasurement) : Q :=
  match mvut_value measurements with
  | Fin q => q
  | _ => 1
  end.

(** [_initialize]; [loss_fn] is a list of measurements ([inl]) or a
    custom loss ([inr]). *)
Definition _initialize {E : Externals} (domain : Domain)
  (loss_fn : list LinearMeasurement + MarginalLossFn)
  (known_total : option Q) (potentials : option CliqueVector)
  : result (MarginalLossFn * Q * CliqueVector) :=
  bind
    (match loss_fn with
     | inl ms =>
         let known_total :=
           match known_total with
           | None => minimum_variance_unbiased_total ms
           | Some t => t
           end in
         Ok (from_linear_measurements ms, known_total)
     | inr L =>
         match known_total with
         | None => Raise ValueError
         | Some t => Ok (L, t)
         end
     end)
    (fun lt =>
       let potentials :=
         match potentials with
         | None => cv_zeros domain (loss_cliques (fst lt))
         | Some p => p
         end in
       Ok (fst lt, snd lt, potentials)).

(** The inner function [update] of [mirror_descent]; it returns
    [(theta, loss, alpha, mu)]. *)
Definition md_update (marginal_oracle : CliqueVector -> Q -> CliqueVector)
  (loss_fn : MarginalLossFn) (known_total : Q) (stepsize : option Q)
  (theta : CliqueVector) (alpha : Q)
  : result (CliqueVector * Q * Q * CliqueVector) :=
  let mu := marginal_oracle theta known_total in
  let loss := loss_call loss_fn mu in
  let dL := loss_grad loss_fn mu in
  bind (cv_rmul dL alpha) (fun step =>
  bind (cv_sub theta (Vector step)) (fun theta2 =>
  match stepsize with
  | Some _ => Ok (theta2, loss, alpha, mu)
  | None =>
      let mu2 := marginal_oracle theta2 known_total in
      let loss2 := loss_call loss_fn mu2 in
      bind (cv_sub mu (Vector mu2)) (fun dmu =>
      bind (cv_dot dL dmu) (fun ip =>
      let sufficient_decrease := Qle_bool (0.5 * alpha * ip) (loss - loss2) in
      let alpha' := if sufficient_decrease then alpha else 0.5 * alpha in
      let theta' := if sufficient_decrease then theta2 else theta in
      let loss' := if sufficient_decrease then loss2 else loss in
      Ok (theta', loss', alpha', mu)))
  end)).

(** The state of the loop of [mirror_descent]: the potentials, the step
    size and the arguments [callback_fn] has been called with so far. *)
Record md_state : Type := mkMdState {
  md_potentials : CliqueVector;
  md_alpha : Q;
  md_callbacks : list CliqueVector
}.

Definition md_step (marginal_oracle : CliqueVector -> Q -> CliqueVector)
  (loss_fn : MarginalLossFn) (known_total : Q) (stepsize : option Q)
  (st : md_state) (t : nat) : result md_state :=
  bind (md_update marginal_oracle loss_fn known_total stepsize
          (md_potentials st) (md_alpha st))
       (fun r =>
          match r with
          | (theta, _, alpha, mu) =>
              Ok (mkMdState theta alpha (md_callbacks st ++ [mu]))
          end).

Definition md_loop (marginal_oracle : CliqueVector -> Q -> CliqueVector)
  (loss_fn : MarginalLossFn) (known_total : Q) (stepsize : option Q)
  (iters : nat) (st : md_state) : result md_state :=
  for_each (seq 0 iters) (md_step marginal_oracle loss_fn known_total stepsize) st.

(** [mirror_descent]; next to the model it returns the arguments of the
    successive calls of [callback_fn]. *)
Definition mirror_descent {E : Externals} (domain : Domain)
  (loss_fn : list LinearMeasurement + MarginalLossFn)
  (known_total : option Q) (potentials : option CliqueVector)
  (marginal_oracle : CliqueVector -> Q -> CliqueVector)
  (iters : nat) (stepsize : option Q)
  : result (GraphicalModel * list CliqueVector) :=
  bind (_initialize domain loss_fn known_total potentials) (fun init =>
  match init with
  | (loss_fn, known_total, potentials) =>
      let alpha := match stepsize with None => 2.0 | Some s => s end in
      bind (md_loop marginal_oracle loss_fn known_total stepsize iters
              (mkMdState potentials alpha []))
           (fun st =>
              let marginals := marginal_oracle (md_potentials st) known_total in
              Ok (mkGraphicalModel (md_potentials st) marginals known_total,
                  md_callbacks st))
  end).

End EstimationDefs.

(* ================================================================== *)
(** ** estimation.py: interior gradient *)

Section InteriorGradientDefs.
Context {B : Base} {E : Externals}.

(** The inner function [update] of [interior_gradient]; [l] is
    [sigma / lipschitz] and [** 0.5] is the square root.  The divisions
    are made on traced floats and do not raise; the rational model agrees
    with them as long as no divisor is zero. *)
Definition ig_update (marginal_oracle : CliqueVector -> Q -> CliqueVector)
  (loss_fn : MarginalLossFn) (known_total l : Q)
  (theta : CliqueVector) (c : Q) (x y z : CliqueVector)
  : result (CliqueVector * Q * CliqueVector * CliqueVector * CliqueVector) :=
  let a := (np_sqrt ((c * l) * (c * l) + 4 * c * l) - l * c) / 2 in
  bind (cv_rmul x (1 - a)) (fun x1 =>
  bind (cv_rmul z a) (fun z1 =>
  bind (cv_add x1 (Vector z1)) (fun y =>
  let c := c * (1 - a) in
  let g := loss_grad loss_fn y in
  bind (cv_rmul g (a / c / known_total)) (fun step =>
  bind (cv_sub theta (Vector step)) (fun theta =>
  let z := marginal_oracle theta known_total in
  bind (cv_rmul x (1 - a)) (fun x2 =>
  bind (cv_rmul z a) (fun z2 =>
  bind (cv_add x2 (Vector z2)) (fun x =>
  Ok (theta, c, x, y, z))))))))).

(** The state of the loop of [interior_gradient], with the arguments
    [callback_fn] has been called with so far. *)
Record ig_state : Type := mkIgState {
  ig_theta : CliqueVector;
  ig_c : Q;
  ig_x : CliqueVector;
  ig_y : CliqueVector;
  ig_z : CliqueVector;
  ig_callbacks : list CliqueVector
}.

Definition ig_step (marginal_oracle : CliqueVector -> Q -> CliqueVector)
  (loss_fn : MarginalLossFn) (known_total l : Q)
  (st : ig_state) (t : nat) : result ig_state :=
  bind (ig_update marginal_oracle loss_fn known_total l
          (ig_theta st) (ig_c st) (ig_x st) (ig_y st) (ig_z st))
       (fun r =>
          match r with
          | (theta, c, x, y, z) =>
              Ok (mkIgState theta c x y z (ig_callbacks st ++ [x]))
          end).

(** [interior_gradient]; it returns the marginals [x], not a model, and
    next to them the arguments of the successive calls of [callback_fn].
    [lipschitz] defaults to [None], and [1 / None] is a [TypeError];
    [stepsize] is accepted and never read. *)
Definition interior_gradient (domain : Domain)
  (loss_fn : list LinearMeasurement + MarginalLossFn)
  (lipschitz : option Q) (known_total : option Q)
  (potentials : option CliqueVector)
  (marginal_oracle : CliqueVector -> Q -> CliqueVector)
  (iters : nat) (stepsize : option Q)
  : result (CliqueVector * list CliqueVector) :=
  bind (_initialize domain loss_fn known_total potentials) (fun init =>
  match init with
  | (loss_fn, known_total, potentials) =>
      let c := 1 in
      let sigma := 1 in
      bind (match lipschitz with
            | None => Raise TypeError
            | Some L => py_div sigma L
            end) (fun l =>
      let x := marginal_oracle potentials known_total in
      let gbar := cv_zeros domain (loss_cliques loss_fn) in
      let theta := potentials in
      bind (for_each (seq 1 iters) (ig_step marginal_oracle loss_fn known_total l)
              (mkIgState theta c x x x []))
           (fun st => Ok (ig_x st, ig_callbacks st)))
  end).

End InteriorGradientDefs.

(* ================================================================== *)
(** ** aim_simple.py *)

(** [itertools.combinations(s, r)] *)
Fixpoint combinations (s : Clique) (r : nat) {struct s} : list Clique :=
  match r, s with
  | O, _ => [[]]
  | S _, [] => []
  | S r', a :: s' => map (cons a) (combinations s' r') ++ combinations s' r
  end.

(** [powerset]: the combinations of sizes [1 .. len(s)], chained. *)
Definition powerset (s : Clique) : list Clique :=
  flat_map (combinations s) (seq 1 (List.length s)).

(** [sorted(..., key=len)]: Python's sort is stable. *)
Fixpoint insert_by_len (x : Clique) (l : list Clique) : list Clique :=
  match l with
  | [] => [x]
  | y :: l' =>
      if Nat.leb (List.length y) (List.length x)
      then y :: insert_by_len x l'
      else x :: y :: l'
  end.

Definition sorted_by_len (l : list Clique) : list Clique :=
  fold_left (fun acc x => insert_by_len x acc) l [].

Definition downward_closure (Ws : list Clique) : list Clique :=
  let ans := fold_left (fun ans proj => set_update ans (powerset proj)) Ws [] in
  sorted_by_len ans.

(** The inner function [score] of [compile_workload]. *)
Definition score (weights : dict Q) (cl : Clique) : result Q :=
  for_each (dict_keys weights)
    (fun acc workload_cl =>
       bind (dict_get workload_cl weights) (fun wt =>
       Ok (acc + wt * inject_Z (Z.of_nat (overlap cl workload_cl))))) 0.

Definition compile_workload (workload : list (Clique * Q)) : result (dict Q) :=
  let weights := dict_of_pairs workload in
  let workload_cliques := dict_keys weights in
  dict_comp (downward_closure workload_cliques) (score weights) [].

Section AIMDefs.
Context {B : Base} {E : Externals}.

Definition hypothetical_model_size (domain : Domain) (cliques : list Clique) : Q :=
  let maximal_cliques := jt_maximal_cliques domain cliques in
  let cells := fold_left Nat.add (map (domain_size domain) maximal_cliques) O in
  inject_Z (Z.of_nat cells) * 8 / inject_Z (2 ^ 20).

Definition filter_candidates (candidates : dict Q) (model : GraphicalModel)
  (size_limit : Q) : result (dict Q) :=
  let free_cliques := downward_closure (cv_cliques (potentials model)) in
  for_each (dict_keys candidates)
    (fun ans cl =>
       bind (cv_domain (potentials model)) (fun model_domain =>
       let cond1 :=
         Qle_bool
           (hypothetical_model_size model_domain
              (cv_cliques (potentials model) ++ [cl]))
           size_limit in
       let cond2 := set_mem cl free_cliques in
       if cond1 || cond2
       then bind (dict_get cl candidates) (fun wgt => Ok (dict_set cl wgt ans))
       else Ok ans)) [].

(** What [print] has written. *)
Inductive event : Type :=
| PrintRunning (iterations : nat)
| PrintMeasuring (cl : Clique)
| PrintTotalBudget (rho_used : Q)
| PrintGenerating.

(** The fields [__init__] sets and nothing changes afterwards;
    [structural_zeros] is stored and never read. *)
Record AIM : Type := mkAIM {
  epsilon : Q;
  delta : Q;
  rho : Q;
  rounds : option nat;
  max_iters : nat;
  max_model_size : Q
}.

(** What a run changes: the budget counter, the random generator and
    the standard output. *)
Record AIM_state : Type := mkState {
  rho_used : Q;
  prng : PRNG;
  stdout : list event
}.

(** [AIM.__init__] ([prng] is the generator the base class stores). *)
Definition AIM_init (epsilon delta : Q) (prng : PRNG) (rounds : option nat)
  (max_model_size : Q) (max_iters : nat) : AIM * AIM_state :=
  (mkAIM epsilon delta (cdp_rho epsilon delta) rounds max_iters max_model_size,
   mkState 0 prng []).

Definition print (st : AIM_state) (e : event) : AIM_state :=
  mkState (rho_used st) (prng st) (stdout st ++ [e]).

(** The two dictionaries [errors] and [sensitivity] of
    [worst_approximated] after its loop. *)
Definition wa_loop (candidates : dict Q) (answers : dict vec)
  (model : GraphicalModel) (sigma : Q) : result (dict Q * dict Q) :=
  for_each (dict_keys candidates)
    (fun es cl =>
       bind (dict_get cl candidates) (fun wgt =>
       bind (dict_get cl answers) (fun x =>
       bind (cv_domain (potentials model)) (fun model_domain =>
       let bias :=
         np_sqrt (2 / np_pi) * sigma
         * inject_Z (Z.of_nat (domain_size model_domain cl)) in
       let xest := factor_datavector (gm_project model cl) in
       bind (broadcast Qminus x xest) (fun diff =>
       Ok (dict_set cl (wgt * (norm1 diff - bias)) (fst es),
           dict_set cl (Qabs wgt) (snd es)))))))
    ([], []).

Definition worst_approximated (st : AIM_state) (candidates : dict Q)
  (answers : dict vec) (model : GraphicalModel) (rho : Q)
  : result (Clique * AIM_state) :=
  bind (py_div 1 (2 * rho)) (fun inv =>
  let sigma := np_sqrt inv in
  bind (wa_loop candidates answers model sigma) (fun es =>
  bind (py_max_list (map snd (snd es))) (fun max_sensitivity =>
  let epsilon := np_sqrt (8 * rho) in
  let (cl, g) := exponential_mechanism (prng st) (fst es) epsilon max_sensitivity in
  Ok (cl, mkState (rho_used st) g (stdout st))))).

(** [zcdp_gaussian_mech]: the counter is charged first, then the noise
    is drawn at scale [sigma]. *)
Definition zcdp_gaussian_mech (st : AIM_state) (val : vec) (sensitivity rho : Q)
  : result (vec * AIM_state) :=
  let rho_used' := rho_used st + rho in
  bind (py_div (sensitivity * sensitivity) (2 * rho)) (fun var =>
  let sigma := np_sqrt var in
  let (noise, g) := prng_normal (prng st) sigma (List.length val) in
  bind (broadcast Qplus val noise) (fun y =>
  Ok (y, mkState rho_used' g (stdout st)))).

(** One pass of the loop over [initial_cliques] in [run]. *)
Definition initial_step (data : Dataset) (rho_oneway_i : Q)
  (acc : AIM_state * list LinearMeasurement) (cl : Clique)
  : result (AIM_state * list LinearMeasurement) :=
  let x := data_project_datavector data cl in
  bind (zcdp_gaussian_mech (fst acc) x 1 rho_oneway_i) (fun ys =>
  bind (py_div 1 (2 * rho_oneway_i)) (fun inv =>
  let std := np_sqrt inv in
  Ok (snd ys,
      snd acc ++ [mkLinearMeasurement (fst ys) cl std default_query]))).

(** The state of the adaptive loop of [run]. *)
Record round_state : Type := mkRound {
  rs_state : AIM_state;
  rs_measurements : list LinearMeasurement;
  rs_model : GraphicalModel
}.

(** One pass of the loop [for t in range(iterations)] in [run], as far
    as the measurement it appends (lines 153-161): the state of the
    mechanism and the measurements after it. *)
Definition round_measure (self : AIM) (data : Dataset) (candidates : dict Q)
  (answers : dict vec) (rho_oneway_i rho_iters_i : Q) (rs : round_state)
  : result (AIM_state * list LinearMeasurement) :=
  let st := rs_state rs in
  let model := rs_model rs in
  bind (py_div (max_model_size self * rho_used st) (rho self)) (fun size_limit =>
  bind (filter_candidates candidates model size_limit) (fun small_candidates =>
  bind (worst_approximated st small_candidates answers model (rho_iters_i / 2))
       (fun sel =>
  let cl := fst sel in
  let st := print (snd sel) (PrintMeasuring cl) in
  let n := domain_size (data_domain data) cl in
  let x := data_project_datavector data cl in
  bind (zcdp_gaussian_mech st x 1 (rho_iters_i / 2)) (fun ys =>
  bind (py_div 1 (2 * rho_oneway_i)) (fun inv =>
  let std := np_sqrt inv in
  Ok (snd ys,
      rs_measurements rs ++ [mkLinearMeasurement (fst ys) cl std default_query])))))).

(** The rest of the pass (lines 163-169): the warm start from the
    potentials of the previous model, and the new fit. *)
Definition round_refit (self : AIM) (data : Dataset) (model : GraphicalModel)
  (sm : AIM_state * list LinearMeasurement) : result round_state :=
  let measurements := snd sm in
  let pcliques := set_update [] (map clique measurements) in
  bind (cv_expand (potentials model) pcliques) (fun potentials =>
  bind (mirror_descent (data_domain data) (inl measurements) None
          (Some potentials) message_passing_new (max_iters self) None)
       (fun fit =>
  Ok (mkRound (fst sm) measurements (fst fit)))).

(** One pass of the loop [for t in range(iterations)] in [run]
    (lines 153-169). *)
Definition round_step (self : AIM) (data : Dataset) (candidates : dict Q)
  (answers : dict vec) (rho_oneway_i rho_iters_i : Q)
  (rs : round_state) (t : nat) : result round_state :=
  bind (round_measure self data candidates answers rho_oneway_i rho_iters_i rs)
       (round_refit self data (rs_model rs)).

(** [len(cl) == 1] *)
Definition is_oneway (cl : Clique) : bool := Nat.eqb (List.length cl) 1.

(** What [run] has computed when it enters its loop. *)
Record run_context : Type := mkContext {
  rc_candidates : dict Q;
  rc_answers : dict vec;
  rc_rho_oneway_i : Q;
  rc_iterations : nat;
  rc_rho_iters_i : Q;
  rc_round : round_state
}.

(** [AIM.run] up to its loop (lines 121-151): the candidates and their
    answers, the initial measurements and the first model, the number of
    rounds and their budget. *)
Definition run_setup (self : AIM) (st : AIM_state) (data : Dataset)
  (workload : list (Clique * Q)) (initial_cliques : option (list Clique))
  : result run_context :=
  let rounds :=
    match rounds self with
    | Some (S r) => S r
    | _ => (16 * domain_len (data_domain data))%nat
    end in
  bind (compile_workload workload) (fun candidates =>
  let answers :=
    dict_of_pairs
      (map (fun cl => (cl, data_project_datavector data cl)) (dict_keys candidates)) in
  let rho_oneway := rho self * 0.05 in
  let rho_iterations := rho self * 0.95 in
  let initial_cliques :=
    match initial_cliques with
    | None | Some [] => filter is_oneway (dict_keys candidates)
    | Some cls => cls
    end in
  let oneway := filter is_oneway (dict_keys candidates) in
  bind (py_div rho_oneway (Qlen oneway)) (fun rho_oneway_i =>
  bind (for_each initial_cliques (initial_step data rho_oneway_i) (st, []))
       (fun init =>
  bind (mirror_descent (data_domain data) (inl (snd init)) None None
          message_passing_new (max_iters self) None) (fun fit0 =>
  let iterations := (List.length workload / 4)%nat in
  bind (py_div rho_iterations (inject_Z (Z.of_nat iterations))) (fun rho_iters_i =>
  let st := print (fst init) (PrintRunning iterations) in
  Ok (mkContext candidates answers rho_oneway_i iterations rho_iters_i
        (mkRound st (snd init) (fst fit0)))))))).

(** [AIM.run] up to the end of its loop [for t in range(iterations)]:
    the state of the mechanism, the measurements taken and the model
    fitted last. *)
Definition run_rounds (self : AIM) (st : AIM_state) (data : Dataset)
  (workload : list (Clique * Q)) (initial_cliques : option (list Clique))
  : result round_state :=
  bind (run_setup self st data workload initial_cliques) (fun c =>
  for_each (seq 0 (rc_iterations c))
    (round_step self data (rc_candidates c) (rc_answers c)
       (rc_rho_oneway_i c) (rc_rho_iters_i c))
    (rc_round c)).

(** [AIM.run]; it returns the model, the synthetic data and the state
    the mechanism is left in. *)
Definition run (self : AIM) (st : AIM_state) (data : Dataset)
  (workload : list (Clique * Q)) (num_synth_rows : option nat)
  (initial_cliques : option (list Clique))
  : result (GraphicalModel * Synth * AIM_state) :=
  bind (run_rounds self st data workload initial_cliques) (fun rs =>
  let st := print (rs_state rs) (PrintTotalBudget (rho_used (rs_state rs))) in
  let st := print st PrintGenerating in
  bind (mirror_descent (data_domain data) (inl (rs_measurements rs)) None None
          message_passing_new (max_iters self) None) (fun fit =>
  let model := fst fit in
  let rows :=
    match num_synth_rows with
    | Some (S r) => inject_Z (Z.of_nat (S r))
    | _ => total model
    end in
  let synth := from_marginals model rows in
  Ok (model, synth, st))).

End AIMDefs.

(* ================================================================== *)
(** ** Reference definitions, written from the specification *)

Section CliqueVectorSpec.
Context {B : Base}.

(** "Finds the first stored key that is a superset of [c] and adds [g]
    into that slot"; a vector without such a key is left as it is. *)
Fixpoint add_first_cover (V : CliqueVector) (c : Clique) (g : Factor) : CliqueVector :=
  match V with
  | [] => []
  | (k, f) :: V' =>
      if subset c k then (k, factor_add f g) :: V'
      else (k, f) :: add_first_cover V' c g
  end.

End CliqueVectorSpec.

(** The test [minimum_variance_unbiased_total] applies to a measurement:
    its query returns, without raising, a vector that [np.allclose]
    accepts as equal to the noisy value. *)
Definition is_identity_on_value (M : LinearMeasurement) : bool :=
  match bind (query M (noisy_measurement M))
             (fun qy => allclose qy (noisy_measurement M)) with
  | Ok true => true
  | _ => false
  end.

(** The sum of a measurement and the variance of that sum. *)
Definition measurement_sum (M : LinearMeasurement) : Q :=
  vec_sum (noisy_measurement M).

Definition measurement_variance (M : LinearMeasurement) : Q :=
  stddev M * stddev M * Qlen (noisy_measurement M).

(** "Combine their sums with inverse-variance weights": the weighted
    mean of the sums, each weighted by the inverse of its variance. *)
Definition inverse_variance_estimate (ms : list LinearMeasurement) : Q :=
  vec_sum (map (fun M => measurement_sum M / measurement_variance M) ms)
  / vec_sum (map (fun M => 1 / measurement_variance M) ms).

(** Two vectors "share the same key set". *)
Definition same_keys {V W} (d : dict V) (e : dict W) : Prop :=
  forall k, In k (dict_keys d) <-> In k (dict_keys e).

(** [k] is a sub-tuple of [w]: the attributes of [k] occur in [w], in
    the same order.  The non-empty sub-tuples of a clique are its
    "non-empty subsets". *)
Fixpoint subtuple (k w : Clique) : bool :=
  match w with
  | [] => match k with [] => true | _ :: _ => false end
  | b :: w' =>
      match k with
      | [] => true
      | a :: k' => (String.eqb a b && subtuple k' w') || subtuple k w'
      end
  end.

(** "Candidates = downward closure of all workload cliques." *)
Definition is_candidate (workload : list (Clique * Q)) (k : Clique) : Prop :=
  k <> [] /\ exists wc, In wc (map fst workload) /\ subtuple k wc = true.

(** "Score = sum over workload cliques of weight x |candidate & workload
    clique|", the workload being read as a mapping from clique to
    weight. *)
Definition weighted_overlap (weights : list (Clique * Q)) (cl : Clique) : Q :=
  fold_left
    (fun acc wc => acc + snd wc * inject_Z (Z.of_nat (overlap cl (fst wc))))
    weights 0.

(** "Ordered by increasing size." *)
Definition by_size (a b : Clique) : Prop := (List.length a <= List.length b)%nat.

Section AIMSpec.
Context {B : Base} {E : Externals}.

(** The one-way candidates of a run, and the cliques its initial round
    measures: the caller's, or the one-way candidates when the caller
    gives none. *)
Definition oneway_of (candidates : dict Q) : list Clique :=
  filter is_oneway (dict_keys candidates).

Definition initial_of (candidates : dict Q) (initial_cliques : option (list Clique))
  : list Clique :=
  match initial_cliques with
  | None | Some [] => oneway_of candidates
  | Some cls => cls
  end.

(** The number of lines ["Measuring Clique ..."] in the output: one is
    printed in every adaptive round. *)
Definition measuring_lines (out : list event) : nat :=
  List.length (filter (fun e => match e with PrintMeasuring _ => true | _ => false end) out).

End AIMSpec.

(* ================================================================== *)
(** ** Auxiliary definitions for the statements *)

Section CliqueVectorAux.
Context {B : Base}.

(** An entry of a vector after [g] has been added at the key [c], if
    that is its key. *)
Definition add_at_key (c : Clique) (g : Factor) (kv : Clique * Factor)
  : Clique * Factor :=
  if clique_eqb (fst kv) c then (fst kv, factor_add (snd kv) g) else kv.

End CliqueVectorAux.

Section EstimationAux.
Context {B : Base}.

(** One gradient step of size [s] from [theta]:
    [theta - s * dL(marginal_oracle(theta))]. *)
Definition gradient_step (marginal_oracle : CliqueVector -> Q -> CliqueVector)
  (loss_fn : MarginalLossFn) (known_total s : Q) (theta : CliqueVector)
  : result CliqueVector :=
  bind (cv_rmul (loss_grad loss_fn (marginal_oracle theta known_total)) s)
       (fun step => cv_sub theta (Vector step)).

(** [n] gradient steps of size [s] from [theta], with the marginals
    each one starts from. *)
Fixpoint gradient_steps (marginal_oracle : CliqueVector -> Q -> CliqueVector)
  (loss_fn : MarginalLossFn) (known_total s : Q) (n : nat)
  (theta : CliqueVector) : result (CliqueVector * list CliqueVector) :=
  match n with
  | O => Ok (theta, [])
  | S n' =>
      bind (gradient_step marginal_oracle loss_fn known_total s theta) (fun theta' =>
      bind (gradient_steps marginal_oracle loss_fn known_total s n' theta') (fun r =>
      Ok (fst r, marginal_oracle theta known_total :: snd r)))
  end.

(** The first entry of a vector whose key covers [c]. *)
Definition first_cover (V : CliqueVector) (c : Clique) : option (Clique * Factor) :=
  find (fun kv => subset c (fst kv)) V.

End EstimationAux.

Section AIMAux.
Context {B : Base} {E : Externals}.

(** The test of [filter_candidates] on one candidate, for a model over
    the domain [dom]: the model with the candidate added stays within
    the size limit, or the candidate is a sub-clique of the model. *)
Definition keeps_candidate (dom : Domain) (model : GraphicalModel)
  (size_limit : Q) (cl : Clique) : bool :=
  Qle_bool (hypothetical_model_size dom (cv_cliques (potentials model) ++ [cl]))
           size_limit
  || set_mem cl (downward_closure (cv_cliques (potentials model))).

(** The quality [worst_approximated] gives a candidate: its weight
    times the L1 error of the model on it, less the error expected from
    noise of scale [sigma]. *)
Definition candidate_quality (candidates : dict Q) (answers : dict vec)
  (model : GraphicalModel) (sigma : Q) (cl : Clique) : result Q :=
  bind (dict_get cl candidates) (fun wgt =>
  bind (dict_get cl answers) (fun x =>
  bind (cv_domain (potentials model)) (fun model_domain =>
  bind (broadcast Qminus x (factor_datavector (gm_project model cl))) (fun diff =>
  Ok (wgt * (norm1 diff
             - np_sqrt (2 / np_pi) * sigma
               * inject_Z (Z.of_nat (domain_size model_domain cl)))))))).

End AIMAux.

(* ================================================================== *)
(** ** A concrete instance: domains whose attributes have one category

    Every factor then has a single cell.  The instance is used to run the
    definitions above on explicit inputs. *)

Definition cell_union (c d : Clique) : Clique :=
  c ++ filter (fun a => negb (attr_in a c)) d.

Definition OneCell : Base := {|
  Domain := Clique;
  Factor := Clique * Q;
  domain_size := fun _ _ => 1%nat;
  domain_len := fun d => List.length d;
  domain_project := fun d cl => filter (fun a => attr_in a cl) d;
  domain_merge := fun d e => Ok (cell_union d e);
  factor_zeros := fun d => (d, 0);
  factor_domain := fun f => fst f;
  factor_add := fun f g => (cell_union (fst f) (fst g), Qred (snd f + snd g));
  factor_add_scalar := fun f q => (fst f, Qred (snd f + q));
  factor_rmul := fun q f => (fst f, Qred (q * snd f));
  factor_mul := fun f g => (cell_union (fst f) (fst g), Qred (snd f * snd g));
  factor_sum := fun f => snd f;
  factor_project := fun f cl => (filter (fun a => attr_in a cl) (fst f), snd f);
  factor_datavector := fun f => [snd f]
|}.

(** The marginals of a one-cell model: every clique holds the total. *)
Definition cell_vector : Type := list (Clique * (Clique * Q)).

Definition cell_marginals (theta : cell_vector) (total : Q) : cell_vector :=
  map (fun kv => (fst kv, (fst (snd kv), Qred total))) theta.

(** Sums kept in lowest terms. *)
Definition red_sum (l : list Q) : Q := fold_left (fun a b => Qred (a + b)) l 0.

(** A least-squares loss over the measurements, with its gradient. *)
Definition cell_residual (ms : list LinearMeasurement) (k : Clique) (x : Q) : list Q :=
  map (fun M => Qred (x - red_sum (noisy_measurement M)))
      (filter (fun M => clique_eqb (clique M) k) ms).

Definition cell_loss (ms : list LinearMeasurement) : @MarginalLossFn OneCell :=
  @mkMarginalLossFn OneCell
    (set_update [] (map clique ms))
    (fun mu : cell_vector =>
       red_sum (flat_map (fun kv =>
         map (fun r => Qred (r * r)) (cell_residual ms (fst kv) (snd (snd kv)))) mu))
    (fun mu : cell_vector =>
       map (fun kv =>
              (fst kv,
               (fst (snd kv),
                red_sum (map (fun r => Qred (2 * r))
                           (cell_residual ms (fst kv) (snd (snd kv)))))))
           mu).

(** A rational stand-in for the square root: its integer part. *)
Definition cell_sqrt (q : Q) : Q := inject_Z (Z.sqrt (Qnum q / Zpos (Qden q))).

(** The candidate of largest quality (the first one among equals). *)
Definition cell_argmax (qualities : dict Q) : Clique :=
  match qualities with
  | [] => []
  | kv :: rest =>
      fst (fold_left (fun best kv => if Qlt_le_dec (snd best) (snd kv) then kv else best)
             rest kv)
  end.

(** The other collaborators over one-cell domains: a dataset is its
    attributes and its number of records; the generator is a counter and
    the noise it draws is one noise scale on every cell. *)
Definition OneCellExt : @Externals OneCell :=
  @Build_Externals OneCell
    (Clique * Q)%type                                   (* Dataset *)
    nat                                                 (* PRNG *)
    Q                                                   (* Synth *)
    cell_marginals                                      (* message_passing_new *)
    (fun _ attrs total => (attrs, total))               (* variable_elimination *)
    cell_loss                                           (* from_linear_measurements *)
    (fun _ rows => rows)                                (* from_marginals *)
    (fun data => fst data)                              (* data_domain *)
    (fun data _ => [snd data])                          (* data_project_datavector *)
    (fun g sigma n => (repeat sigma n, S g))            (* prng_normal *)
    (fun g qualities _ _ => (cell_argmax qualities, S g)) (* exponential_mechanism *)
    (fun epsilon _ => epsilon * epsilon / 2)            (* cdp_rho *)
    (fun _ cliques => cliques)                          (* jt_maximal_cliques *)
    cell_sqrt                                           (* np_sqrt *)
    (355 # 113)                                         (* np_pi *)
    (fun y => Ok y).                                    (* default_query *)

(** A quadratic loss, with the potentials themselves as marginals. *)
Definition square_loss : @MarginalLossFn OneCell :=
  @mkMarginalLossFn OneCell []
    (fun mu : cell_vector =>
       Qred (vec_sum (map (fun kv => snd (snd kv) * snd (snd kv)) mu)))
    (fun mu : cell_vector =>
       map (fun kv => (fst kv, (fst (snd kv), Qred (2 * snd (snd kv))))) mu).

Definition identity_oracle (theta : cell_vector) (total : Q) : cell_vector := theta.

(* ================================================================== *)
(** ** Explicit inputs *)

Open Scope string_scope.

(** Two vectors with different key sets. *)
Definition ex_V : cell_vector := [(["A"], (["A"], 1))].
Definition ex_W : cell_vector := [(["A"], (["A"], 2)); (["B"], (["B"], 3))].

(** A vector with two keys that cover [(A,)]. *)
Definition ex_U : cell_vector :=
  [(["B"; "C"], (["B"; "C"], 4)); (["A"; "B"], (["A"; "B"], 5));
   (["A"; "C"], (["A"; "C"], 7))].

(** Two identity measurements: sum 100 at noise scale 2, sum 110 at
    noise scale 4. *)
Definition ex_M100 : LinearMeasurement :=
  mkLinearMeasurement [100] ["A"] 2 (fun y => Ok y).
Definition ex_M110 : LinearMeasurement :=
  mkLinearMeasurement [110] ["B"] 4 (fun y => Ok y).

(** A dataset of 100 records over six attributes, a workload of four
    cliques over three of them, and [AIM(0.2, 1e-9, max_iters=2)]. *)
Definition ex_data : @Dataset OneCell OneCellExt := (["A"; "B"; "C"; "D"; "E"; "F"], 100).

Definition ex_workload : list (Clique * Q) :=
  [(["A"; "B"], 1.0); (["A"; "C"], 1.0); (["B"; "C"], 1.0); (["A"; "B"; "C"], 1.0)].

(** A workload of eight cliques over four of the attributes: two rounds
    are due. *)
Definition ex_workload8 : list (Clique * Q) :=
  [(["A"; "B"], 1.0); (["A"; "C"], 1.0); (["A"; "D"], 1.0); (["B"; "C"], 1.0);
   (["B"; "D"], 1.0); (["C"; "D"], 1.0); (["A"; "B"; "C"], 1.0);
   (["A"; "B"; "D"], 1.0)].

Definition ex_mech : AIM * @AIM_state OneCell OneCellExt :=
  @AIM_init OneCell OneCellExt 0.2 1e-9 O None 80 2.

(** The 41 cliques of at most three attributes of the dataset. *)
Definition ex_initial_cliques : list Clique :=
  flat_map (combinations ["A"; "B"; "C"; "D"; "E"; "F"]) [1; 2; 3]%nat.

Close Scope string_scope.

(* ================================================================== *)
(** * Properties *)

(** ** The exception monad *)

Lemma bind_ok_inv {A B} (c : result A) (k : A -> result B) (b : B) :
  bind c k = Ok b -> exists a, c = Ok a /\ k a = Ok b.
Proof.
  destruct c as [a|e]; simpl; intros H; [eauto | discriminate].
Qed.

Lemma bind_raise_inv {A B} (c : result A) (k : A -> result B) (e : exn) :
  bind c k = Raise e -> c = Raise e \/ exists a, c = Ok a /\ k a = Raise e.
Proof.
  destruct c as [a|e']; simpl; intros H; [right; eauto | left; congruence].
Qed.

(** A way to state what a computation returns: it is enough to
    evaluate it. *)
Lemma ok_by_evaluation {A} (r : result A) (P : A -> Prop) :
  match r with Ok a => P a | Raise _ => False end -> exists a, r = Ok a /\ P a.
Proof. destruct r as [a|e]; [eauto | tauto]. Qed.

Lemma ok_by_evaluation2 {A B} (r : result A) (k : A -> result B)
  (P : A -> B -> Prop) :
  match r with
  | Ok a => match k a with Ok b => P a b | Raise _ => False end
  | Raise _ => False
  end ->
  exists a b, r = Ok a /\ k a = Ok b /\ P a b.
Proof.
  destruct r as [a|e]; [|tauto].
  destruct (k a) as [b|e] eqn:K; [|tauto]. eauto.
Qed.

Lemma raise_by_evaluation {A} (r : result A) (e : exn) :
  match r with Ok _ => False | Raise e' => e' = e end -> r = Raise e.
Proof. destruct r as [a|e']; [tauto | congruence]. Qed.

(** A loop whose body cannot fail under an invariant it keeps does not
    fail. *)
Lemma for_each_total {A S} (P : S -> Prop) (xs : list A)
  (body : S -> A -> result S) :
  (forall st x, P st -> exists st', body st x = Ok st' /\ P st') ->
  forall st, P st -> exists st', for_each xs body st = Ok st' /\ P st'.
Proof.
  intros Hstep. induction xs as [|x xs IH]; simpl; intros st HP.
  - eauto.
  - destruct (Hstep st x HP) as (st1 & -> & HP1). simpl. auto.
Qed.

(** ** Cliques *)

Lemma attr_in_iff a c : attr_in a c = true <-> In a c.
Proof.
  unfold attr_in. rewrite existsb_exists. split.
  - intros (b & Hb & E). apply String.eqb_eq in E. now subst.
  - intros H. exists a. split; [assumption | apply String.eqb_refl].
Qed.

Lemma clique_eqb_eq c d : clique_eqb c d = true <-> c = d.
Proof.
  revert d. induction c as [|a c IH]; intros [|b d]; simpl;
    try (split; [discriminate | discriminate]); try tauto.
  rewrite andb_true_iff, String.eqb_eq, IH. split.
  - intros [-> ->]. reflexivity.
  - intros E. injection E as -> ->. auto.
Qed.

Lemma clique_eqb_refl c : clique_eqb c c = true.
Proof. now apply clique_eqb_eq. Qed.

Lemma clique_eqb_neq c d : clique_eqb c d = false <-> c <> d.
Proof.
  split.
  - intros H E. apply clique_eqb_eq in E. congruence.
  - intros H. destruct (clique_eqb c d) eqn:E; [|reflexivity].
    apply clique_eqb_eq in E. contradiction.
Qed.

Lemma subset_iff c d : subset c d = true <-> incl c d.
Proof.
  unfold subset, incl. rewrite forallb_forall. split; intros H a Ha.
  - apply attr_in_iff. auto.
  - apply attr_in_iff. auto.
Qed.

Lemma subset_false_iff c d : subset c d = false <-> ~ incl c d.
Proof.
  rewrite <- subset_iff. destruct (subset c d); split; congruence.
Qed.

Lemma set_mem_iff c s : set_mem c s = true <-> In c s.
Proof.
  unfold set_mem. rewrite existsb_exists. split.
  - intros (k' & Hk & E). apply clique_eqb_eq in E. now subst.
  - intros H. exists c. split; [assumption | apply clique_eqb_refl].
Qed.

(** ** Dictionaries *)

Section DictFacts.
Variable V : Type.
Implicit Types (d : dict V) (k : Clique) (v : V).

Lemma dict_get_ok_iff k d : (exists v, dict_get k d = Ok v) <-> In k (dict_keys d).
Proof.
  induction d as [|[k' v'] d IH]; simpl.
  - split; [intros [v H]; discriminate | tauto].
  - destruct (clique_eqb k k') eqn:E.
    + apply clique_eqb_eq in E. subst. split; eauto.
    + apply clique_eqb_neq in E. rewrite IH. split; [tauto|].
      intros [H|H]; [congruence | assumption].
Qed.

Lemma dict_get_raise k d e : dict_get k d = Raise e -> e = KeyError /\ ~ In k (dict_keys d).
Proof.
  induction d as [|[k' v'] d IH]; simpl.
  - intros H. injection H as <-. tauto.
  - destruct (clique_eqb k k') eqn:E; [discriminate|].
    apply clique_eqb_neq in E. intros H. apply IH in H as [-> H].
    split; [reflexivity|]. intros [H'|H']; [congruence | tauto].
Qed.

Lemma dict_get_first k v d1 d2 :
  ~ In k (dict_keys d1) -> dict_get k (d1 ++ (k, v) :: d2) = Ok v.
Proof.
  induction d1 as [|[k' v'] d1 IH]; simpl; intros H.
  - now rewrite clique_eqb_refl.
  - destruct (clique_eqb k k') eqn:E.
    + apply clique_eqb_eq in E. subst. tauto.
    + apply IH. tauto.
Qed.

Lemma dict_set_first k v v' d1 d2 :
  ~ In k (dict_keys d1) ->
  dict_set k v' (d1 ++ (k, v) :: d2) = d1 ++ (k, v') :: d2.
Proof.
  induction d1 as [|[k1 v1] d1 IH]; simpl; intros H.
  - now rewrite clique_eqb_refl.
  - destruct (clique_eqb k k1) eqn:E.
    + apply clique_eqb_eq in E. subst. tauto.
    + rewrite IH; tauto.
Qed.

Lemma dict_set_new k v d :
  ~ In k (dict_keys d) -> dict_set k v d = d ++ [(k, v)].
Proof.
  induction d as [|[k1 v1] d IH]; simpl; intros H; [reflexivity|].
  destruct (clique_eqb k k1) eqn:E.
  - apply clique_eqb_eq in E. subst. tauto.
  - rewrite IH; tauto.
Qed.

Lemma dict_set_keys_in k v d k0 :
  In k0 (dict_keys (dict_set k v d)) <-> k0 = k \/ In k0 (dict_keys d).
Proof.
  induction d as [|[k' v'] d IH]; simpl.
  - intuition.
  - destruct (clique_eqb k k') eqn:E; simpl.
    + apply clique_eqb_eq in E. subst. intuition.
    + rewrite IH. intuition.
Qed.

Lemma dict_get_set_same k v d : dict_get k (dict_set k v d) = Ok v.
Proof.
  induction d as [|[k' v'] d IH]; simpl.
  - now rewrite clique_eqb_refl.
  - destruct (clique_eqb k k') eqn:E; simpl; now rewrite E.
Qed.

Lemma dict_get_set_other k k0 v d :
  k0 <> k -> dict_get k0 (dict_set k v d) = dict_get k0 d.
Proof.
  intros N. induction d as [|[k' v'] d IH]; simpl.
  - apply clique_eqb_neq in N. now rewrite N.
  - destruct (clique_eqb k k') eqn:E; simpl.
    + apply clique_eqb_eq in E. subst.
      apply clique_eqb_neq in N. now rewrite N.
    + now rewrite IH.
Qed.

Lemma dict_set_keys_NoDup k v d :
  NoDup (dict_keys d) -> NoDup (dict_keys (dict_set k v d)).
Proof.
  induction d as [|[k' v'] d IH]; simpl; intros H.
  - constructor; [tauto | constructor].
  - inversion H as [|? ? Hn Hd]; subst.
    destruct (clique_eqb k k') eqn:E; simpl.
    + constructor; assumption.
    + constructor; [|auto].
      rewrite dict_set_keys_in. apply clique_eqb_neq in E.
      intros [H'|H']; [congruence | contradiction].
Qed.

(** A comprehension over keys on which [f] succeeds succeeds, and its
    keys are those of [acc] and [ks]. *)
Lemma dict_comp_ok (f : Clique -> result V) ks : forall acc,
  (forall k, In k ks -> exists v, f k = Ok v) ->
  exists d, dict_comp ks f acc = Ok d /\
    (forall k, In k (dict_keys d) <-> In k (dict_keys acc) \/ In k ks) /\
    (NoDup (dict_keys acc) -> NoDup (dict_keys d)).
Proof.
  induction ks as [|k ks IH]; simpl; intros acc Hf.
  - exists acc. intuition.
  - destruct (Hf k (or_introl eq_refl)) as [v ->]. simpl.
    destruct (IH (dict_set k v acc)) as (d & -> & Hk & Hn); [auto|].
    exists d. split; [reflexivity|]. split.
    + intros k0. rewrite Hk, dict_set_keys_in. intuition.
    + intros H. apply Hn. now apply dict_set_keys_NoDup.
Qed.

(** A comprehension fails exactly when [f] fails on one of its keys. *)
Lemma dict_comp_raise (f : Clique -> result V) ks : forall acc e,
  dict_comp ks f acc = Raise e -> exists k, In k ks /\ f k = Raise e.
Proof.
  induction ks as [|k ks IH]; simpl; intros acc e H; [discriminate|].
  apply bind_raise_inv in H as [H|(v & Hv & H)].
  - eauto.
  - apply IH in H as (k0 & Hin & H). eauto.
Qed.

End DictFacts.

Lemma dict_comp_ok_inv {V} (f : Clique -> result V) ks : forall acc d,
  dict_comp ks f acc = Ok d -> forall k, In k ks -> exists v, f k = Ok v.
Proof.
  induction ks as [|k ks IH]; simpl; intros acc d H k0 Hin; [tauto|].
  apply bind_ok_inv in H as (v & Hv & H).
  destruct Hin as [<-|Hin]; [eauto|]. eapply IH; eauto.
Qed.

Lemma dict_get_In_NoDup {V} (d : dict V) k v :
  NoDup (dict_keys d) -> In (k, v) d -> dict_get k d = Ok v.
Proof.
  induction d as [|[k' v'] d IH]; simpl; intros Hn Hin; [tauto|].
  inversion Hn as [|? ? Hnot Hn']; subst.
  destruct Hin as [E|Hin].
  - injection E as -> ->. now rewrite clique_eqb_refl.
  - destruct (clique_eqb k k') eqn:E.
    + apply clique_eqb_eq in E. subst. exfalso. apply Hnot.
      change k' with (fst (k', v)). now apply in_map.
    + auto.
Qed.

(* ================================================================== *)
(** ** clique_vector.py *)

Section CliqueVectorFacts.
Context {B : Base}.
Implicit Types (V W : CliqueVector) (c k : Clique).

(** *** [project] *)

Lemma project_scan_suffix pre V c :
  (forall k, In k (dict_keys pre) -> ~ incl c k) ->
  match project_scan (pre ++ V) (dict_keys V) c with
  | Ok r =>
      exists p cl f post,
        V = p ++ (cl, f) :: post /\ incl c cl /\
        (forall k, In k (dict_keys p) -> ~ incl c k) /\
        r = factor_project f c
  | Raise e => e = ValueError /\ forall k, In k (dict_keys V) -> ~ incl c k
  end.
Proof.
  revert pre. induction V as [|[k f] V IH]; intros pre Hpre; simpl.
  - split; [reflexivity | tauto].
  - destruct (subset c k) eqn:S.
    + apply subset_iff in S.
      rewrite dict_get_first by (intros H; exact (Hpre k H S)). simpl.
      exists [], k, f, V. simpl. repeat split; tauto.
    + apply subset_false_iff in S.
      specialize (IH (pre ++ [(k, f)])).
      rewrite <- app_assoc in IH. simpl in IH.
      assert (Hpre' : forall k0, In k0 (dict_keys (pre ++ [(k, f)])) -> ~ incl c k0).
      { intros k0. unfold dict_keys. rewrite map_app, in_app_iff. simpl.
        intros [H|[<-|[]]]; [now apply Hpre | assumption]. }
      specialize (IH Hpre').
      destruct (project_scan (pre ++ (k, f) :: V) (dict_keys V) c) as [r|e].
      * destruct IH as (p & cl & f' & post & -> & Hc & Hp & ->).
        exists ((k, f) :: p), cl, f', post. simpl. repeat split; auto.
        intros k0 [<-|H]; auto.
      * destruct IH as [-> IH]. split; [reflexivity|].
        intros k0 [<-|H]; auto.
Qed.

(** C7.  [V.project(c)] returns the projection onto [c] of the factor
    stored at the first key, in iteration order, that is a superset of
    [c]; it raises the coverage error ([ValueError]) when no stored key
    covers [c], and only then. *)
Theorem cv_project_coverage V c :
  match cv_project V c with
  | Ok r =>
      exists pre cl f post,
        V = pre ++ (cl, f) :: post /\ incl c cl /\
        (forall k, In k (dict_keys pre) -> ~ incl c k) /\
        r = factor_project f c
  | Raise e => e = ValueError /\ forall k, In k (cv_cliques V) -> ~ incl c k
  end
  /\ ((exists e, cv_project V c = Raise e) <->
      ~ exists k, In k (cv_cliques V) /\ incl c k).
Proof.
  pose proof (project_scan_suffix [] V c) as H. simpl in H.
  specialize (H (fun _ F => match F with end)).
  unfold cv_project, cv_cliques.
  destruct (project_scan V (dict_keys V) c) as [r|e] eqn:E.
  - split; [exact H|]. split.
    + intros [e' He']. discriminate.
    + intros Hno. exfalso. apply Hno.
      destruct H as (pre & cl & f & post & -> & Hc & _).
      exists cl. split; [|assumption].
      unfold dict_keys. rewrite map_app. apply in_or_app. right. now left.
  - split; [exact H|]. split.
    + intros _ (k & Hk & Hc). destruct H as [_ H]. exact (H k Hk Hc).
    + intros _. eauto.
Qed.

(** *** [combine] *)

Lemma add_first_cover_none V c g :
  (forall k, In k (dict_keys V) -> ~ incl c k) -> add_first_cover V c g = V.
Proof.
  induction V as [|[k f] V IH]; simpl; intros H; [reflexivity|].
  destruct (subset c k) eqn:S.
  - apply subset_iff in S. exfalso. exact (H k (or_introl eq_refl) S).
  - f_equal. apply IH. auto.
Qed.

Lemma add_first_cover_split pre k f post c g :
  incl c k -> (forall k', In k' (dict_keys pre) -> ~ incl c k') ->
  add_first_cover (pre ++ (k, f) :: post) c g = pre ++ (k, factor_add f g) :: post.
Proof.
  intros Hc. induction pre as [|[k1 f1] pre IH]; simpl; intros Hpre.
  - apply subset_iff in Hc. now rewrite Hc.
  - destruct (subset c k1) eqn:S.
    + apply subset_iff in S. exfalso. exact (Hpre k1 (or_introl eq_refl) S).
    + f_equal. apply IH. auto.
Qed.

Lemma combine_inner_suffix W c g pre V :
  dict_get c W = Ok g ->
  (forall k, In k (dict_keys pre) -> ~ incl c k) ->
  combine_inner (pre ++ V) W (dict_keys V) c = Ok (pre ++ add_first_cover V c g).
Proof.
  intros Hg. revert pre. induction V as [|[k f] V IH]; intros pre Hpre; simpl.
  - reflexivity.
  - destruct (subset c k) eqn:S.
    + apply subset_iff in S.
      assert (Hk : ~ In k (dict_keys pre)) by (intros H; exact (Hpre k H S)).
      rewrite dict_get_first by assumption. simpl. rewrite Hg. simpl.
      now rewrite dict_set_first.
    + apply subset_false_iff in S.
      specialize (IH (pre ++ [(k, f)])).
      rewrite <- !app_assoc in IH. simpl in IH. apply IH.
      intros k0. unfold dict_keys. rewrite map_app, in_app_iff. simpl.
      intros [H|[<-|[]]]; [now apply Hpre | assumption].
Qed.

Lemma cv_combine_loop W ks : forall V,
  incl ks (dict_keys W) ->
  for_each ks (fun self cl => combine_inner self W (dict_keys self) cl) V
  = Ok (fold_left
          (fun V c => match dict_get c W with
                      | Ok g => add_first_cover V c g
                      | Raise _ => V
                      end) ks V).
Proof.
  induction ks as [|c ks IH]; simpl; intros V Hin; [reflexivity|].
  assert (Hc : In c (dict_keys W)) by (apply Hin; now left).
  apply dict_get_ok_iff in Hc as [g Hg]. rewrite Hg.
  pose proof (combine_inner_suffix W c g [] V Hg) as Hstep. simpl in Hstep.
  rewrite Hstep by tauto. simpl.
  apply IH. intros k Hk. apply Hin. now right.
Qed.

(** [combine] never raises, whatever the two vectors are. *)
Lemma cv_combine_never_raises V W : exists V', cv_combine V W = Ok V'.
Proof.
  unfold cv_combine. rewrite cv_combine_loop by apply incl_refl. eauto.
Qed.

Lemma fold_lookup_pairs W : forall Wsuf V,
  (forall c g, In (c, g) Wsuf -> dict_get c W = Ok g) ->
  fold_left
    (fun V c => match dict_get c W with
                | Ok g => add_first_cover V c g
                | Raise _ => V
                end) (dict_keys Wsuf) V
  = fold_left (fun V cg => add_first_cover V (fst cg) (snd cg)) Wsuf V.
Proof.
  induction Wsuf as [|[c g] Wsuf IH]; simpl; intros V H; [reflexivity|].
  rewrite (H c g) by now left. apply IH. intros c' g' Hin. apply H. now right.
Qed.

Lemma add_first_cover_keys V c g : dict_keys (add_first_cover V c g) = dict_keys V.
Proof.
  induction V as [|[k f] V IH]; simpl; [reflexivity|].
  destruct (subset c k); simpl; [reflexivity | now rewrite IH].
Qed.

Lemma cv_combine_keys V W V' : cv_combine V W = Ok V' -> dict_keys V' = dict_keys V.
Proof.
  unfold cv_combine. rewrite cv_combine_loop by apply incl_refl.
  intros H. injection H as <-.
  generalize (dict_keys W). intros ks. revert V.
  induction ks as [|c ks IH]; simpl; intros V; [reflexivity|].
  rewrite IH. destruct (dict_get c W); [apply add_first_cover_keys | reflexivity].
Qed.

(** C8.  [V.combine(W)] never raises and keeps the keys of [V]; it adds,
    for each clique [c] of [W] in turn, the factor [W[c]] into the first
    stored key of [V] that is a superset of [c]; a clique without covering
    key leaves [V] as it is; zeros over [(A, B)] combined with a vector
    over [(C,)], [C] outside [{A, B}], stay as they are. *)
Theorem cv_combine_adds_into_first_cover V W :
  NoDup (dict_keys W) ->
  (exists V', cv_combine V W = Ok V' /\ dict_keys V' = dict_keys V)
  /\ cv_combine V W
     = Ok (fold_left (fun V cg => add_first_cover V (fst cg) (snd cg)) W V)
  /\ (forall V0 c g,
        (forall k, In k (dict_keys V0) -> ~ incl c k) ->
        add_first_cover V0 c g = V0)
  /\ (forall pre k f post c g,
        incl c k -> (forall k', In k' (dict_keys pre) -> ~ incl c k') ->
        add_first_cover (pre ++ (k, f) :: post) c g
        = pre ++ (k, factor_add f g) :: post)
  /\ (forall dom (A B C : attr) g,
        C <> A -> C <> B ->
        cv_combine (cv_zeros dom [[A; B]]) [([C], g)]
        = Ok (cv_zeros dom [[A; B]])).
Proof.
  intros HW. split; [|split; [|split; [|split]]].
  - destruct (cv_combine_never_raises V W) as [V' H].
    exists V'. split; [assumption|]. eapply cv_combine_keys; eauto.
  - unfold cv_combine. rewrite cv_combine_loop by apply incl_refl.
    f_equal. apply fold_lookup_pairs.
    intros c g. now apply dict_get_In_NoDup.
  - intros V0 c g. apply add_first_cover_none.
  - intros. now apply add_first_cover_split.
  - intros dom A0 B0 C g HA HB. unfold cv_combine, cv_zeros. simpl.
    apply String.eqb_neq in HA, HB. unfold subset, attr_in. simpl.
    now rewrite HA, HB.
Qed.

(** *** [+], [-] and [dot] *)

Lemma cv_mul_ok V q :
  exists R, cv_mul V q = Ok R /\ forall k, In k (dict_keys R) <-> In k (dict_keys V).
Proof.
  unfold cv_mul.
  destruct (dict_comp_ok _
              (fun cl => bind (dict_get cl V) (fun f => Ok (factor_rmul q f)))
              (dict_keys V) [])
    as (R & HR & Hk & _).
  - intros k Hk. apply dict_get_ok_iff in Hk as [f ->]. simpl. eauto.
  - exists R. split; [assumption|]. intros k. rewrite Hk. simpl. tauto.
Qed.

Lemma cv_add_vector_ok_iff V W :
  (exists R, cv_add V (Vector W) = Ok R) <-> incl (dict_keys V) (dict_keys W).
Proof.
  simpl. split.
  - intros [R HR] k Hk.
    destruct (dict_comp_ok_inv _ _ _ _ HR k Hk) as [v Hv].
    apply bind_ok_inv in Hv as (f & _ & Hv).
    apply bind_ok_inv in Hv as (g & Hg & _).
    apply dict_get_ok_iff. eauto.
  - intros Hin.
    destruct (dict_comp_ok _
                (fun cl => bind (dict_get cl V) (fun f =>
                           bind (dict_get cl W) (fun g => Ok (factor_add f g))))
                (dict_keys V) [])
      as (R & HR & _).
    + intros k Hk. pose proof (Hin k Hk) as HW.
      apply dict_get_ok_iff in Hk as [f ->].
      apply dict_get_ok_iff in HW as [g ->]. simpl. eauto.
    + eauto.
Qed.

Lemma cv_add_vector_raise V W e : cv_add V (Vector W) = Raise e -> e = KeyError.
Proof.
  simpl. intros H. apply dict_comp_raise in H as (k & Hk & H).
  apply bind_raise_inv in H as [H|(f & _ & H)].
  - now apply dict_get_raise in H.
  - apply bind_raise_inv in H as [H|(g & _ & H)]; [|discriminate].
    now apply dict_get_raise in H.
Qed.

Lemma cv_sub_vector_add V W :
  exists W', cv_sub V (Vector W) = cv_add V (Vector W') /\
             forall k, In k (dict_keys W') <-> In k (dict_keys W).
Proof.
  unfold cv_sub, neg_operand, cv_rmul.
  destruct (cv_mul_ok W (-1)) as (W' & -> & Hk). simpl. eauto.
Qed.

Lemma cv_dot_loop V W ks : forall acc,
  match for_each ks
          (fun acc cl => bind (dict_get cl V) (fun f =>
                         bind (dict_get cl W) (fun g =>
                         Ok (acc + factor_sum (factor_mul f g))))) acc with
  | Ok _ => incl ks (dict_keys V) /\ incl ks (dict_keys W)
  | Raise e => e = KeyError /\ ~ (incl ks (dict_keys V) /\ incl ks (dict_keys W))
  end.
Proof.
  induction ks as [|k ks IH]; simpl; intros acc.
  - split; apply incl_nil_l.
  - destruct (dict_get k V) as [f|e] eqn:EV; simpl.
    + destruct (dict_get k W) as [g|e] eqn:EW; simpl.
      * specialize (IH (acc + factor_sum (factor_mul f g))).
        assert (HV : In k (dict_keys V)) by (apply dict_get_ok_iff; eauto).
        assert (HW : In k (dict_keys W)) by (apply dict_get_ok_iff; eauto).
        destruct (for_each ks _ _) as [r|e].
        -- destruct IH. split; apply incl_cons; assumption.
        -- destruct IH as [-> IH]. split; [reflexivity|].
           intros [H1 H2]. apply IH.
           split; [exact (proj2 (incl_cons_inv H1)) | exact (proj2 (incl_cons_inv H2))].
      * apply dict_get_raise in EW as [-> EW]. split; [reflexivity|].
        intros [_ H]. apply EW, H. now left.
    + apply dict_get_raise in EV as [-> EV]. split; [reflexivity|].
      intros [H _]. apply EV, H. now left.
Qed.

Lemma cv_sub_vector_ok_iff V W :
  (exists R, cv_sub V (Vector W) = Ok R) <-> incl (dict_keys V) (dict_keys W).
Proof.
  destruct (cv_sub_vector_add V W) as (W' & Hsub & HW').
  rewrite Hsub, cv_add_vector_ok_iff.
  unfold incl. split; intros H k Hk; apply HW'; auto.
Qed.

Lemma cv_dot_ok_iff V W :
  (exists q, cv_dot V W = Ok q) <-> incl (dict_keys V) (dict_keys W).
Proof.
  pose proof (cv_dot_loop V W (dict_keys V) 0) as Hdot.
  fold (cv_dot V W) in Hdot.
  destruct (cv_dot V W) as [q|e].
  - split; [tauto | eauto].
  - destruct Hdot as [_ Hdot]. split.
    + intros [q Hq]. discriminate.
    + intros H. exfalso. apply Hdot. split; [apply incl_refl | assumption].
Qed.

Lemma cv_dot_raise V W e : cv_dot V W = Raise e -> e = KeyError.
Proof.
  intros H. pose proof (cv_dot_loop V W (dict_keys V) 0) as Hdot.
  fold (cv_dot V W) in Hdot. rewrite H in Hdot. tauto.
Qed.

(** C9, as the code has it.  Addition, subtraction and [dot] of two
    clique vectors succeed exactly when every key of the left operand is
    a key of the right operand, and raise [KeyError] otherwise; keys that
    only the right operand has are ignored. *)
Theorem cv_binary_ops_need_left_keys V W :
  ((exists R, cv_add V (Vector W) = Ok R) <-> incl (dict_keys V) (dict_keys W))
  /\ ((exists R, cv_sub V (Vector W) = Ok R) <-> incl (dict_keys V) (dict_keys W))
  /\ ((exists q, cv_dot V W = Ok q) <-> incl (dict_keys V) (dict_keys W))
  /\ (forall e,
        cv_add V (Vector W) = Raise e \/ cv_sub V (Vector W) = Raise e
        \/ cv_dot V W = Raise e ->
        e = KeyError).
Proof.
  split; [apply cv_add_vector_ok_iff|].
  split; [apply cv_sub_vector_ok_iff|].
  split; [apply cv_dot_ok_iff|].
  intros e [H|[H|H]].
  - eapply cv_add_vector_raise; eauto.
  - destruct (cv_sub_vector_add V W) as (W' & Hsub & _).
    rewrite Hsub in H. eapply cv_add_vector_raise; eauto.
  - eapply cv_dot_raise; eauto.
Qed.

End CliqueVectorFacts.

(* ================================================================== *)
(** ** numpy vectors *)

Lemma vec_sum_from (v : vec) : forall a, fold_left Qplus v a == a + vec_sum v.
Proof.
  unfold vec_sum. induction v as [|x v IH]; simpl; intros a.
  - ring.
  - rewrite (IH (a + x)), (IH (0 + x)). ring.
Qed.

Lemma vec_sum_cons x v : vec_sum (x :: v) == x + vec_sum v.
Proof. unfold vec_sum at 1. simpl. rewrite vec_sum_from. ring. Qed.

Lemma isclose_refl x : isclose x x = true.
Proof.
  unfold isclose. apply Qle_bool_iff.
  setoid_replace (x - x) with 0 by ring.
  pose proof (Qabs_nonneg x) as H. simpl (Qabs 0).
  assert (0 <= 1e-5 * Qabs x) by (apply Qmult_le_0_compat; [discriminate | assumption]).
  assert (0 <= 1e-8) by discriminate. lra.
Qed.

Lemma allclose_refl y : allclose y y = Ok true.
Proof.
  unfold allclose. rewrite Nat.eqb_refl. f_equal.
  induction y as [|x y IH]; simpl; [reflexivity|].
  now rewrite isclose_refl, IH.
Qed.

Lemma py_max_floor a : 1 <= py_max 1 a.
Proof. unfold py_max. destruct (Qlt_le_dec 1 a); lra. Qed.

Lemma py_max_cases a :
  (a <= 1 -> py_max 1 a = 1) /\ (1 <= a -> py_max 1 a == a).
Proof.
  unfold py_max. destruct (Qlt_le_dec 1 a); split; intros; try reflexivity; lra.
Qed.

(* ================================================================== *)
(** ** estimation.py: the total estimator *)

Lemma mvut_collect_step M ms es vs :
  mvut_collect (M :: ms) es vs
  = if is_identity_on_value M
    then mvut_collect ms (es ++ [measurement_sum M]) (vs ++ [measurement_variance M])
    else mvut_collect ms es vs.
Proof.
  unfold is_identity_on_value. simpl.
  destruct (bind (query M (noisy_measurement M))
              (fun qy => allclose qy (noisy_measurement M))) as [[|]|e];
    reflexivity.
Qed.

Lemma mvut_collect_filter ms : forall es vs,
  mvut_collect ms es vs
  = (es ++ map measurement_sum (filter is_identity_on_value ms),
     vs ++ map measurement_variance (filter is_identity_on_value ms)).
Proof.
  induction ms as [|M ms IH]; intros es vs.
  - simpl. now rewrite !app_nil_r.
  - rewrite mvut_collect_step. simpl filter.
    destruct (is_identity_on_value M); rewrite IH; [|reflexivity].
    simpl. now rewrite <- !app_assoc.
Qed.

(** *** numpy's sums of the weights *)

Lemma measurement_variance_nonneg M : 0 <= measurement_variance M.
Proof.
  unfold measurement_variance.
  apply Qmult_le_0_compat.
  - destruct (Qlt_le_dec (stddev M) 0) as [L|L]; nra.
  - unfold Qlen. change 0 with (inject_Z 0). rewrite <- Zle_Qle. lia.
Qed.

Lemma np_sum_finite (l : list Q) : forall a,
  fold_left np_add (map Fin l) (Fin a) = Fin (fold_left Qplus l a).
Proof. induction l as [|x l IH]; intros a; simpl; [reflexivity | apply IH]. Qed.

Lemma np_inv_finite (f : LinearMeasurement -> Q) (kept : list LinearMeasurement) :
  existsb (fun M => Qeq_bool (measurement_variance M) 0) kept = false ->
  map (fun M => np_div (Fin (f M)) (Fin (measurement_variance M))) kept
  = map Fin (map (fun M => f M / measurement_variance M) kept).
Proof.
  induction kept as [|M kept IH]; cbn [map existsb]; [reflexivity|].
  intros H. apply orb_false_iff in H as [H0 H].
  rewrite (IH H). f_equal. simpl. now rewrite H0.
Qed.

Lemma np_add_not_finite x y : ~ np_finite x \/ ~ np_finite y -> ~ np_finite (np_add x y).
Proof. destruct x, y; simpl; tauto. Qed.

Lemma np_sum_not_finite (l : list npfloat) : forall acc,
  ~ np_finite acc \/ Exists (fun x => ~ np_finite x) l ->
  ~ np_finite (fold_left np_add l acc).
Proof.
  induction l as [|x l IH]; simpl; intros acc [H|H]; try assumption.
  - inversion H.
  - apply IH. left. apply np_add_not_finite. now left.
  - apply IH. inversion H as [? ? Hx|? ? Hl]; subst.
    + left. apply np_add_not_finite. now right.
    + now right.
Qed.

(** The sum of the weights [1 / v] is infinite as soon as a variance is
    zero. *)
Lemma np_weights_infinite (vs : list Q) : forall acc,
  Forall (fun v => 0 <= v) vs ->
  acc = PInf \/ (exists a, acc = Fin a /\ 0 <= a) ->
  acc = PInf \/ existsb (fun v => Qeq_bool v 0) vs = true ->
  fold_left np_add (map (fun v => np_div (Fin 1) (Fin v)) vs) acc = PInf.
Proof.
  induction vs as [|v vs IH]; simpl; intros acc Hvs Hacc Hz.
  - destruct Hz as [Hz|Hz]; [assumption | discriminate].
  - inversion Hvs as [|? ? Hv Hvs']; subst.
    destruct (Qeq_bool v 0) eqn:Z; simpl in *.
    + apply IH; [assumption | left | left];
        destruct Hacc as [->|(a & -> & _)]; reflexivity.
    + apply Qeq_bool_neq in Z.
      assert (H1 : 0 <= 1 / v).
      { unfold Qdiv. rewrite Qmult_1_l. apply Qlt_le_weak, Qinv_lt_0_compat. lra. }
      apply IH; [assumption | |].
      * destruct Hacc as [->|(a & -> & Ha)]; [now left|].
        right. exists (a + 1 / v). split; [reflexivity | lra].
      * destruct Hz as [->|Hz]; [now left | now right].
Qed.

Lemma inv_sum_positive (vs : list Q) :
  vs <> [] -> Forall (fun v => 0 < v) vs -> 0 < vec_sum (map (fun v => 1 / v) vs).
Proof.
  intros Hne Hall.
  assert (G : forall l, Forall (fun v => 0 < v) l -> 0 <= vec_sum (map (fun v => 1 / v) l)).
  { induction 1 as [|v l Hv _ IH]; [unfold vec_sum; simpl; lra|].
    simpl map. rewrite vec_sum_cons.
    assert (0 < 1 / v)
      by (unfold Qdiv; rewrite Qmult_1_l; now apply Qinv_lt_0_compat).
    lra. }
  destruct Hall as [|v l Hv Hl]; [congruence|].
  simpl map. rewrite vec_sum_cons. specialize (G l Hl).
  assert (0 < 1 / v) by (unfold Qdiv; rewrite Qmult_1_l; now apply Qinv_lt_0_compat).
  lra.
Qed.

Lemma combine_map {A X Y} (f : A -> X) (g : A -> Y) (l : list A) :
  combine (map f l) (map g l) = map (fun a => (f a, g a)) l.
Proof. induction l as [|a l IH]; simpl; [reflexivity | now rewrite IH]. Qed.

Lemma mvut_estimate_value (kept : list LinearMeasurement) :
  kept <> [] ->
  py_max_float 1
    (np_mul
       (np_div (Fin 1)
          (np_sum (map (fun v => np_div (Fin 1) (Fin v))
                     (map measurement_variance kept))))
       (np_sum (map (fun ev => np_div (Fin (fst ev)) (Fin (snd ev)))
                  (combine (map measurement_sum kept)
                     (map measurement_variance kept)))))
  = Fin (if existsb (fun M => Qeq_bool (measurement_variance M) 0) kept then 1
         else
           py_max 1
             (1 / vec_sum (map (fun v => 1 / v) (map measurement_variance kept))
              * vec_sum (map (fun M => measurement_sum M / measurement_variance M)
                           kept))).
Proof.
  intros Hne. rewrite combine_map, !map_map. cbn [fst snd]. unfold np_sum.
  destruct (existsb (fun M => Qeq_bool (measurement_variance M) 0) kept) eqn:Z.
  - rewrite <- (map_map measurement_variance (fun v => np_div (Fin 1) (Fin v))).
    rewrite np_weights_infinite.
    + assert (N : ~ np_finite
                    (fold_left np_add
                       (map (fun M => np_div (Fin (measurement_sum M))
                                        (Fin (measurement_variance M))) kept)
                       (Fin 0))).
      { apply np_sum_not_finite. right.
        apply existsb_exists in Z as (M & HM & HZ).
        apply Exists_exists.
        exists (np_div (Fin (measurement_sum M)) (Fin (measurement_variance M))).
        split; [apply in_map_iff; eauto|].
        simpl. rewrite HZ. unfold np_signed_inf.
        destruct (Qeq_bool (measurement_sum M) 0); [tauto|].
        destruct (Qle_bool 0 (measurement_sum M)); tauto. }
      destruct (fold_left np_add
                  (map (fun M => np_div (Fin (measurement_sum M))
                                   (Fin (measurement_variance M))) kept)
                  (Fin 0)); simpl in N; try tauto; reflexivity.
    + apply Forall_forall. intros v Hv. apply in_map_iff in Hv as (M & <- & _).
      apply measurement_variance_nonneg.
    + right. exists 0. split; [reflexivity | lra].
    + right. rewrite existsb_exists. apply existsb_exists in Z as (M & HM & HZ).
      exists (measurement_variance M). split; [now apply in_map | assumption].
  - rewrite (np_inv_finite (fun _ => 1)), (np_inv_finite measurement_sum) by assumption.
    rewrite !np_sum_finite.
    fold (vec_sum (map (fun M => 1 / measurement_variance M) kept)).
    fold (vec_sum (map (fun M => measurement_sum M / measurement_variance M) kept)).
    assert (P : 0 < vec_sum (map (fun M => 1 / measurement_variance M) kept)).
    { rewrite <- (map_map measurement_variance (fun v => 1 / v)).
      apply inv_sum_positive; [now destruct kept|].
      apply Forall_forall. intros v Hv. apply in_map_iff in Hv as (M & <- & HM).
      pose proof (measurement_variance_nonneg M) as H0.
      assert (HZ : Qeq_bool (measurement_variance M) 0 = false).
      { destruct (Qeq_bool (measurement_variance M) 0) eqn:E; [|reflexivity].
        rewrite <- Z. symmetry. apply existsb_exists. eauto. }
      apply Qeq_bool_neq in HZ.
      destruct (Qlt_le_dec 0 (measurement_variance M)); [assumption|].
      exfalso. apply HZ. lra. }
    cbn [np_div].
    destruct (Qeq_bool (vec_sum (map (fun M => 1 / measurement_variance M) kept)) 0) eqn:E.
    + apply Qeq_bool_iff in E. lra.
    + reflexivity.
Qed.

(** What [minimum_variance_unbiased_total] computes: 1 without kept
    measurement, 1 again (through nan) when a kept measurement has zero
    variance, and else the weighted mean, floored at 1. *)
Lemma mvut_value_unfold ms :
  mvut_value ms
  = Fin match filter is_identity_on_value ms with
        | [] => 1
        | kept =>
            if existsb (fun M => Qeq_bool (measurement_variance M) 0) kept then 1
            else
              py_max 1
                (1 / vec_sum (map (fun v => 1 / v) (map measurement_variance kept))
                 * vec_sum (map (fun M => measurement_sum M / measurement_variance M) kept))
        end.
Proof.
  unfold mvut_value. rewrite mvut_collect_filter.
  destruct (filter is_identity_on_value ms) as [|M0 kept0]; [reflexivity|].
  exact (mvut_estimate_value (M0 :: kept0) ltac:(discriminate)).
Qed.

Lemma mvut_value_finite ms :
  mvut_value ms = Fin (minimum_variance_unbiased_total ms).
Proof.
  unfold minimum_variance_unbiased_total. now rewrite mvut_value_unfold.
Qed.

Lemma mvut_unfold ms :
  minimum_variance_unbiased_total ms
  = match filter is_identity_on_value ms with
    | [] => 1
    | kept =>
        if existsb (fun M => Qeq_bool (measurement_variance M) 0) kept then 1
        else
          py_max 1
            (1 / vec_sum (map (fun v => 1 / v) (map measurement_variance kept))
             * vec_sum (map (fun M => measurement_sum M / measurement_variance M) kept))
    end.
Proof.
  unfold minimum_variance_unbiased_total. now rewrite mvut_value_unfold.
Qed.

(** Without kept measurement of zero variance, as when all variances
    are positive. *)
Lemma positive_variances_no_zero (kept : list LinearMeasurement) :
  (forall M, In M kept -> 0 < measurement_variance M) ->
  existsb (fun M => Qeq_bool (measurement_variance M) 0) kept = false.
Proof.
  intros H. destruct (existsb _ kept) eqn:Z; [|reflexivity].
  apply existsb_exists in Z as (M & HM & HZ).
  apply Qeq_bool_iff in HZ. specialize (H M HM). lra.
Qed.

Lemma mvut_estimate_eq kept :
  1 / vec_sum (map (fun v => 1 / v) (map measurement_variance kept))
  * vec_sum (map (fun M => measurement_sum M / measurement_variance M) kept)
  == inverse_variance_estimate kept.
Proof.
  unfold inverse_variance_estimate. rewrite map_map.
  unfold Qdiv. ring.
Qed.

(** The inverse-variance estimate of two measurements. *)
Lemma inverse_variance_estimate_two M1 M2 :
  inverse_variance_estimate [M1; M2]
  == (measurement_sum M1 / measurement_variance M1
      + measurement_sum M2 / measurement_variance M2)
     / (1 / measurement_variance M1 + 1 / measurement_variance M2).
Proof.
  unfold inverse_variance_estimate. simpl map.
  rewrite !vec_sum_cons. unfold vec_sum. simpl fold_left.
  setoid_replace (measurement_sum M1 / measurement_variance M1
                  + (measurement_sum M2 / measurement_variance M2 + 0))
    with (measurement_sum M1 / measurement_variance M1
          + measurement_sum M2 / measurement_variance M2) by ring.
  setoid_replace (1 / measurement_variance M1 + (1 / measurement_variance M2 + 0))
    with (1 / measurement_variance M1 + 1 / measurement_variance M2) by ring.
  reflexivity.
Qed.

(** C5, as the code has it.  Only the measurements that pass the
    identity test are kept; without any the estimate is exactly 1.  The
    variance of a sum is [stddev^2] times the length of the vector, never
    negative.  When the kept variances are positive the estimate is the
    inverse-variance weighted mean of the kept sums, floored at 1; when
    one of them is zero the weighted mean is nan and the result is 1.
    In every case the value returned is a finite number, at least 1.
    Two identity measurements with sums 100 and 110, noise scales 2 and 4
    and lengths [n1] and [n2] combine to
    [(400 n2 + 110 n1) / (4 n2 + n1)]: exactly 102 when the lengths are
    equal. *)
Theorem mvut_inverse_variance (ms : list LinearMeasurement) :
  let kept := filter is_identity_on_value ms in
  mvut_value ms = Fin (minimum_variance_unbiased_total ms)
  /\ (kept = [] -> minimum_variance_unbiased_total ms = 1)
  /\ (forall M : LinearMeasurement, 0 <= measurement_variance M)
  /\ ((exists M, In M kept /\ measurement_variance M == 0) ->
      minimum_variance_unbiased_total ms = 1)
  /\ (kept <> [] ->
      (forall M, In M kept -> 0 < measurement_variance M) ->
      (inverse_variance_estimate kept <= 1 -> minimum_variance_unbiased_total ms = 1)
      /\ (1 <= inverse_variance_estimate kept ->
          minimum_variance_unbiased_total ms == inverse_variance_estimate kept))
  /\ 1 <= minimum_variance_unbiased_total ms
  /\ (forall M1 M2 : LinearMeasurement,
        query M1 (noisy_measurement M1) = Ok (noisy_measurement M1) ->
        query M2 (noisy_measurement M2) = Ok (noisy_measurement M2) ->
        measurement_sum M1 == 100 -> stddev M1 == 2 ->
        measurement_sum M2 == 110 -> stddev M2 == 4 ->
        0 < Qlen (noisy_measurement M1) ->
        0 < Qlen (noisy_measurement M2) ->
        minimum_variance_unbiased_total [M1; M2]
        == (400 * Qlen (noisy_measurement M2) + 110 * Qlen (noisy_measurement M1))
           / (4 * Qlen (noisy_measurement M2) + Qlen (noisy_measurement M1))
        /\ (Qlen (noisy_measurement M1) == Qlen (noisy_measurement M2) ->
            minimum_variance_unbiased_total [M1; M2] == 102)).
Proof.
  intros kept.
  split; [apply mvut_value_finite|].
  rewrite mvut_unfold. fold kept.
  split; [|split; [|split; [|split; [|split]]]].
  - intros ->. reflexivity.
  - apply measurement_variance_nonneg.
  - intros (M & HM & HZ). destruct kept as [|M0 kept']; [destruct HM|].
    assert (Z : existsb (fun M => Qeq_bool (measurement_variance M) 0) (M0 :: kept')
                = true).
    { apply existsb_exists. exists M. split; [assumption|]. now apply Qeq_bool_iff. }
    cbv beta iota zeta. now rewrite Z.
  - intros Hne Hpos. destruct kept as [|M kept']; [congruence|].
    cbv beta iota zeta. rewrite (positive_variances_no_zero _ Hpos).
    pose proof (mvut_estimate_eq (M :: kept')) as E.
    destruct (py_max_cases
                (1 / vec_sum (map (fun v => 1 / v) (map measurement_variance (M :: kept')))
                 * vec_sum (map (fun M => measurement_sum M / measurement_variance M)
                              (M :: kept')))) as [Hlo Hhi].
    split; intros H.
    + apply Hlo. rewrite E. assumption.
    + rewrite Hhi by (rewrite E; assumption). exact E.
  - destruct kept as [|M kept']; [lra|]. cbv beta iota zeta.
    destruct (existsb _ (M :: kept')); [lra | apply py_max_floor].
  - clear ms kept. intros M1 M2 Q1 Q2 S1 D1 S2 D2 N1 N2.
    rewrite mvut_unfold.
    assert (I1 : is_identity_on_value M1 = true).
    { unfold is_identity_on_value. rewrite Q1. simpl. now rewrite allclose_refl. }
    assert (I2 : is_identity_on_value M2 = true).
    { unfold is_identity_on_value. rewrite Q2. simpl. now rewrite allclose_refl. }
    cbn [filter]. rewrite I1, I2. cbv beta iota zeta.
    assert (V1 : 0 < measurement_variance M1).
    { unfold measurement_variance. rewrite D1. lra. }
    assert (V2 : 0 < measurement_variance M2).
    { unfold measurement_variance. rewrite D2. lra. }
    rewrite (positive_variances_no_zero [M1; M2])
      by (intros M [<-|[<-|[]]]; assumption).
    pose proof (mvut_estimate_eq [M1; M2]) as E.
    rewrite inverse_variance_estimate_two in E.
    unfold measurement_variance in E. rewrite S1, S2, D1, D2 in E.
    set (n1 := Qlen (noisy_measurement M1)) in *.
    set (n2 := Qlen (noisy_measurement M2)) in *.
    assert (F : (100 / (2 * 2 * n1) + 110 / (4 * 4 * n2))
                / (1 / (2 * 2 * n1) + 1 / (4 * 4 * n2))
                == (400 * n2 + 110 * n1) / (4 * n2 + n1)).
    { field. repeat split; lra. }
    rewrite F in E.
    assert (G : 1 <= (400 * n2 + 110 * n1) / (4 * n2 + n1)).
    { apply Qle_shift_div_l; lra. }
    destruct (py_max_cases
                (1 / vec_sum (map (fun v => 1 / v) (map measurement_variance [M1; M2]))
                 * vec_sum (map (fun M => measurement_sum M / measurement_variance M)
                              [M1; M2]))) as [_ Hhi].
    rewrite Hhi by (rewrite E; exact G).
    split; [exact E|].
    intros Hn. rewrite E, Hn. field. lra.
Qed.


(* ================================================================== *)
(** ** estimation.py: mirror descent *)

Section EstimationFacts.
Context {B : Base}.
Implicit Types (V W theta mu : CliqueVector).

Lemma dict_of_pairs_tabulate {X} (f : Clique -> X) (ks : list Clique) : forall acc,
  (forall k, In k (dict_keys acc) -> dict_get k acc = Ok (f k)) ->
  let d := fold_left (fun d kv => dict_set (fst kv) (snd kv) d)
             (map (fun k => (k, f k)) ks) acc in
  (forall k, In k (dict_keys d) <-> In k (dict_keys acc) \/ In k ks)
  /\ (forall k, In k (dict_keys d) -> dict_get k d = Ok (f k)).
Proof.
  induction ks as [|k0 ks IH]; simpl; intros acc Hacc.
  - split; [tauto | assumption].
  - destruct (IH (dict_set k0 (f k0) acc)) as [Hk Hg].
    + intros k Hin. destruct (list_eq_dec string_dec k k0) as [->|N].
      * apply dict_get_set_same.
      * rewrite dict_get_set_other by assumption. apply Hacc.
        apply dict_set_keys_in in Hin. tauto.
    + split; [|assumption].
      intros k. rewrite Hk, dict_set_keys_in. intuition.
Qed.

Lemma cv_zeros_spec (dom : Domain) (cls : list Clique) :
  (forall cl, In cl (dict_keys (cv_zeros dom cls)) <-> In cl cls)
  /\ (forall cl, In cl cls ->
        dict_get cl (cv_zeros dom cls) = Ok (factor_zeros (domain_project dom cl))).
Proof.
  unfold cv_zeros, dict_of_pairs.
  destruct (dict_of_pairs_tabulate
              (fun cl => factor_zeros (domain_project dom cl)) cls [])
    as [Hk Hg]; [simpl; tauto|].
  split.
  - intros cl. rewrite Hk. simpl. tauto.
  - intros cl Hin. apply Hg, Hk. now right.
Qed.

(** C4.  With [iters = 0], a list of measurements, no known total and
    no initial potentials, [mirror_descent] returns the model whose
    potentials are the zero factors over the cliques of the loss derived
    from the measurements, and whose marginals are the oracle's marginals
    of those potentials at the estimated total. *)
Theorem mirror_descent_zero_iterations {E : Externals} (domain : Domain)
  (measurements : list LinearMeasurement)
  (marginal_oracle : CliqueVector -> Q -> CliqueVector) (stepsize : option Q) :
  let loss_fn := from_linear_measurements measurements in
  let known_total := minimum_variance_unbiased_total measurements in
  let zeros := cv_zeros domain (loss_cliques loss_fn) in
  mirror_descent domain (inl measurements) None None marginal_oracle 0 stepsize
  = Ok (mkGraphicalModel zeros (marginal_oracle zeros known_total) known_total, [])
  /\ (forall cl, In cl (dict_keys zeros) <-> In cl (loss_cliques loss_fn))
  /\ (forall cl, In cl (loss_cliques loss_fn) ->
        dict_get cl zeros = Ok (factor_zeros (domain_project domain cl))).
Proof.
  intros loss_fn known_total zeros.
  split; [reflexivity | apply cv_zeros_spec].
Qed.

(** *** The line search *)

Lemma cv_add_vector_keys V W R : cv_add V (Vector W) = Ok R -> same_keys R V.
Proof.
  simpl. intros HR.
  destruct (dict_comp_ok _
              (fun cl => bind (dict_get cl V) (fun f =>
                         bind (dict_get cl W) (fun g => Ok (factor_add f g))))
              (dict_keys V) [])
    as (R' & HR' & Hk & _).
  - eapply dict_comp_ok_inv. exact HR.
  - rewrite HR in HR'. injection HR' as <-.
    intros k. rewrite Hk. simpl. tauto.
Qed.

Lemma cv_sub_vector_total V W :
  incl (dict_keys V) (dict_keys W) ->
  exists R, cv_sub V (Vector W) = Ok R /\ same_keys R V.
Proof.
  intros Hin.
  destruct (proj2 (cv_sub_vector_ok_iff V W) Hin) as [R HR].
  exists R. split; [assumption|].
  destruct (cv_sub_vector_add V W) as (W' & Hsub & _).
  rewrite Hsub in HR. eapply cv_add_vector_keys. exact HR.
Qed.

Variable marginal_oracle : CliqueVector -> Q -> CliqueVector.
Variable loss_fn : MarginalLossFn.
Variable known_total : Q.

(** One call of [update] without fixed step size: what it computes, and
    which of the two outcomes it returns. *)
Lemma md_update_line_search theta alpha theta' loss' alpha' mu :
  md_update marginal_oracle loss_fn known_total None theta alpha
  = Ok (theta', loss', alpha', mu) ->
  exists step theta2 dmu ip,
    cv_rmul (loss_grad loss_fn (marginal_oracle theta known_total)) alpha = Ok step
    /\ cv_sub theta (Vector step) = Ok theta2
    /\ cv_sub (marginal_oracle theta known_total)
              (Vector (marginal_oracle theta2 known_total)) = Ok dmu
    /\ cv_dot (loss_grad loss_fn (marginal_oracle theta known_total)) dmu = Ok ip
    /\ mu = marginal_oracle theta known_total
    /\ (0.5 * alpha * ip
        <= loss_call loss_fn mu - loss_call loss_fn (marginal_oracle theta2 known_total) ->
        theta' = theta2
        /\ loss' = loss_call loss_fn (marginal_oracle theta2 known_total)
        /\ alpha' = alpha)
    /\ (~ 0.5 * alpha * ip
          <= loss_call loss_fn mu - loss_call loss_fn (marginal_oracle theta2 known_total) ->
        theta' = theta /\ loss' = loss_call loss_fn mu /\ alpha' = 0.5 * alpha).
Proof.
  unfold md_update. cbv zeta. intros H.
  apply bind_ok_inv in H as (step & Hstep & H).
  apply bind_ok_inv in H as (theta2 & Htheta2 & H).
  apply bind_ok_inv in H as (dmu & Hdmu & H).
  apply bind_ok_inv in H as (ip & Hip & H).
  exists step, theta2, dmu, ip. repeat (split; [assumption|]).
  injection H as H1 H2 H3 H4. subst mu.
  split; [reflexivity|].
  destruct (Qle_bool (0.5 * alpha * ip)
              (loss_call loss_fn (marginal_oracle theta known_total)
               - loss_call loss_fn (marginal_oracle theta2 known_total))) eqn:D.
  - split; [auto|]. apply Qle_bool_iff in D. tauto.
  - split; [|auto]. intros D'. apply Qle_bool_iff in D'. congruence.
Qed.

Lemma md_update_alpha theta alpha theta' loss' alpha' mu :
  md_update marginal_oracle loss_fn known_total None theta alpha
  = Ok (theta', loss', alpha', mu) ->
  0 <= alpha -> 0 <= alpha' /\ alpha' <= alpha.
Proof.
  intros H Ha.
  destruct (md_update_line_search _ _ _ _ _ _ H)
    as (step & theta2 & dmu & ip & _ & _ & _ & _ & _ & Hacc & Hrej).
  destruct (Qlt_le_dec
              (loss_call loss_fn mu
               - loss_call loss_fn (marginal_oracle theta2 known_total))
              (0.5 * alpha * ip)) as [D|D].
  - destruct Hrej as (_ & _ & ->); [lra | lra].
  - destruct (Hacc D) as (_ & _ & ->). lra.
Qed.

Lemma md_steps_count_alpha (ts : list nat) : forall st st',
  for_each ts (md_step marginal_oracle loss_fn known_total None) st = Ok st' ->
  List.length (md_callbacks st') = (List.length (md_callbacks st) + List.length ts)%nat
  /\ (0 <= md_alpha st -> 0 <= md_alpha st' /\ md_alpha st' <= md_alpha st).
Proof.
  induction ts as [|t ts IH]; simpl; intros st st' H.
  - injection H as <-. split; [lia | lra].
  - apply bind_ok_inv in H as (st1 & Hstep & H).
    destruct (IH st1 st' H) as [Hc Ha].
    unfold md_step in Hstep.
    apply bind_ok_inv in Hstep as ([[[theta l] alpha] mu] & Hup & Hst1).
    injection Hst1 as <-. simpl in Hc, Ha.
    rewrite Hc, length_app. simpl. split; [lia|].
    intros H0. destruct (md_update_alpha _ _ _ _ _ _ Hup H0) as [H1 H2].
    destruct (Ha H1). split; lra.
Qed.

Lemma md_loop_count_alpha iters st st' :
  md_loop marginal_oracle loss_fn known_total None iters st = Ok st' ->
  List.length (md_callbacks st') = (List.length (md_callbacks st) + iters)%nat
  /\ (0 <= md_alpha st -> 0 <= md_alpha st' /\ md_alpha st' <= md_alpha st).
Proof.
  unfold md_loop. intros H. apply md_steps_count_alpha in H.
  now rewrite length_seq in H.
Qed.

(** The loop stores what [update] returns, and calls the callback on
    the marginals the update started from. *)
Lemma md_step_stores st t st' :
  md_step marginal_oracle loss_fn known_total None st t = Ok st'
  <-> exists theta' loss' alpha' mu,
        md_update marginal_oracle loss_fn known_total None
          (md_potentials st) (md_alpha st) = Ok (theta', loss', alpha', mu)
        /\ st' = mkMdState theta' alpha' (md_callbacks st ++ [mu]).
Proof.
  unfold md_step. split.
  - intros H. apply bind_ok_inv in H as ([[[theta l] alpha] mu] & Hup & H).
    injection H as <-. eauto 6.
  - intros (theta' & loss' & alpha' & mu & -> & ->). reflexivity.
Qed.

Lemma for_each_app {A S} (xs ys : list A) (body : S -> A -> result S) : forall st,
  for_each (xs ++ ys) body st = bind (for_each xs body st) (for_each ys body).
Proof.
  induction xs as [|x xs IH]; simpl; intros st; [reflexivity|].
  destruct (body st x) as [st1|e]; simpl; [apply IH | reflexivity].
Qed.

(** Iteration [iters] starts from the state the iterations before it
    have left. *)
Lemma md_loop_succ iters st st' :
  md_loop marginal_oracle loss_fn known_total None (S iters) st = Ok st'
  <-> exists st1,
        md_loop marginal_oracle loss_fn known_total None iters st = Ok st1
        /\ md_step marginal_oracle loss_fn known_total None st1 iters = Ok st'.
Proof.
  unfold md_loop. rewrite seq_S, for_each_app. simpl. split.
  - intros H. apply bind_ok_inv in H as (st1 & H1 & H).
    exists st1. split; [assumption|].
    now destruct (md_step marginal_oracle loss_fn known_total None st1 iters).
  - intros (st1 & -> & H). simpl. now rewrite H.
Qed.

Hypothesis oracle_keys : forall theta t, same_keys (marginal_oracle theta t) theta.
Hypothesis grad_keys : forall mu, same_keys (loss_grad loss_fn mu) mu.

Lemma md_update_total theta alpha :
  exists r, md_update marginal_oracle loss_fn known_total None theta alpha = Ok r.
Proof.
  unfold md_update. cbv zeta.
  set (mu := marginal_oracle theta known_total).
  set (dL := loss_grad loss_fn mu).
  destruct (cv_mul_ok dL alpha) as (step & Hstep & Kstep).
  unfold cv_rmul. rewrite Hstep. simpl.
  assert (Kmu : same_keys mu theta) by apply oracle_keys.
  assert (KdL : same_keys dL mu) by apply grad_keys.
  destruct (cv_sub_vector_total theta step) as (theta2 & -> & K2).
  { intros k Hk. apply Kstep, KdL, Kmu, Hk. }
  simpl.
  destruct (cv_sub_vector_total mu (marginal_oracle theta2 known_total))
    as (dmu & -> & Kd).
  { intros k Hk. apply oracle_keys, K2, Kmu, Hk. }
  simpl.
  destruct (proj2 (cv_dot_ok_iff dL dmu)) as [ip ->].
  { intros k Hk. apply Kd, KdL, Hk. }
  simpl. eauto.
Qed.

Lemma md_loop_total iters st :
  exists st', md_loop marginal_oracle loss_fn known_total None iters st = Ok st'.
Proof.
  unfold md_loop.
  destruct (for_each_total (fun _ => True) (seq 0 iters)
              (md_step marginal_oracle loss_fn known_total None)) with (st := st)
    as (st' & H & _); [|exact I|eauto].
  intros st0 t _. unfold md_step.
  destruct (md_update_total (md_potentials st0) (md_alpha st0))
    as ([[[theta l] alpha] mu] & ->).
  simpl. eauto.
Qed.

End EstimationFacts.

(** C3.  Without fixed step size, every iteration of [mirror_descent]
    computes the candidate [theta2 = theta - alpha * dL] and accepts it
    (returning [theta2], its loss and the same [alpha]) exactly when
    [loss(mu) - loss(mu2) >= 0.5 * alpha * <dL, mu - mu2>]; otherwise it
    returns [theta] and the old loss with [alpha] halved.  [alpha] never
    grows.  The loop runs once per configured iteration, calling
    [callback_fn] each time, whatever was accepted; it runs to the end as
    soon as the oracle and the gradient keep the keys of their argument.
    Every iteration stores the potentials and the step size its update
    returns and starts from those the iteration before has stored, the
    first one from the initial potentials and [alpha = 2.0]; the model
    returned holds the potentials of the last one. *)
Theorem mirror_descent_line_search {B : Base} {E : Externals}
  (marginal_oracle : CliqueVector -> Q -> CliqueVector)
  (loss_fn : MarginalLossFn) (known_total : Q) :
  (forall theta alpha theta' loss' alpha' mu,
     md_update marginal_oracle loss_fn known_total None theta alpha
     = Ok (theta', loss', alpha', mu) ->
     exists step theta2 dmu ip,
       cv_rmul (loss_grad loss_fn (marginal_oracle theta known_total)) alpha = Ok step
       /\ cv_sub theta (Vector step) = Ok theta2
       /\ cv_sub (marginal_oracle theta known_total)
                 (Vector (marginal_oracle theta2 known_total)) = Ok dmu
       /\ cv_dot (loss_grad loss_fn (marginal_oracle theta known_total)) dmu = Ok ip
       /\ mu = marginal_oracle theta known_total
       /\ (0.5 * alpha * ip
           <= loss_call loss_fn mu
              - loss_call loss_fn (marginal_oracle theta2 known_total) ->
           theta' = theta2
           /\ loss' = loss_call loss_fn (marginal_oracle theta2 known_total)
           /\ alpha' = alpha)
       /\ (~ 0.5 * alpha * ip
             <= loss_call loss_fn mu
                - loss_call loss_fn (marginal_oracle theta2 known_total) ->
           theta' = theta /\ loss' = loss_call loss_fn mu /\ alpha' = 0.5 * alpha))
  /\ (forall theta alpha theta' loss' alpha' mu,
        md_update marginal_oracle loss_fn known_total None theta alpha
        = Ok (theta', loss', alpha', mu) ->
        0 <= alpha -> 0 <= alpha' /\ alpha' <= alpha)
  /\ (forall iters st st',
        md_loop marginal_oracle loss_fn known_total None iters st = Ok st' ->
        List.length (md_callbacks st') = (List.length (md_callbacks st) + iters)%nat
        /\ (0 <= md_alpha st -> 0 <= md_alpha st' /\ md_alpha st' <= md_alpha st))
  /\ (forall domain loss known potentials iters model callbacks,
        mirror_descent domain loss known potentials marginal_oracle iters None
        = Ok (model, callbacks) ->
        List.length callbacks = iters)
  /\ ((forall theta t, same_keys (marginal_oracle theta t) theta) ->
      (forall mu, same_keys (loss_grad loss_fn mu) mu) ->
      forall iters st,
      exists st', md_loop marginal_oracle loss_fn known_total None iters st = Ok st')
  /\ (forall st t st',
        md_step marginal_oracle loss_fn known_total None st t = Ok st'
        <-> exists theta' loss' alpha' mu,
              md_update marginal_oracle loss_fn known_total None
                (md_potentials st) (md_alpha st) = Ok (theta', loss', alpha', mu)
              /\ st' = mkMdState theta' alpha' (md_callbacks st ++ [mu]))
  /\ (forall st, md_loop marginal_oracle loss_fn known_total None 0 st = Ok st)
  /\ (forall iters st st',
        md_loop marginal_oracle loss_fn known_total None (S iters) st = Ok st'
        <-> exists st1,
              md_loop marginal_oracle loss_fn known_total None iters st = Ok st1
              /\ md_step marginal_oracle loss_fn known_total None st1 iters = Ok st')
  /\ (forall domain loss known potentials iters model callbacks,
        mirror_descent domain loss known potentials marginal_oracle iters None
        = Ok (model, callbacks)
        <-> exists L T P st,
              _initialize domain loss known potentials = Ok (L, T, P)
              /\ md_loop marginal_oracle L T None iters (mkMdState P 2.0 []) = Ok st
              /\ model = mkGraphicalModel (md_potentials st)
                           (marginal_oracle (md_potentials st) T) T
              /\ callbacks = md_callbacks st).
Proof.
  split; [|split; [|split; [|split; [|split; [|split; [|split; [|split]]]]]]].
  - apply md_update_line_search.
  - apply md_update_alpha.
  - apply md_loop_count_alpha.
  - intros domain loss known pots iters model callbacks H.
    unfold mirror_descent in H.
    apply bind_ok_inv in H as ([[L T] P] & _ & H).
    apply bind_ok_inv in H as (st & Hloop & H).
    injection H as _ <-.
    apply md_loop_count_alpha in Hloop as [Hc _]. exact Hc.
  - intros Ho Hg iters st. now apply md_loop_total.
  - apply md_step_stores.
  - reflexivity.
  - apply md_loop_succ.
  - intros domain loss known pots iters model callbacks.
    unfold mirror_descent. split.
    + intros H. apply bind_ok_inv in H as ([[L T] P] & Hinit & H).
      apply bind_ok_inv in H as (st & Hloop & H). injection H as <- <-.
      exists L, T, P, st. auto.
    + intros (L & T & P & st & -> & Hloop & -> & ->). simpl.
      now rewrite Hloop.
Qed.

(* ================================================================== *)
(** ** aim_simple.py: the workload compiler *)

Lemma subtuple_length k w : subtuple k w = true -> (List.length k <= List.length w)%nat.
Proof.
  revert k. induction w as [|b w IH]; intros [|a k]; simpl; try lia; try discriminate.
  intros H. apply orb_true_iff in H as [H|H].
  - apply andb_true_iff in H as [_ H]. apply IH in H. lia.
  - apply IH in H. simpl in H. lia.
Qed.

Lemma combinations_spec s : forall r k,
  In k (combinations s r) <-> List.length k = r /\ subtuple k s = true.
Proof.
  induction s as [|b s IH]; intros r k.
  - destruct r as [|r]; simpl.
    + split.
      * intros [<-|[]]. auto.
      * intros [H _]. destruct k; [now left | discriminate].
    + split; [tauto|]. intros [H1 H2]. destruct k; discriminate.
  - destruct r as [|r]; simpl.
    + split.
      * intros [<-|[]]. auto.
      * intros [H _]. destruct k; [now left | discriminate].
    + rewrite in_app_iff, in_map_iff. split.
      * intros [(k' & <- & Hk')|H].
        -- apply IH in Hk' as [<- Hs]. simpl. rewrite String.eqb_refl, Hs. auto.
        -- apply IH in H as [Hl Hs]. split; [assumption|].
           destruct k as [|a k]; [discriminate|]. rewrite Hs. apply orb_true_r.
      * intros [Hl Hs]. destruct k as [|a k]; [discriminate|].
        injection Hl as Hl. apply orb_true_iff in Hs as [Hs|Hs].
        -- apply andb_true_iff in Hs as [E Hs]. apply String.eqb_eq in E. subst a.
           left. exists k. split; [reflexivity|]. apply IH. auto.
        -- right. apply IH. simpl. auto.
Qed.

Lemma powerset_spec s k :
  In k (powerset s) <-> k <> [] /\ subtuple k s = true.
Proof.
  unfold powerset. rewrite in_flat_map. split.
  - intros (r & Hr & Hk). apply in_seq in Hr. apply combinations_spec in Hk as [Hl Hs].
    split; [|assumption]. intros ->. simpl in Hl. lia.
  - intros [Hne Hs]. exists (List.length k). split.
    + apply in_seq. pose proof (subtuple_length _ _ Hs).
      destruct k; [congruence | simpl in *; lia].
    + apply combinations_spec. auto.
Qed.

(** *** Sets *)

Lemma set_add_in s c k : In k (set_add s c) <-> In k s \/ k = c.
Proof.
  unfold set_add. destruct (set_mem c s) eqn:M.
  - apply set_mem_iff in M. split; [tauto|]. intros [H| ->]; assumption.
  - rewrite in_app_iff. simpl. intuition.
Qed.

Lemma set_add_NoDup s c : NoDup s -> NoDup (set_add s c).
Proof.
  unfold set_add. intros H. destruct (set_mem c s) eqn:M; [assumption|].
  assert (~ In c s) by (rewrite <- set_mem_iff; congruence).
  apply NoDup_app; [assumption | constructor; [tauto | constructor] |].
  intros x Hx [<-|[]]. contradiction.
Qed.

Lemma set_update_spec cs : forall s,
  (forall k, In k (set_update s cs) <-> In k s \/ In k cs)
  /\ (NoDup s -> NoDup (set_update s cs)).
Proof.
  unfold set_update. induction cs as [|c cs IH]; simpl; intros s.
  - split; [tauto | auto].
  - destruct (IH (set_add s c)) as [Hin Hnd]. split.
    + intros k. rewrite Hin, set_add_in. intuition.
    + intros H. apply Hnd. now apply set_add_NoDup.
Qed.

Lemma closure_fold_spec Ws : forall acc,
  let ans := fold_left (fun ans proj => set_update ans (powerset proj)) Ws acc in
  (forall k, In k ans <-> In k acc \/ exists w, In w Ws /\ In k (powerset w))
  /\ (NoDup acc -> NoDup ans).
Proof.
  induction Ws as [|w Ws IH]; simpl; intros acc.
  - split; [|auto]. intros k. split; [tauto|]. intros [H|(w & F & _)]; [assumption | destruct F].
  - destruct (IH (set_update acc (powerset w))) as [Hin Hnd].
    destruct (set_update_spec (powerset w) acc) as [Uin Und].
    split.
    + intros k. rewrite Hin, Uin. split.
      * intros [[H|H]|(w' & Hw' & H)]; eauto.
      * intros [H|(w' & Hw' & H)]; [eauto|]. destruct Hw' as [<-|Hw']; eauto.
    + intros H. auto.
Qed.

(** *** Sorting by length *)

Lemma insert_by_len_perm x l : Permutation (x :: l) (insert_by_len x l).
Proof.
  induction l as [|y l IH]; simpl; [reflexivity|].
  destruct (Nat.leb (List.length y) (List.length x)); [|reflexivity].
  rewrite perm_swap. now constructor.
Qed.

Lemma sorted_by_len_perm l : Permutation l (sorted_by_len l).
Proof.
  unfold sorted_by_len.
  assert (G : forall acc, Permutation (acc ++ l) (fold_left (fun acc x => insert_by_len x acc) l acc)).
  { induction l as [|x l IH]; simpl; intros acc.
    - now rewrite app_nil_r.
    - rewrite <- IH. rewrite <- insert_by_len_perm. simpl.
      symmetry. apply Permutation_middle. }
  exact (G []).
Qed.

Lemma insert_by_len_sorted x l : Sorted by_size l -> Sorted by_size (insert_by_len x l).
Proof.
  induction l as [|y l IH]; simpl; intros H.
  - repeat constructor.
  - inversion H as [|? ? Hs Hh]; subst.
    destruct (Nat.leb (List.length y) (List.length x)) eqn:L.
    + apply Nat.leb_le in L. constructor; [auto|].
      destruct l as [|z l]; simpl.
      * constructor. exact L.
      * destruct (Nat.leb (List.length z) (List.length x)).
        -- inversion Hh; subst. now constructor.
        -- constructor. exact L.
    + apply Nat.leb_gt in L. constructor; [assumption|].
      constructor. unfold by_size. lia.
Qed.

Lemma sorted_by_len_sorted l : Sorted by_size (sorted_by_len l).
Proof.
  unfold sorted_by_len.
  assert (G : forall acc, Sorted by_size acc ->
            Sorted by_size (fold_left (fun acc x => insert_by_len x acc) l acc)).
  { induction l as [|x l IH]; simpl; intros acc H; [assumption|].
    apply IH. now apply insert_by_len_sorted. }
  apply G. constructor.
Qed.

Lemma downward_closure_spec Ws :
  (forall k, In k (downward_closure Ws)
             <-> k <> [] /\ exists w, In w Ws /\ subtuple k w = true)
  /\ NoDup (downward_closure Ws)
  /\ Sorted by_size (downward_closure Ws).
Proof.
  unfold downward_closure.
  destruct (closure_fold_spec Ws []) as [Hin Hnd].
  split; [|split].
  - intros k. split.
    + intros H. apply (Permutation_in _ (Permutation_sym (sorted_by_len_perm _))) in H.
      apply Hin in H as [F|(w & Hw & H)]; [destruct F|].
      apply powerset_spec in H as [Hne Hs]. eauto.
    + intros (Hne & w & Hw & Hs).
      apply (Permutation_in _ (sorted_by_len_perm _)).
      apply Hin. right. exists w. split; [assumption|]. now apply powerset_spec.
  - eapply Permutation_NoDup; [apply sorted_by_len_perm|]. apply Hnd. constructor.
  - apply sorted_by_len_sorted.
Qed.

(** *** Dictionaries built from pairs *)

Lemma dict_of_pairs_fold {V} (kvs : list (Clique * V)) : forall acc,
  let d := fold_left (fun d kv => dict_set (fst kv) (snd kv) d) kvs acc in
  (forall k, In k (dict_keys d) <-> In k (dict_keys acc) \/ In k (map fst kvs))
  /\ (NoDup (dict_keys acc) -> NoDup (dict_keys d)).
Proof.
  induction kvs as [|[k v] kvs IH]; simpl; intros acc.
  - split; [tauto | auto].
  - destruct (IH (dict_set k v acc)) as [Hin Hnd]. split.
    + intros k0. rewrite Hin, dict_set_keys_in. intuition.
    + intros H. apply Hnd. now apply dict_set_keys_NoDup.
Qed.

Lemma dict_of_pairs_spec {V} (kvs : list (Clique * V)) :
  (forall k, In k (dict_keys (dict_of_pairs kvs)) <-> In k (map fst kvs))
  /\ NoDup (dict_keys (dict_of_pairs kvs)).
Proof.
  destruct (dict_of_pairs_fold kvs []) as [Hin Hnd]. split.
  - intros k. unfold dict_of_pairs. rewrite Hin. simpl. tauto.
  - apply Hnd. constructor.
Qed.

Lemma dict_of_pairs_distinct {V} (kvs : list (Clique * V)) : forall acc,
  NoDup (dict_keys acc ++ map fst kvs) ->
  fold_left (fun d kv => dict_set (fst kv) (snd kv) d) kvs acc = acc ++ kvs.
Proof.
  induction kvs as [|[k v] kvs IH]; simpl; intros acc H.
  - now rewrite app_nil_r.
  - assert (Hk : ~ In k (dict_keys acc)).
    { intros Hin. apply NoDup_remove_2 in H. apply H. apply in_or_app. now left. }
    rewrite dict_set_new by assumption. rewrite IH.
    + now rewrite <- app_assoc.
    + unfold dict_keys. rewrite map_app, <- app_assoc. exact H.
Qed.

Lemma dict_comp_tabulate {V} (f : Clique -> result V) (g : Clique -> V) ks :
  forall acc,
  NoDup (dict_keys acc ++ ks) ->
  (forall k, In k ks -> f k = Ok (g k)) ->
  dict_comp ks f acc = Ok (acc ++ map (fun k => (k, g k)) ks).
Proof.
  induction ks as [|k ks IH]; simpl; intros acc Hnd Hf.
  - now rewrite app_nil_r.
  - rewrite (Hf k) by now left. simpl.
    assert (Hk : ~ In k (dict_keys acc)).
    { intros Hin. apply NoDup_remove_2 in Hnd. apply Hnd. apply in_or_app. now left. }
    rewrite dict_set_new by assumption. rewrite IH.
    + now rewrite <- app_assoc.
    + unfold dict_keys. rewrite map_app, <- app_assoc. exact Hnd.
    + auto.
Qed.

Lemma score_loop (weights : dict Q) (cl : Clique) (suffix : list (Clique * Q)) :
  forall acc,
  (forall k v, In (k, v) suffix -> dict_get k weights = Ok v) ->
  for_each (dict_keys suffix)
    (fun acc workload_cl =>
       bind (dict_get workload_cl weights) (fun wt =>
       Ok (acc + wt * inject_Z (Z.of_nat (overlap cl workload_cl))))) acc
  = Ok (fold_left
          (fun acc wc => acc + snd wc * inject_Z (Z.of_nat (overlap cl (fst wc))))
          suffix acc).
Proof.
  induction suffix as [|[k v] suffix IH]; simpl; intros acc H; [reflexivity|].
  rewrite (H k v) by now left. simpl. apply IH.
  intros k' v' Hin. apply H. now right.
Qed.

Lemma score_spec (weights : dict Q) (cl : Clique) :
  NoDup (dict_keys weights) -> score weights cl = Ok (weighted_overlap weights cl).
Proof.
  intros H. unfold score, weighted_overlap. apply score_loop.
  intros k v. now apply dict_get_In_NoDup.
Qed.

Lemma compile_workload_unfold (workload : list (Clique * Q)) :
  compile_workload workload
  = Ok (map (fun k => (k, weighted_overlap (dict_of_pairs workload) k))
          (downward_closure (dict_keys (dict_of_pairs workload)))).
Proof.
  unfold compile_workload.
  destruct (dict_of_pairs_spec workload) as [_ Hnd].
  destruct (downward_closure_spec (dict_keys (dict_of_pairs workload)))
    as (_ & Hcl & _).
  apply (dict_comp_tabulate (score (dict_of_pairs workload))
           (weighted_overlap (dict_of_pairs workload)) _ []).
  - exact Hcl.
  - intros k _. now apply score_spec.
Qed.

Lemma dict_keys_tabulate {V} (g : Clique -> V) ks :
  dict_keys (map (fun k => (k, g k)) ks) = ks.
Proof.
  unfold dict_keys. rewrite map_map. simpl. apply map_id.
Qed.

Lemma distinct_in a c : In a (distinct c) <-> In a c.
Proof.
  induction c as [|b c IH]; simpl; [tauto|].
  destruct (attr_in b c) eqn:M.
  - apply attr_in_iff in M. rewrite IH. split; [tauto|].
    intros [<-|H]; assumption.
  - simpl. now rewrite IH.
Qed.

Lemma distinct_NoDup c : NoDup (distinct c).
Proof.
  induction c as [|b c IH]; simpl; [constructor|].
  destruct (attr_in b c) eqn:M; [assumption|].
  constructor; [|assumption].
  rewrite distinct_in. intros H. apply attr_in_iff in H. congruence.
Qed.

(** The number of attributes two cliques share. *)
Lemma overlap_shared c d :
  exists shared,
    NoDup shared /\ (forall a, In a shared <-> In a c /\ In a d)
    /\ overlap c d = List.length shared.
Proof.
  exists (filter (fun a => attr_in a d) (distinct c)).
  split; [apply NoDup_filter, distinct_NoDup|]. split; [|reflexivity].
  intros a. rewrite filter_In, distinct_in, attr_in_iff. tauto.
Qed.

(** The dictionary [weights]: a repeated clique keeps the weight given
    last. *)
Lemma dict_of_pairs_other {V} (kvs : list (Clique * V)) c : forall acc,
  ~ In c (map fst kvs) ->
  dict_get c (fold_left (fun d kv => dict_set (fst kv) (snd kv) d) kvs acc)
  = dict_get c acc.
Proof.
  induction kvs as [|[k v] kvs IH]; simpl; intros acc H; [reflexivity|].
  rewrite IH by tauto. apply dict_get_set_other. intros ->. tauto.
Qed.

Lemma dict_of_pairs_last {V} (pre post : list (Clique * V)) c w :
  ~ In c (map fst post) ->
  dict_get c (dict_of_pairs (pre ++ (c, w) :: post)) = Ok w.
Proof.
  intros H. unfold dict_of_pairs. rewrite fold_left_app. simpl.
  rewrite dict_of_pairs_other by assumption. apply dict_get_set_same.
Qed.

(** C6, as the code has it.  [compile_workload] returns a dictionary
    whose keys are exactly the non-empty sub-tuples of the workload
    cliques, each once, in order of increasing size.  Its value at a
    candidate is the sum, over the dictionary [weights] the code makes of
    the workload, of the weight times the number of attributes shared
    with the candidate.  That dictionary has the workload cliques as
    keys, each once, with the weight given last: it is the workload
    itself when no clique is repeated, and only then is the value the sum
    over the pairs of the workload.  For the workload [((A, B), 1.0)] the
    result is [(A,): 1.0, (B,): 1.0, (A, B): 2.0]. *)
Theorem compile_workload_downward_closure (workload : list (Clique * Q)) :
  exists candidates,
    compile_workload workload = Ok candidates
    /\ NoDup (dict_keys candidates)
    /\ (forall k, In k (dict_keys candidates) <-> is_candidate workload k)
    /\ Sorted by_size (dict_keys candidates)
    /\ (forall k, In k (dict_keys candidates) ->
          dict_get k candidates = Ok (weighted_overlap (dict_of_pairs workload) k))
    /\ (NoDup (dict_keys (dict_of_pairs workload))
        /\ (forall c, In c (dict_keys (dict_of_pairs workload))
                      <-> In c (map fst workload))
        /\ (forall pre c w post,
              workload = pre ++ (c, w) :: post -> ~ In c (map fst post) ->
              dict_get c (dict_of_pairs workload) = Ok w))
    /\ (NoDup (map fst workload) ->
        dict_of_pairs workload = workload
        /\ forall k, In k (dict_keys candidates) ->
                     dict_get k candidates = Ok (weighted_overlap workload k))
    /\ (forall c d : Clique,
          exists shared,
            NoDup shared /\ (forall a, In a shared <-> In a c /\ In a d)
            /\ overlap c d = List.length shared)
    /\ (forall A B : attr, A <> B ->
        exists d, compile_workload [([A; B], 1.0)] = Ok d
                  /\ Permutation d [([A], 1.0); ([B], 1.0); ([A; B], 2.0)]).
Proof.
  rewrite compile_workload_unfold.
  set (weights := dict_of_pairs workload).
  destruct (dict_of_pairs_spec workload) as [Wk Wnd]. fold weights in Wk, Wnd.
  destruct (downward_closure_spec (dict_keys weights)) as (Cin & Cnd & Cs).
  eexists. split; [reflexivity|].
  rewrite dict_keys_tabulate.
  assert (Hval : forall k, In k (downward_closure (dict_keys weights)) ->
            dict_get k (map (fun k => (k, weighted_overlap weights k))
                          (downward_closure (dict_keys weights)))
            = Ok (weighted_overlap weights k)).
  { intros k Hk. apply dict_get_In_NoDup.
    - now rewrite dict_keys_tabulate.
    - apply in_map_iff. exists k. auto. }
  assert (Hsame : NoDup (map fst workload) -> weights = workload).
  { intros H. subst weights. unfold dict_of_pairs.
    now rewrite dict_of_pairs_distinct. }
  split; [exact Cnd|].
  split; [|split; [exact Cs|split; [exact Hval|split; [|split; [|split]]]]].
  - intros k. rewrite Cin. unfold is_candidate. split.
    + intros (Hne & w & Hw & Hs). split; [assumption|]. exists w. split; [|assumption].
      now apply Wk.
    + intros (Hne & w & Hw & Hs). split; [assumption|]. exists w. split; [|assumption].
      now apply Wk.
  - split; [exact Wnd|]. split; [exact Wk|].
    intros pre c w post -> Hc. subst weights. now apply dict_of_pairs_last.
  - intros H. split; [now apply Hsame|].
    intros k Hk. rewrite (Hval k Hk). now rewrite (Hsame H).
  - apply overlap_shared.
  - intros A B HAB. rewrite compile_workload_unfold. eexists. split; [reflexivity|].
    assert (EAB : String.eqb A B = false) by now apply String.eqb_neq.
    assert (EBA : String.eqb B A = false) by (apply String.eqb_neq; congruence).
    unfold dict_of_pairs, downward_closure, powerset, set_update, set_add, set_mem,
      sorted_by_len, weighted_overlap, overlap, attr_in.
    repeat (progress (simpl; rewrite ?String.eqb_refl, ?EAB, ?EBA)).
    reflexivity.
Qed.


(* ================================================================== *)
(** ** aim_simple.py: the mechanism *)

Lemma py_div_ok a b q : py_div a b = Ok q -> ~ b == 0 /\ q = a / b.
Proof.
  unfold py_div. destruct (Qeq_bool b 0) eqn:D; [discriminate|].
  intros H. injection H as <-. split; [|reflexivity].
  now apply Qeq_bool_neq.
Qed.

Lemma Qlen_cons {A} (x : A) (l : list A) : Qlen (x :: l) == 1 + Qlen l.
Proof.
  unfold Qlen. simpl List.length. rewrite Nat2Z.inj_succ, <- Z.add_1_l.
  now rewrite inject_Z_plus.
Qed.

Section AIMFacts.
Context {B : Base} {E : Externals}.

Lemma zcdp_gaussian_mech_spec st val sensitivity r y st' :
  zcdp_gaussian_mech st val sensitivity r = Ok (y, st') ->
  exists var,
    py_div (sensitivity * sensitivity) (2 * r) = Ok var
    /\ broadcast Qplus val
         (fst (prng_normal (prng st) (np_sqrt var) (List.length val))) = Ok y
    /\ rho_used st' = rho_used st + r
    /\ stdout st' = stdout st.
Proof.
  unfold zcdp_gaussian_mech. intros H.
  apply bind_ok_inv in H as (var & Hvar & H).
  exists var. split; [assumption|].
  destruct (prng_normal (prng st) (np_sqrt var) (List.length val)) as [noise g].
  apply bind_ok_inv in H as (y' & Hy & H). injection H as -> <-.
  simpl. auto.
Qed.

Lemma initial_loop_spec data r cls : forall acc acc',
  for_each cls (initial_step data r) acc = Ok acc' ->
  rho_used (fst acc') == rho_used (fst acc) + Qlen cls * r
  /\ stdout (fst acc') = stdout (fst acc)
  /\ exists new,
       snd acc' = snd acc ++ new /\ map clique new = cls
       /\ forall inv, py_div 1 (2 * r) = Ok inv ->
                      Forall (fun M => stddev M = np_sqrt inv) new.
Proof.
  induction cls as [|cl cls IH]; simpl; intros acc acc' H.
  - injection H as <-. split; [unfold Qlen; simpl; ring|].
    split; [reflexivity|]. exists []. rewrite app_nil_r. auto.
  - apply bind_ok_inv in H as (acc1 & Hstep & H).
    apply IH in H as (Hr & Ho & new & Hn & Hl & Hs).
    unfold initial_step in Hstep.
    apply bind_ok_inv in Hstep as ([y st1] & Hz & Hstep).
    apply bind_ok_inv in Hstep as (inv & Hinv & Hstep). injection Hstep as <-.
    apply zcdp_gaussian_mech_spec in Hz as (var & _ & _ & Hr1 & Ho1).
    simpl in *. split; [|split].
    + rewrite Hr, Hr1, Qlen_cons. ring.
    + congruence.
    + eexists. split; [rewrite Hn, <- app_assoc; reflexivity|].
      simpl. split; [now rewrite Hl|].
      intros inv' Hinv'. rewrite Hinv in Hinv'. injection Hinv' as <-.
      constructor; [reflexivity | auto].
Qed.

Lemma worst_approximated_state st candidates answers model r cl st' :
  worst_approximated st candidates answers model r = Ok (cl, st') ->
  rho_used st' = rho_used st /\ stdout st' = stdout st.
Proof.
  unfold worst_approximated. intros H.
  apply bind_ok_inv in H as (inv & _ & H).
  apply bind_ok_inv in H as (es & _ & H).
  apply bind_ok_inv in H as (ms & _ & H).
  destruct (exponential_mechanism (prng st) (fst es) (np_sqrt (8 * r)) ms) as [c g].
  injection H as _ <-. simpl. auto.
Qed.

(** One adaptive round, as far as its measurement: the clique it
    selects is measured by the Gaussian mechanism at the allocation
    [rho_iters_i / 2], and the measurement it appends carries the noise
    scale computed from [rho_oneway_i]. *)
Lemma round_measure_spec self data candidates answers rho_oneway_i rho_iters_i rs st' ms :
  round_measure self data candidates answers rho_oneway_i rho_iters_i rs = Ok (st', ms) ->
  exists cl st1 y inv,
    rho_used st1 = rho_used (rs_state rs)
    /\ stdout st1 = stdout (rs_state rs) ++ [PrintMeasuring cl]
    /\ zcdp_gaussian_mech st1 (data_project_datavector data cl) 1 (rho_iters_i / 2)
       = Ok (y, st')
    /\ py_div 1 (2 * rho_oneway_i) = Ok inv
    /\ ms = rs_measurements rs ++ [mkLinearMeasurement y cl (np_sqrt inv) default_query].
Proof.
  unfold round_measure. intros H.
  apply bind_ok_inv in H as (size_limit & _ & H).
  apply bind_ok_inv in H as (small & _ & H).
  apply bind_ok_inv in H as ([cl st1] & Hsel & H).
  apply bind_ok_inv in H as ([y st2] & Hz & H).
  apply bind_ok_inv in H as (inv & Hinv & H).
  injection H as <- <-. simpl in *.
  apply worst_approximated_state in Hsel as [Hr Ho].
  exists cl, (print st1 (PrintMeasuring cl)), y, inv. simpl.
  rewrite Ho. auto.
Qed.

(** The warm start looks up [expand] on the potentials of the previous
    model, a [CliqueVector]: the round cannot end. *)
Lemma round_refit_raises self data model sm :
  round_refit self data model sm = Raise AttributeError.
Proof. reflexivity. Qed.

Lemma round_step_first_measure self data candidates answers rho_oneway_i rho_iters_i rs t :
  round_step self data candidates answers rho_oneway_i rho_iters_i rs t
  = bind (round_measure self data candidates answers rho_oneway_i rho_iters_i rs)
         (fun _ => Raise AttributeError).
Proof. reflexivity. Qed.

(** What [run] has done when it enters its loop. *)
Lemma run_setup_spec self st data workload initial_cliques c :
  run_setup self st data workload initial_cliques = Ok c ->
  compile_workload workload = Ok (rc_candidates c)
  /\ py_div (rho self * 0.05) (Qlen (oneway_of (rc_candidates c)))
     = Ok (rc_rho_oneway_i c)
  /\ rc_iterations c = (List.length workload / 4)%nat
  /\ py_div (rho self * 0.95) (inject_Z (Z.of_nat (rc_iterations c)))
     = Ok (rc_rho_iters_i c)
  /\ rho_used (rs_state (rc_round c))
     == rho_used st
        + Qlen (initial_of (rc_candidates c) initial_cliques) * rc_rho_oneway_i c
  /\ stdout (rs_state (rc_round c)) = stdout st ++ [PrintRunning (rc_iterations c)]
  /\ map clique (rs_measurements (rc_round c))
     = initial_of (rc_candidates c) initial_cliques
  /\ forall inv, py_div 1 (2 * rc_rho_oneway_i c) = Ok inv ->
                 Forall (fun M => stddev M = np_sqrt inv) (rs_measurements (rc_round c)).
Proof.
  unfold run_setup. cbv zeta. intros H.
  apply bind_ok_inv in H as (candidates & Hc & H).
  apply bind_ok_inv in H as (rho_oneway_i & H1 & H).
  apply bind_ok_inv in H as ([st1 ms] & Hinit & H).
  apply bind_ok_inv in H as (fit0 & _ & H).
  apply bind_ok_inv in H as (rho_iters_i & H2 & H).
  injection H as <-. simpl.
  apply initial_loop_spec in Hinit as (Hr0 & Ho0 & new0 & Hm0 & Hc0 & Hs0).
  simpl in *. subst ms.
  split; [exact Hc|]. split; [exact H1|]. split; [reflexivity|].
  split; [exact H2|]. split; [exact Hr0|]. split; [now rewrite Ho0|].
  split; [exact Hc0 | exact Hs0].
Qed.

(** The loop of [run] is entered with at least one round to make, and
    its first pass raises: after the selection and the measurement of
    that pass, if they succeed, comes the [AttributeError] of the warm
    start. *)
Lemma run_rounds_first_pass self st data workload initial_cliques :
  run_rounds self st data workload initial_cliques
  = bind (run_setup self st data workload initial_cliques) (fun c =>
    bind (round_measure self data (rc_candidates c) (rc_answers c)
            (rc_rho_oneway_i c) (rc_rho_iters_i c) (rc_round c))
         (fun _ => Raise AttributeError)).
Proof.
  unfold run_rounds.
  destruct (run_setup self st data workload initial_cliques) as [c|e] eqn:Hs;
    [|reflexivity].
  simpl. apply run_setup_spec in Hs as (_ & _ & _ & Hit & _).
  apply py_div_ok in Hit as [Hnz _].
  destruct (rc_iterations c) as [|n]; [exfalso; apply Hnz; reflexivity|].
  simpl. rewrite round_step_first_measure.
  now destruct (round_measure _ _ _ _ _ _ _).
Qed.

Lemma run_rounds_raises self st data workload initial_cliques :
  exists e, run_rounds self st data workload initial_cliques = Raise e.
Proof.
  rewrite run_rounds_first_pass.
  destruct (run_setup self st data workload initial_cliques) as [c|e]; simpl; [|eauto].
  destruct (round_measure _ _ _ _ _ _ _); simpl; eauto.
Qed.

(** No call of [run] returns. *)
Lemma run_raises self st data workload num_synth_rows initial_cliques :
  exists e, run self st data workload num_synth_rows initial_cliques = Raise e.
Proof.
  unfold run.
  destruct (run_rounds_raises self st data workload initial_cliques) as [e ->].
  simpl. eauto.
Qed.

End AIMFacts.

(* ================================================================== *)
(** * Runs on explicit inputs *)

Open Scope string_scope.

(** ** Clique vectors *)

(** Of the two keys of [ex_U] that cover [(A,)], the first one serves;
    no key of [ex_V] covers [(B,)]. *)
Example cv_project_first_cover_run :
  @cv_project OneCell ex_U ["A"] = Ok (["A"], 5)
  /\ @cv_project OneCell ex_W ["B"] = Ok (["B"], 3)
  /\ @cv_project OneCell ex_V ["B"] = Raise ValueError.
Proof. repeat split; reflexivity. Qed.

Lemma ex_W_keys_distinct : NoDup (dict_keys ex_W).
Proof.
  repeat constructor; simpl; intuition discriminate.
Qed.

(** [ex_V.combine(ex_W)]: the factor at [(A,)] is added, the one at
    [(B,)] has no covering key and is dropped. *)
Lemma cv_combine_adds_into_first_cover_witness :
  NoDup (dict_keys ex_W)
  /\ @cv_combine OneCell ex_V ex_W = Ok [(["A"], (["A"], 3))].
Proof.
  split; [exact ex_W_keys_distinct|].
  exact (proj1 (proj2 (@cv_combine_adds_into_first_cover OneCell ex_V ex_W
                         ex_W_keys_distinct))).
Defined.

(** C9 as the specification states it fails: the key sets of [ex_V] and
    [ex_W] differ, and [ex_V + ex_W], [ex_V - ex_W] and [ex_V.dot(ex_W)]
    all return a result. *)
Lemma cv_binary_ops_succeed_on_different_keys :
  ~ same_keys ex_V ex_W
  /\ @cv_add OneCell ex_V (@Vector OneCell ex_W) = Ok [(["A"], (["A"], 3))]
  /\ @cv_sub OneCell ex_V (@Vector OneCell ex_W) = Ok [(["A"], (["A"], -1))]
  /\ @cv_dot OneCell ex_V ex_W = Ok 2.
Proof.
  split; [|repeat split; vm_compute; reflexivity].
  intros H. destruct (H ["B"]) as [_ HB].
  destruct HB as [HB|[]]; [simpl; auto | discriminate].
Qed.

(** ** The total estimator *)

(** C5 as the specification states it fails: the two measurements
    combine to 102, not to 102.35. *)
Lemma mvut_two_measurements_give_102 :
  is_identity_on_value ex_M100 = true
  /\ is_identity_on_value ex_M110 = true
  /\ measurement_sum ex_M100 == 100 /\ stddev ex_M100 == 2
  /\ measurement_sum ex_M110 == 110 /\ stddev ex_M110 == 4
  /\ minimum_variance_unbiased_total [ex_M100; ex_M110] == 102
  /\ ~ Qabs (minimum_variance_unbiased_total [ex_M100; ex_M110] - 102.35) <= 0.3.
Proof.
  repeat split; try reflexivity.
  intros H. apply Qle_bool_iff in H. vm_compute in H. discriminate.
Qed.

(** ** Mirror descent *)

(** Three iterations on [square_loss] from the potential 1: the steps
    at [alpha = 2] and [alpha = 1] are rejected, the step at
    [alpha = 0.5] is accepted. *)
Example mirror_descent_backtracks :
  (exists st,
     @md_loop OneCell identity_oracle square_loss 1 None 3 (@mkMdState OneCell ex_V 2.0 [])
     = Ok st
     /\ md_potentials st = [(["A"], (["A"], 0))]
     /\ md_alpha st == 0.5
     /\ md_callbacks st = [ex_V; ex_V; ex_V])
  /\ (exists st,
        @md_loop OneCell identity_oracle square_loss 1 None 1 (@mkMdState OneCell ex_V 2.0 [])
        = Ok st
        /\ md_potentials st = ex_V /\ md_alpha st == 1).
Proof.
  split; apply ok_by_evaluation; vm_compute; repeat split.
Qed.

(** ** AIM *)

(** C6 as the specification states it fails: in a workload that gives
    the clique [(A,)] twice, with weights 1 and 2, the code scores the
    candidate [(A,)] with the weight given last, 2, where the sum over
    the workload's pairs of weight times shared attributes is 3. *)
Lemma compile_workload_repeated_clique :
  exists candidates v,
    compile_workload [(["A"], 1); (["A"], 2)] = Ok candidates
    /\ dict_keys candidates = [["A"]]
    /\ dict_get ["A"] candidates = Ok v
    /\ v == 2
    /\ weighted_overlap [(["A"], 1); (["A"], 2)] ["A"] == 3
    /\ ~ v == weighted_overlap [(["A"], 1); (["A"], 2)] ["A"].
Proof.
  exists [(["A"], 0 + 2 * inject_Z (Z.of_nat 1))], (0 + 2 * inject_Z (Z.of_nat 1)).
  repeat split; try reflexivity.
  intros H. vm_compute in H. discriminate.
Qed.

(** C2 fails on the code.  In the adaptive round of this run the clique
    [(A, B, C)] is measured at [rho_i = 0.95 * rho / 1 / 2], with noise
    scale [np_sqrt(1 / (2 * rho_i)) = 7] (the noisy value is 107 for a
    true value of 100), and the measurement appended records the scale
    [np_sqrt(1 / (2 * rho_oneway_i)) = 38] of the initial round. *)
Theorem adaptive_round_records_oneway_stddev :
  exists c sm,
    @run_setup OneCell OneCellExt (fst ex_mech) (snd ex_mech) ex_data ex_workload None
    = Ok c
    /\ @round_measure OneCell OneCellExt (fst ex_mech) ex_data (rc_candidates c)
         (rc_answers c) (rc_rho_oneway_i c) (rc_rho_iters_i c) (rc_round c)
       = Ok sm
    /\ (rc_iterations c = 1%nat
        /\ rc_rho_iters_i c / 2 == rho (fst ex_mech) * 0.95 / 1 / 2
        /\ rc_rho_oneway_i c == rho (fst ex_mech) * 0.05 / 3
        /\ rho_used (fst sm)
           == rho_used (rs_state (rc_round c)) + rc_rho_iters_i c / 2
        /\ map (fun M => (noisy_measurement M, clique M, stddev M)) (snd sm)
           = [([138], ["A"], 38); ([138], ["B"], 38); ([138], ["C"], 38);
              ([107], ["A"; "B"; "C"], 38)]
        /\ stdout (fst sm) = [PrintRunning 1; PrintMeasuring ["A"; "B"; "C"]]
        /\ @np_sqrt OneCell OneCellExt (1 / (2 * (rho (fst ex_mech) * 0.95 / 1 / 2))) = 7
        /\ @np_sqrt OneCell OneCellExt (1 / (2 * (rho (fst ex_mech) * 0.05 / 3))) = 38).
Proof.
  apply (ok_by_evaluation2
           (@run_setup OneCell OneCellExt (fst ex_mech) (snd ex_mech) ex_data
              ex_workload None)
           (fun c => @round_measure OneCell OneCellExt (fst ex_mech) ex_data
                       (rc_candidates c) (rc_answers c) (rc_rho_oneway_i c)
                       (rc_rho_iters_i c) (rc_round c))).
  vm_compute. repeat split.
Qed.

(** C10 fails on the code.  For the eight cliques of [ex_workload8] two
    rounds are due; the first one selects and measures [(A, B, C)] and
    then raises [AttributeError] at [model.potentials.expand], so the
    second never starts.  The same holds of every call: the loop is
    entered with at least one round to make and its first pass raises,
    so that no call of [run] returns.  The [rounds] argument is never
    read. *)
Theorem run_stops_in_first_round :
  (exists c sm,
     @run_setup OneCell OneCellExt (fst ex_mech) (snd ex_mech) ex_data ex_workload8 None
     = Ok c
     /\ @round_measure OneCell OneCellExt (fst ex_mech) ex_data (rc_candidates c)
          (rc_answers c) (rc_rho_oneway_i c) (rc_rho_iters_i c) (rc_round c)
        = Ok sm
     /\ ((List.length ex_workload8 / 4)%nat = 2%nat
         /\ rc_iterations c = 2%nat
         /\ stdout (rs_state (rc_round c)) = [PrintRunning 2]
         /\ stdout (fst sm) = [PrintRunning 2; PrintMeasuring ["A"; "B"; "C"]]
         /\ measuring_lines (stdout (fst sm)) = 1%nat
         /\ map clique (snd sm) = [["A"]; ["B"]; ["C"]; ["D"]; ["A"; "B"; "C"]]
         /\ rho_used (fst sm)
            == rho_used (rs_state (rc_round c)) + rc_rho_iters_i c / 2))
  /\ @run_rounds OneCell OneCellExt (fst ex_mech) (snd ex_mech) ex_data ex_workload8 None
     = Raise AttributeError
  /\ @run OneCell OneCellExt (fst ex_mech) (snd ex_mech) ex_data ex_workload8 None None
     = Raise AttributeError
  /\ (forall (B : Base) (E : @Externals B) self st data workload initial_cliques,
        @run_rounds B E self st data workload initial_cliques
        = bind (run_setup self st data workload initial_cliques) (fun c =>
          bind (round_measure self data (rc_candidates c) (rc_answers c)
                  (rc_rho_oneway_i c) (rc_rho_iters_i c) (rc_round c))
               (fun _ => Raise AttributeError)))
  /\ (forall (B : Base) (E : @Externals B) self st data workload num_synth_rows
             initial_cliques,
        exists e,
          @run B E self st data workload num_synth_rows initial_cliques = Raise e)
  /\ (forall (B : Base) (E : @Externals B) epsilon delta rho r1 r2 max_iters
             max_model_size st data workload num_synth_rows initial_cliques,
        @run B E (mkAIM epsilon delta rho r1 max_iters max_model_size) st data workload
          num_synth_rows initial_cliques
        = @run B E (mkAIM epsilon delta rho r2 max_iters max_model_size) st data
            workload num_synth_rows initial_cliques).
Proof.
  split; [|split; [|split; [|split; [|split]]]].
  - apply (ok_by_evaluation2
             (@run_setup OneCell OneCellExt (fst ex_mech) (snd ex_mech) ex_data
                ex_workload8 None)
             (fun c => @round_measure OneCell OneCellExt (fst ex_mech) ex_data
                         (rc_candidates c) (rc_answers c) (rc_rho_oneway_i c)
                         (rc_rho_iters_i c) (rc_round c))).
    vm_compute. repeat split.
  - apply raise_by_evaluation. vm_compute. reflexivity.
  - apply raise_by_evaluation. vm_compute. reflexivity.
  - intros B E. apply run_rounds_first_pass.
  - intros B E. apply run_raises.
  - reflexivity.
Qed.

Close Scope string_scope.

(* ================================================================== *)
(** * Further properties *)

(** ** Comprehensions over the keys of a dictionary *)

(** The value a comprehension holds at a key is the one computed for
    it. *)
Lemma dict_comp_lookup {V} (f : Clique -> result V) ks : forall acc d,
  dict_comp ks f acc = Ok d ->
  forall k, dict_get k d = if set_mem k ks then f k else dict_get k acc.
Proof.
  induction ks as [|k0 ks IH]; simpl; intros acc d H k.
  - injection H as <-. reflexivity.
  - apply bind_ok_inv in H as (v & Hv & H).
    rewrite (IH _ _ H k).
    destruct (set_mem k ks) eqn:M.
    + now rewrite orb_true_r.
    + rewrite orb_false_r. destruct (clique_eqb k k0) eqn:E.
      * apply clique_eqb_eq in E. subst. now rewrite dict_get_set_same.
      * apply clique_eqb_neq in E. now apply dict_get_set_other.
Qed.

(** A comprehension over the keys of a well-formed dictionary that
    reads each value once is a [map]. *)
Lemma dict_comp_own_keys {V X} (h : V -> result X) (d : dict V) :
  forall suffix acc,
  (forall k v, In (k, v) suffix -> dict_get k d = Ok v) ->
  NoDup (dict_keys acc ++ dict_keys suffix) ->
  forall out,
  dict_comp (dict_keys suffix) (fun cl => bind (dict_get cl d) h) acc = Ok out ->
  exists new,
    out = acc ++ new /\ dict_keys new = dict_keys suffix
    /\ Forall2 (fun kv kx => h (snd kv) = Ok (snd kx)) suffix new.
Proof.
  induction suffix as [|[k v] suffix IH]; simpl; intros acc Hd Hn out H.
  - injection H as <-. exists []. rewrite app_nil_r. auto.
  - rewrite (Hd k v) in H by now left. simpl in H.
    apply bind_ok_inv in H as (x & Hx & H).
    assert (Hk : ~ In k (dict_keys acc)).
    { intros Hin. apply NoDup_remove_2 in Hn. apply Hn, in_or_app. now left. }
    rewrite dict_set_new in H by assumption.
    apply IH in H as (new & -> & Hkeys & Hall).
    + exists ((k, x) :: new). rewrite <- app_assoc. simpl.
      split; [reflexivity|]. split; [now rewrite Hkeys|]. now constructor.
    + intros k' v' Hin. apply Hd. now right.
    + unfold dict_keys. rewrite map_app, <- app_assoc. exact Hn.
Qed.

Lemma dict_entries_lookup {V} (d : dict V) :
  NoDup (dict_keys d) -> forall k v, In (k, v) d -> dict_get k d = Ok v.
Proof. intros H k v. now apply dict_get_In_NoDup. Qed.

Lemma Forall2_total_map {A B} (g : A -> B) (key : A -> Clique) (l : list A)
  (new : list (Clique * B)) :
  dict_keys new = map key l ->
  Forall2 (fun a kx => Ok (g a) = Ok (snd kx)) l new ->
  new = map (fun a => (key a, g a)) l.
Proof.
  revert new. induction l as [|a l IH]; intros new Hk Hall.
  - inversion Hall. reflexivity.
  - inversion Hall as [|? [k x] ? new' Hx Hall']; subst.
    simpl in *. injection Hk as -> Hk. injection Hx as <-.
    f_equal. now apply IH.
Qed.

(** ** clique_vector.py: the values of the arithmetic *)

Section CliqueVectorArithmetic.
Context {B : Base}.
Implicit Types (V W R : CliqueVector) (c k : Clique).

(** X1.  [const * V] and [V + scalar] never raise; on a vector with distinct
    keys they keep the keys in their order and act on every factor. *)
Theorem cv_scalar_ops_broadcast V (q : Q) :
  NoDup (dict_keys V) ->
  cv_mul V q = Ok (map (fun kv => (fst kv, factor_rmul q (snd kv))) V)
  /\ cv_rmul V q = cv_mul V q
  /\ cv_add V (Scalar q) = Ok (map (fun kv => (fst kv, factor_add_scalar (snd kv) q)) V)
  /\ cv_sub V (Scalar q)
     = Ok (map (fun kv => (fst kv, factor_add_scalar (snd kv) (-1 * q))) V).
Proof.
  intros HV.
  assert (G : forall g : Factor -> Factor,
             dict_comp (dict_keys V)
               (fun cl => bind (dict_get cl V) (fun f => Ok (g f))) []
             = Ok (map (fun kv => (fst kv, g (snd kv))) V)).
  { intros g.
    destruct (dict_comp_ok _
                (fun cl => bind (dict_get cl V) (fun f => Ok (g f)))
                (dict_keys V) []) as (out & Hout & _).
    { intros k Hk. apply dict_get_ok_iff in Hk as [f ->]. simpl. eauto. }
    rewrite Hout. f_equal.
    destruct (dict_comp_own_keys (fun f => Ok (g f)) V V [] (dict_entries_lookup V HV)
                HV out Hout) as (new & -> & Hk & Hall).
    simpl. apply (Forall2_total_map (fun kv => g (snd kv)) fst V new Hk Hall). }
  split; [apply G|]. split; [reflexivity|]. split; [apply G|].
  unfold cv_sub. simpl. apply G.
Qed.

Lemma cv_mul_values W (q : Q) W' :
  cv_mul W q = Ok W' ->
  forall k g, dict_get k W = Ok g -> dict_get k W' = Ok (factor_rmul q g).
Proof.
  unfold cv_mul. intros H k g Hg.
  rewrite (dict_comp_lookup _ _ _ _ H k).
  assert (Hk : In k (dict_keys W)) by (apply dict_get_ok_iff; eauto).
  apply set_mem_iff in Hk. rewrite Hk, Hg. reflexivity.
Qed.

(** The factors of [W] at the keys of [V], when [W] has them all. *)
Lemma right_factors_exist V W :
  incl (dict_keys V) (dict_keys W) ->
  exists gs, Forall2 (fun kv g => dict_get (fst kv) W = Ok g) V gs.
Proof.
  induction V as [|[k f] V IH]; simpl; intros H.
  - exists []. constructor.
  - destruct IH as [gs Hgs]; [intros x Hx; apply H; now right|].
    assert (Hk : In k (dict_keys W)) by (apply H; now left).
    apply dict_get_ok_iff in Hk as [g Hg].
    exists (g :: gs). now constructor.
Qed.

Lemma dict_comp_zip V W (h : Factor -> Factor -> Factor) :
  forall suffix gs acc,
  (forall k v, In (k, v) suffix -> dict_get k V = Ok v) ->
  Forall2 (fun kv g => dict_get (fst kv) W = Ok g) suffix gs ->
  NoDup (dict_keys acc ++ dict_keys suffix) ->
  dict_comp (dict_keys suffix)
    (fun cl => bind (dict_get cl V) (fun f =>
               bind (dict_get cl W) (fun g => Ok (h f g)))) acc
  = Ok (acc ++ map (fun kvg => (fst (fst kvg), h (snd (fst kvg)) (snd kvg)))
                 (combine suffix gs)).
Proof.
  induction suffix as [|[k v] suffix IH]; intros gs acc HV Hgs Hn.
  - inversion Hgs. simpl. now rewrite app_nil_r.
  - inversion Hgs as [|? g ? gs' Hg Hgs']; subst. simpl in *.
    rewrite (HV k v) by now left. simpl. rewrite Hg. simpl.
    assert (Hk : ~ In k (dict_keys acc)).
    { intros Hin. apply NoDup_remove_2 in Hn. apply Hn, in_or_app. now left. }
    rewrite dict_set_new by assumption. rewrite (IH gs').
    + now rewrite <- app_assoc.
    + intros k' v' Hin. apply HV. now right.
    + assumption.
    + unfold dict_keys. rewrite map_app, <- app_assoc. exact Hn.
Qed.

Lemma cv_dot_zip V W :
  forall suffix gs acc,
  (forall k v, In (k, v) suffix -> dict_get k V = Ok v) ->
  Forall2 (fun kv g => dict_get (fst kv) W = Ok g) suffix gs ->
  for_each (dict_keys suffix)
    (fun acc cl => bind (dict_get cl V) (fun f =>
                   bind (dict_get cl W) (fun g =>
                   Ok (acc + factor_sum (factor_mul f g))))) acc
  = Ok (fold_left
          (fun acc kvg => acc + factor_sum (factor_mul (snd (fst kvg)) (snd kvg)))
          (combine suffix gs) acc).
Proof.
  induction suffix as [|[k v] suffix IH]; intros gs acc HV Hgs.
  - inversion Hgs. reflexivity.
  - inversion Hgs as [|? g ? gs' Hg Hgs']; subst. simpl in *.
    rewrite (HV k v) by now left. simpl. rewrite Hg. simpl.
    apply IH; [|assumption]. intros k' v' Hin. apply HV. now right.
Qed.

(** X2.  On a vector [V] with distinct keys that are all keys of [W], with
    [gs] the factors of [W] at the keys of [V]: [V + W] and [V - W] keep
    the keys of [V] in their order and hold [V[k] + W[k]], respectively
    [V[k] + (-1) * W[k]]; [V.dot(W)] is the sum over the keys of [V] of
    [(V[k] * W[k]).sum()].  Keys that only [W] has play no part. *)
Theorem cv_add_sub_dot_values V W :
  NoDup (dict_keys V) ->
  incl (dict_keys V) (dict_keys W) ->
  exists gs,
    Forall2 (fun kv g => dict_get (fst kv) W = Ok g) V gs
    /\ cv_add V (Vector W)
       = Ok (map (fun kvg => (fst (fst kvg), factor_add (snd (fst kvg)) (snd kvg)))
               (combine V gs))
    /\ cv_sub V (Vector W)
       = Ok (map (fun kvg => (fst (fst kvg),
                              factor_add (snd (fst kvg)) (factor_rmul (-1) (snd kvg))))
               (combine V gs))
    /\ cv_dot V W
       = Ok (fold_left
               (fun acc kvg => acc + factor_sum (factor_mul (snd (fst kvg)) (snd kvg)))
               (combine V gs) 0).
Proof.
  intros HV HW. destruct (right_factors_exist V W HW) as [gs Hgs].
  exists gs. split; [assumption|].
  pose proof (dict_entries_lookup V HV) as Hown.
  split; [|split].
  - simpl. now rewrite (dict_comp_zip V W factor_add V gs []).
  - unfold cv_sub, neg_operand, cv_rmul.
    destruct (cv_mul_ok W (-1)) as (W' & HW' & _). rewrite HW'. simpl.
    assert (Hgs' : Forall2 (fun kv g => dict_get (fst kv) W' = Ok g) V
                     (map (factor_rmul (-1)) gs)).
    { clear -Hgs HW'. induction Hgs; simpl; constructor; [|assumption].
      now apply (cv_mul_values W (-1) W' HW'). }
    rewrite (dict_comp_zip V W' factor_add V _ [] Hown Hgs' HV). simpl.
    f_equal. clear. revert gs. induction V as [|kv V IH]; intros [|g gs]; simpl;
      try reflexivity.
    now rewrite IH.
  - unfold cv_dot. now apply cv_dot_zip.
Qed.

(** *** [combine] against [+] *)

Lemma add_first_cover_own_key V c g :
  NoDup (dict_keys V) ->
  (forall k, In k (dict_keys V) -> incl c k -> k = c) ->
  add_first_cover V c g = map (add_at_key c g) V.
Proof.
  induction V as [|[k f] V IH]; simpl; intros Hn Hc; [reflexivity|].
  inversion Hn as [|? ? Hk Hn']; subst.
  unfold add_at_key at 1. simpl.
  destruct (subset c k) eqn:S.
  - apply subset_iff in S. rewrite (Hc k (or_introl eq_refl) S), clique_eqb_refl.
    f_equal. rewrite <- (map_id V) at 1. apply map_ext_in.
    intros [k' f'] Hin. unfold add_at_key. simpl.
    destruct (clique_eqb k' c) eqn:E; [|reflexivity].
    apply clique_eqb_eq in E. subst k'. exfalso. apply Hk.
    rewrite (Hc k (or_introl eq_refl) S).
    change c with (fst (c, f')). now apply in_map.
  - destruct (clique_eqb k c) eqn:E.
    + apply clique_eqb_eq in E. subst k. apply subset_false_iff in S.
      exfalso. apply S, incl_refl.
    + f_equal. apply IH; auto.
Qed.

Lemma map_add_at_key_keys c g V : dict_keys (map (add_at_key c g) V) = dict_keys V.
Proof.
  unfold dict_keys. rewrite map_map. apply map_ext. intros [k f].
  unfold add_at_key. simpl. now destruct (clique_eqb k c).
Qed.

Lemma fold_add_at_key_entry W : forall (kv : Clique * Factor),
  NoDup (dict_keys W) ->
  fold_left (fun kv cg => add_at_key (fst cg) (snd cg) kv) W kv
  = match dict_get (fst kv) W with
    | Ok g => (fst kv, factor_add (snd kv) g)
    | Raise _ => kv
    end.
Proof.
  induction W as [|[c g] W IH]; simpl; intros kv Hn; [reflexivity|].
  inversion Hn as [|? ? Hc Hn']; subst.
  rewrite IH by assumption. unfold add_at_key. simpl.
  destruct (clique_eqb (fst kv) c) eqn:E; simpl; [|reflexivity].
  apply clique_eqb_eq in E. subst c.
  destruct (dict_get (fst kv) W) as [g'|e] eqn:G; [|reflexivity].
  exfalso. apply Hc. apply dict_get_ok_iff. eauto.
Qed.

Lemma fold_add_first_cover_own_keys W : forall V,
  NoDup (dict_keys V) ->
  (forall c k, In c (dict_keys W) -> In k (dict_keys V) -> incl c k -> k = c) ->
  fold_left (fun V cg => add_first_cover V (fst cg) (snd cg)) W V
  = map (fun kv => fold_left (fun kv cg => add_at_key (fst cg) (snd cg) kv) W kv) V.
Proof.
  induction W as [|[c g] W IH]; simpl; intros V Hn Hc.
  - now rewrite map_id.
  - rewrite add_first_cover_own_key; [|assumption|].
    + rewrite IH.
      * now rewrite map_map.
      * now rewrite map_add_at_key_keys.
      * intros c' k Hc' Hk. rewrite map_add_at_key_keys in Hk. apply Hc; auto.
    + intros k Hk. apply Hc; auto.
Qed.

(** X3.  [combine] and [+] agree when the keys are not nested.  If every key
    of [V] that covers a key [c] of [W] is [c] itself, [V.combine(W)]
    adds [W[k]] at each key [k] of [V] that [W] has and leaves the other
    factors of [V] as they are; when moreover every key of [V] is a key
    of [W], it produces the value of [V + W]. *)
Theorem cv_combine_agrees_with_add V W :
  NoDup (dict_keys V) -> NoDup (dict_keys W) ->
  (forall c k, In c (dict_keys W) -> In k (dict_keys V) -> incl c k -> k = c) ->
  cv_combine V W
  = Ok (map (fun kv => match dict_get (fst kv) W with
                       | Ok g => (fst kv, factor_add (snd kv) g)
                       | Raise _ => kv
                       end) V)
  /\ (incl (dict_keys V) (dict_keys W) -> cv_combine V W = cv_add V (Vector W)).
Proof.
  intros HV HW Hc.
  assert (Hcomb : cv_combine V W
                  = Ok (map (fun kv => match dict_get (fst kv) W with
                                       | Ok g => (fst kv, factor_add (snd kv) g)
                                       | Raise _ => kv
                                       end) V)).
  { unfold cv_combine. rewrite cv_combine_loop by apply incl_refl.
    rewrite fold_lookup_pairs by (intros c g; now apply dict_get_In_NoDup).
    rewrite fold_add_first_cover_own_keys by assumption.
    f_equal. apply map_ext. intros kv. now apply fold_add_at_key_entry. }
  split; [exact Hcomb|].
  intros Hin. rewrite Hcomb.
  destruct (right_factors_exist V W Hin) as [gs Hgs].
  simpl. rewrite (dict_comp_zip V W factor_add V gs [] (dict_entries_lookup V HV) Hgs HV).
  simpl. f_equal. clear -Hgs.
  induction Hgs as [|kv g V gs Hg _ IH]; simpl; [reflexivity|].
  now rewrite Hg, IH.
Qed.

End CliqueVectorArithmetic.

(** *** On explicit vectors *)

Open Scope string_scope.

Lemma ex_V_keys_distinct : NoDup (dict_keys ex_V).
Proof. repeat constructor; simpl; intuition discriminate. Qed.

Lemma cv_scalar_ops_broadcast_witness :
  NoDup (dict_keys ex_W)
  /\ @cv_mul OneCell ex_W 2 = Ok [(["A"], (["A"], 4)); (["B"], (["B"], 6))]
  /\ @cv_add OneCell ex_W (@Scalar OneCell 1)
     = Ok [(["A"], (["A"], 3)); (["B"], (["B"], 4))].
Proof.
  split; [exact ex_W_keys_distinct|].
  pose proof (@cv_scalar_ops_broadcast OneCell ex_W 2 ex_W_keys_distinct) as H2.
  pose proof (@cv_scalar_ops_broadcast OneCell ex_W 1 ex_W_keys_distinct) as H1.
  split; [exact (proj1 H2) | exact (proj1 (proj2 (proj2 H1)))].
Defined.

Lemma cv_add_sub_dot_values_witness :
  NoDup (dict_keys ex_V) /\ incl (dict_keys ex_V) (dict_keys ex_W)
  /\ exists gs,
       Forall2 (fun kv g => dict_get (fst kv) ex_W = Ok g) ex_V gs
       /\ @cv_dot OneCell ex_V ex_W
          = Ok (fold_left
                  (fun acc kvg =>
                     acc + @factor_sum OneCell
                             (@factor_mul OneCell (snd (fst kvg)) (snd kvg)))
                  (combine ex_V gs) 0).
Proof.
  assert (Hin : incl (dict_keys ex_V) (dict_keys ex_W)).
  { intros k [<-|[]]. simpl. auto. }
  split; [exact ex_V_keys_distinct|]. split; [exact Hin|].
  destruct (@cv_add_sub_dot_values OneCell ex_V ex_W ex_V_keys_distinct Hin)
    as (gs & Hgs & _ & _ & Hdot).
  exists gs. split; assumption.
Defined.

Lemma cv_combine_agrees_with_add_witness :
  NoDup (dict_keys ex_W) /\ NoDup (dict_keys ex_V)
  /\ @cv_combine OneCell ex_W ex_V
     = Ok [(["A"], (["A"], 3)); (["B"], (["B"], 3))].
Proof.
  split; [exact ex_W_keys_distinct|]. split; [exact ex_V_keys_distinct|].
  refine (proj1 (@cv_combine_agrees_with_add OneCell ex_W ex_V
                   ex_W_keys_distinct ex_V_keys_distinct _)).
  intros c k [<-|[]] [<-|[<-|[]]] Hi; [reflexivity|].
  exfalso. destruct (Hi "A" (or_introl eq_refl)) as [H|[]]. discriminate.
Defined.

(** With nested keys [combine] and [+] differ: both factors of the right
    operand go to the first covering key [(A, B)]. *)
Example cv_combine_differs_from_add_on_nested_keys :
  let V : cell_vector := [(["A"; "B"], (["A"; "B"], 5)); (["A"], (["A"], 7))] in
  let W : cell_vector := [(["A"; "B"], (["A"; "B"], 10)); (["A"], (["A"], 1))] in
  @cv_combine OneCell V W = Ok [(["A"; "B"], (["A"; "B"], 16)); (["A"], (["A"], 7))]
  /\ @cv_add OneCell V (@Vector OneCell W)
     = Ok [(["A"; "B"], (["A"; "B"], 15)); (["A"], (["A"], 8))].
Proof. split; reflexivity. Qed.

Close Scope string_scope.

(* ================================================================== *)
(** ** estimation.py: the model and mirror descent *)

Lemma for_each_raise_inv {A S} (xs : list A) (body : S -> A -> result S) e :
  forall st, for_each xs body st = Raise e ->
  exists st' x, In x xs /\ body st' x = Raise e.
Proof.
  induction xs as [|x xs IH]; simpl; intros st H; [discriminate|].
  apply bind_raise_inv in H as [H|(st1 & _ & H)].
  - exists st, x. auto.
  - destruct (IH _ H) as (st' & x' & Hin & Hx). exists st', x'. auto.
Qed.

Section EstimationMore.
Context {B : Base}.
Implicit Types (V W theta mu : CliqueVector).

(** *** [GraphicalModel.project] *)

Lemma project_scan_first_cover pre V c :
  (forall k, In k (dict_keys pre) -> ~ incl c k) ->
  project_scan (pre ++ V) (dict_keys V) c
  = match first_cover V c with
    | Some kv => Ok (factor_project (snd kv) c)
    | None => Raise ValueError
    end.
Proof.
  unfold first_cover.
  revert pre. induction V as [|[k f] V IH]; intros pre Hpre; simpl; [reflexivity|].
  destruct (subset c k) eqn:S.
  - apply subset_iff in S.
    rewrite dict_get_first by (intros H; exact (Hpre k H S)). reflexivity.
  - apply subset_false_iff in S.
    specialize (IH (pre ++ [(k, f)])).
    rewrite <- app_assoc in IH. simpl in IH. apply IH.
    intros k0. unfold dict_keys. rewrite map_app, in_app_iff. simpl.
    intros [H|[<-|[]]]; [now apply Hpre | assumption].
Qed.

(** X4.  [model.project(attrs)] is the projection of the first marginal
    whose clique covers [attrs]; variable elimination on the potentials
    is used when no marginal covers [attrs], and only then. *)
Theorem gm_project_first_cover_or_elimination {E : Externals}
  (self : GraphicalModel) (attrs : Clique) :
  gm_project self attrs
  = match first_cover (marginals self) attrs with
    | Some kv => factor_project (snd kv) attrs
    | None => variable_elimination (potentials self) attrs (total self)
    end
  /\ (first_cover (marginals self) attrs = None
      <-> forall k, In k (cv_cliques (marginals self)) -> ~ incl attrs k)
  /\ (forall kv, first_cover (marginals self) attrs = Some kv ->
        In kv (marginals self) /\ incl attrs (fst kv)).
Proof.
  split; [|split].
  - unfold gm_project, cv_project, cv_cliques.
    pose proof (project_scan_first_cover [] (marginals self) attrs) as H.
    simpl in H. rewrite H by (intros k []).
    now destruct (first_cover (marginals self) attrs).
  - unfold first_cover, cv_cliques. split.
    + intros Hn k Hk Hc. apply in_map_iff in Hk as (kv & <- & Hin).
      pose proof (find_none _ _ Hn kv Hin) as Hs. simpl in Hs.
      apply subset_false_iff in Hs. contradiction.
    + intros Hno.
      destruct (find (fun kv => subset attrs (fst kv)) (marginals self)) as [kv|] eqn:F;
        [|reflexivity].
      apply find_some in F as [Hin Hs]. apply subset_iff in Hs.
      exfalso. apply (Hno (fst kv)); [now apply in_map | assumption].
  - intros kv F. apply find_some in F as [Hin Hs]. split; [assumption|].
    now apply subset_iff.
Qed.

(** *** What [mirror_descent] raises *)

Lemma cv_sub_vector_raise V W e : cv_sub V (Vector W) = Raise e -> e = KeyError.
Proof.
  destruct (cv_sub_vector_add V W) as (W' & Hs & _). rewrite Hs.
  apply cv_add_vector_raise.
Qed.

Lemma md_update_raise oracle (L : MarginalLossFn) T stepsize theta alpha e :
  md_update oracle L T stepsize theta alpha = Raise e -> e = KeyError.
Proof.
  unfold md_update. cbv zeta. unfold cv_rmul.
  destruct (cv_mul_ok (loss_grad L (oracle theta T)) alpha) as (step & -> & _).
  simpl. intros H.
  apply bind_raise_inv in H as [H|(theta2 & _ & H)];
    [now apply cv_sub_vector_raise in H|].
  destruct stepsize as [s|]; [discriminate|].
  apply bind_raise_inv in H as [H|(dmu & _ & H)];
    [now apply cv_sub_vector_raise in H|].
  apply bind_raise_inv in H as [H|(ip & _ & H)]; [|discriminate].
  now apply cv_dot_raise in H.
Qed.

(** X5.  [mirror_descent] raises [ValueError] when it is given a custom loss
    and no total, whatever its other arguments; any other exception it
    raises is a [KeyError] of the clique-vector arithmetic, met in an
    iteration. *)
Theorem mirror_descent_exceptions {E : Externals} :
  (forall domain (L : MarginalLossFn) pots oracle iters stepsize,
     mirror_descent domain (inr L) None pots oracle iters stepsize = Raise ValueError)
  /\ (forall domain loss known pots oracle iters stepsize e,
        mirror_descent domain loss known pots oracle iters stepsize = Raise e ->
        (e = ValueError /\ known = None /\ exists L, loss = inr L)
        \/ (e = KeyError /\ (0 < iters)%nat)).
Proof.
  split; [reflexivity|].
  intros domain loss known pots oracle iters stepsize e H.
  unfold mirror_descent in H.
  apply bind_raise_inv in H as [H|([[L T] P] & _ & H)].
  - left. unfold _initialize in H.
    destruct loss as [ms|L]; [discriminate|].
    destruct known as [t|]; [discriminate|].
    simpl in H. injection H as <-. eauto.
  - right. apply bind_raise_inv in H as [H|(st & _ & H)]; [|discriminate].
    unfold md_loop in H.
    apply for_each_raise_inv in H as (st' & t & Hin & H).
    split.
    + unfold md_step in H.
      apply bind_raise_inv in H as [H|([[[th l] al] mu] & _ & H)]; [|discriminate].
      now apply md_update_raise in H.
    + apply in_seq in Hin. lia.
Qed.

(** *** A fixed step size *)

Lemma md_steps_fixed oracle (L : MarginalLossFn) T s n : forall a theta cbs,
  for_each (seq a n) (md_step oracle L T (Some s)) (mkMdState theta s cbs)
  = bind (gradient_steps oracle L T s n theta)
         (fun r => Ok (mkMdState (fst r) s (cbs ++ snd r))).
Proof.
  induction n as [|n IH]; intros a theta cbs; simpl.
  - now rewrite app_nil_r.
  - unfold md_step at 1. unfold md_update, gradient_step. cbv zeta. simpl.
    destruct (cv_rmul (loss_grad L (oracle theta T)) s) as [step|e]; [|reflexivity].
    simpl.
    destruct (cv_sub theta (Vector step)) as [theta2|e]; [|reflexivity].
    simpl. rewrite IH.
    destruct (gradient_steps oracle L T s n theta2) as [[th cb]|e]; [|reflexivity].
    simpl. now rewrite <- app_assoc.
Qed.

(** X6.  With a fixed step size [s], [mirror_descent] makes no line search:
    every iteration replaces the potentials by
    [theta - s * dL(marginal_oracle(theta))], whether or not the loss
    decreases, and the callback receives the marginals each step starts
    from. *)
Theorem mirror_descent_fixed_stepsize {E : Externals} domain loss known pots
  oracle iters (s : Q) :
  mirror_descent domain loss known pots oracle iters (Some s)
  = bind (_initialize domain loss known pots) (fun init =>
      match init with
      | (L, T, P) =>
          bind (gradient_steps oracle L T s iters P) (fun r =>
          Ok (mkGraphicalModel (fst r) (oracle (fst r) T) T, snd r))
      end).
Proof.
  unfold mirror_descent.
  destruct (_initialize domain loss known pots) as [[[L T] P]|e]; [|reflexivity].
  simpl. unfold md_loop. rewrite md_steps_fixed.
  now destruct (gradient_steps oracle L T s iters P) as [[th cb]|e].
Qed.

End EstimationMore.

(** *** The model [mirror_descent] returns *)

Lemma mvut_floor ms : 1 <= minimum_variance_unbiased_total ms.
Proof.
  rewrite mvut_unfold.
  destruct (filter is_identity_on_value ms) as [|M kept]; [lra|].
  cbv beta iota zeta.
  destruct (existsb _ (M :: kept)); [lra | apply py_max_floor].
Qed.

Section EstimationModel.
Context {B : Base}.
Implicit Types (V W theta mu : CliqueVector).

Lemma same_keys_trans {X Y Z} (a : dict X) (b : dict Y) (c : dict Z) :
  same_keys a b -> same_keys b c -> same_keys a c.
Proof. intros H1 H2 k. now rewrite (H1 k). Qed.

Lemma cv_sub_vector_keys V W R : cv_sub V (Vector W) = Ok R -> same_keys R V.
Proof.
  destruct (cv_sub_vector_add V W) as (W' & Hs & _). rewrite Hs.
  apply cv_add_vector_keys.
Qed.

Lemma md_update_keys oracle (L : MarginalLossFn) T stepsize theta alpha r :
  md_update oracle L T stepsize theta alpha = Ok r ->
  same_keys (fst (fst (fst r))) theta /\ snd r = oracle theta T.
Proof.
  unfold md_update. cbv zeta. intros H.
  apply bind_ok_inv in H as (step & _ & H).
  apply bind_ok_inv in H as (theta2 & H2 & H).
  apply cv_sub_vector_keys in H2.
  destruct stepsize as [s|].
  - injection H as <-. simpl. auto.
  - apply bind_ok_inv in H as (dmu & _ & H).
    apply bind_ok_inv in H as (ip & _ & H).
    injection H as <-. simpl. split; [|reflexivity].
    now destruct (Qle_bool _ _); [|intros k].
Qed.

Lemma md_steps_keys oracle (L : MarginalLossFn) T stepsize ts : forall st st',
  for_each ts (md_step oracle L T stepsize) st = Ok st' ->
  same_keys (md_potentials st') (md_potentials st)
  /\ exists thetas,
       List.length thetas = List.length ts
       /\ md_callbacks st' = md_callbacks st ++ map (fun theta => oracle theta T) thetas
       /\ Forall (fun theta => same_keys theta (md_potentials st)) thetas.
Proof.
  induction ts as [|t ts IH]; simpl; intros st st' H.
  - injection H as <-. split; [now intros k|].
    exists []. simpl. now rewrite app_nil_r.
  - apply bind_ok_inv in H as (st1 & Hstep & H).
    destruct (IH _ _ H) as (Hk & thetas & Hl & Hc & Hall).
    unfold md_step in Hstep.
    apply bind_ok_inv in Hstep as ([[[th l] al] mu] & Hup & Hst1).
    injection Hst1 as <-.
    apply md_update_keys in Hup as [Hk1 Hmu]. simpl in *. subst mu.
    split; [eapply same_keys_trans; eassumption|].
    exists (md_potentials st :: thetas). simpl.
    split; [now rewrite Hl|]. split; [now rewrite Hc, <- app_assoc|].
    constructor; [now intros k|].
    eapply Forall_impl; [|exact Hall].
    intros theta Ht. exact (same_keys_trans _ _ _ Ht Hk1).
Qed.

(** X7.  The model [mirror_descent] returns, with either kind of step size:
    its marginals are the oracle's marginals of its potentials at its
    total; its total is the one given, or else the estimate from the
    measurements, which is at least 1; its potentials have the cliques of
    the initial potentials (those of the loss when none are given); and
    the callback has been called once per iteration, each time with the
    oracle's marginals of potentials over these cliques. *)
Theorem mirror_descent_model {E : Externals} domain loss known pots oracle
  iters stepsize model callbacks :
  mirror_descent domain loss known pots oracle iters stepsize = Ok (model, callbacks) ->
  marginals model = oracle (potentials model) (total model)
  /\ (forall t, known = Some t -> total model = t)
  /\ (known = None ->
      exists ms, loss = inl ms
                 /\ total model = minimum_variance_unbiased_total ms
                 /\ 1 <= total model)
  /\ (forall P, pots = Some P -> same_keys (potentials model) P)
  /\ (pots = None ->
      forall L, (loss = inr L \/ exists ms, loss = inl ms /\ L = from_linear_measurements ms) ->
      forall k, In k (dict_keys (potentials model)) <-> In k (loss_cliques L))
  /\ List.length callbacks = iters
  /\ exists thetas,
       callbacks = map (fun theta => oracle theta (total model)) thetas
       /\ Forall (fun theta => same_keys theta (potentials model)) thetas.
Proof.
  intros H. unfold mirror_descent in H.
  apply bind_ok_inv in H as ([[L T] P] & Hinit & H).
  apply bind_ok_inv in H as (st & Hloop & H).
  injection H as <- <-. simpl.
  unfold md_loop in Hloop.
  apply md_steps_keys in Hloop as (Hk & thetas & Hl & Hc & Hall).
  simpl in Hk, Hc, Hall. rewrite length_seq in Hl.
  unfold _initialize in Hinit.
  apply bind_ok_inv in Hinit as ([L' T'] & Hlt & Hinit).
  injection Hinit as -> -> HP. simpl in HP.
  split; [reflexivity|]. split; [|split; [|split; [|split; [|split]]]].
  - intros t ->. destruct loss as [ms|L0]; simpl in Hlt; now injection Hlt.
  - intros ->. destruct loss as [ms|L0]; simpl in Hlt; [|discriminate].
    injection Hlt as _ <-. exists ms. split; [reflexivity|].
    split; [reflexivity | apply mvut_floor].
  - intros P0 ->. now subst P.
  - intros -> L0 HL0 k. subst P. rewrite (Hk k).
    assert (HL : L0 = L).
    { destruct HL0 as [->|(ms & -> & ->)]; simpl in Hlt.
      - destruct known; [now injection Hlt | discriminate].
      - now injection Hlt. }
    subst L0. apply cv_zeros_spec.
  - now rewrite Hc, length_map.
  - exists thetas. split; [exact Hc|].
    eapply Forall_impl; [|exact Hall].
    intros theta Ht k. rewrite (Ht k). symmetry. apply Hk.
Qed.

End EstimationModel.

(** *** Bounds on the estimated total *)

Lemma py_max_mono a b : a <= b -> py_max 1 a <= py_max 1 b.
Proof.
  unfold py_max. intros H.
  destruct (Qlt_le_dec 1 a), (Qlt_le_dec 1 b); lra.
Qed.

(** Inverse-variance weights are positive, so the weighted sum of the
    sums lies between the bounds of the sums times the total weight. *)
Lemma weighted_sums_between (kept : list LinearMeasurement) lo hi :
  (forall M, In M kept -> 0 < measurement_variance M) ->
  (forall M, In M kept -> lo <= measurement_sum M <= hi) ->
  let S := vec_sum (map (fun M => 1 / measurement_variance M) kept) in
  let N := vec_sum (map (fun M => measurement_sum M / measurement_variance M) kept) in
  0 <= S /\ (kept <> [] -> 0 < S) /\ lo * S <= N /\ N <= hi * S.
Proof.
  induction kept as [|M kept IH]; intros Hv Hs; cbv zeta.
  - unfold vec_sum. simpl. split; [|split; [congruence|split]]; lra.
  - simpl map. rewrite !vec_sum_cons.
    destruct IH as (S0 & _ & Hlo & Hhi).
    { intros M' HM. apply Hv. now right. }
    { intros M' HM. apply Hs. now right. }
    pose proof (Hv M (or_introl eq_refl)) as Hv0.
    destruct (Hs M (or_introl eq_refl)) as [Hl Hh].
    assert (Hw : 0 < 1 / measurement_variance M).
    { unfold Qdiv. rewrite Qmult_1_l. now apply Qinv_lt_0_compat. }
    assert (He : measurement_sum M / measurement_variance M
                 == measurement_sum M * (1 / measurement_variance M)).
    { unfold Qdiv. ring. }
    rewrite He.
    set (w := 1 / measurement_variance M) in *.
    set (e := measurement_sum M) in *.
    assert (lo * w <= e * w) by (apply Qmult_le_compat_r; lra).
    assert (e * w <= hi * w) by (apply Qmult_le_compat_r; lra).
    split; [|split; [intros _|split]]; lra.
Qed.

(** X8.  On measurements with positive variances the estimated total lies
    between the smallest and the largest of the sums it combines, floored
    at 1; it is therefore [max(1, sum)] for a single measurement, whatever
    its noise scale. *)
Theorem mvut_between_kept_sums (ms : list LinearMeasurement) (lo hi : Q) :
  filter is_identity_on_value ms <> [] ->
  (forall M, In M (filter is_identity_on_value ms) -> 0 < measurement_variance M) ->
  (forall M, In M (filter is_identity_on_value ms) -> lo <= measurement_sum M <= hi) ->
  py_max 1 lo <= minimum_variance_unbiased_total ms
  /\ minimum_variance_unbiased_total ms <= py_max 1 hi.
Proof.
  intros Hne Hv Hs. rewrite mvut_unfold.
  pose proof (weighted_sums_between _ lo hi Hv Hs) as HW. cbv zeta in HW.
  pose proof (positive_variances_no_zero _ Hv) as HZ.
  destruct (filter is_identity_on_value ms) as [|M kept]; [congruence|].
  destruct HW as (_ & HS & Hlo & Hhi).
  specialize (HS Hne). cbv beta iota zeta. rewrite HZ, map_map.
  set (S := vec_sum (map (fun M => 1 / measurement_variance M) (M :: kept))) in *.
  set (N := vec_sum (map (fun M => measurement_sum M / measurement_variance M)
                       (M :: kept))) in *.
  assert (E : 1 / S * N == N / S) by (field; lra).
  split; apply py_max_mono; rewrite E.
  - apply Qle_shift_div_l; assumption.
  - apply Qle_shift_div_r; assumption.
Qed.

(* ================================================================== *)
(** ** estimation.py: interior gradient *)

Lemma last_nonempty_default {A} (l : list A) : forall (b d d' : A),
  last (b :: l) d = last (b :: l) d'.
Proof.
  induction l as [|c l IH]; intros b d d'; [reflexivity|].
  change (last (c :: l) d = last (c :: l) d'). apply IH.
Qed.

Lemma last_cons_default {A} (a : A) (l : list A) (d : A) :
  last (a :: l) d = last l a.
Proof.
  destruct l as [|b l]; [reflexivity|].
  change (last (b :: l) d = last (b :: l) a). apply last_nonempty_default.
Qed.

Section InteriorGradientFacts.
Context {B : Base} {E : Externals}.
Implicit Types (V W theta x y z : CliqueVector).

Lemma cv_rmul_keys V q R : cv_rmul V q = Ok R -> same_keys R V.
Proof.
  unfold cv_rmul. destruct (cv_mul_ok V q) as (R' & HR & Hk).
  rewrite HR. intros H. injection H as <-. exact Hk.
Qed.

Lemma ig_update_keys oracle (L : MarginalLossFn) T l theta c x y z r :
  ig_update oracle L T l theta c x y z = Ok r ->
  match r with
  | (theta', _, x', _, z') =>
      same_keys theta' theta /\ same_keys x' x /\ z' = oracle theta' T
  end.
Proof.
  unfold ig_update. cbv zeta. intros H.
  apply bind_ok_inv in H as (x1 & _ & H).
  apply bind_ok_inv in H as (z1 & _ & H).
  apply bind_ok_inv in H as (y1 & _ & H).
  apply bind_ok_inv in H as (step & _ & H).
  apply bind_ok_inv in H as (theta1 & Ht & H).
  apply bind_ok_inv in H as (x2 & Hx2 & H).
  apply bind_ok_inv in H as (z2 & _ & H).
  apply bind_ok_inv in H as (x3 & Hx3 & H).
  injection H as <-.
  split; [now apply cv_sub_vector_keys in Ht|]. split; [|reflexivity].
  apply cv_add_vector_keys in Hx3. apply cv_rmul_keys in Hx2.
  exact (same_keys_trans _ _ _ Hx3 Hx2).
Qed.

Lemma ig_steps_spec oracle (L : MarginalLossFn) T l ts : forall st st',
  for_each ts (ig_step oracle L T l) st = Ok st' ->
  exists new,
    ig_callbacks st' = ig_callbacks st ++ new
    /\ List.length new = List.length ts
    /\ ig_x st' = last new (ig_x st)
    /\ Forall (fun xt => same_keys xt (ig_x st)) new.
Proof.
  induction ts as [|t ts IH]; simpl; intros st st' H.
  - injection H as <-. exists []. simpl. now rewrite app_nil_r.
  - apply bind_ok_inv in H as (st1 & Hstep & H).
    destruct (IH _ _ H) as (new & Hc & Hl & Hx & Hall).
    unfold ig_step in Hstep.
    apply bind_ok_inv in Hstep as ([[[[th c] x1] y1] z1] & Hup & Hst1).
    injection Hst1 as <-.
    apply ig_update_keys in Hup as (_ & Hk & _). simpl in *.
    exists (x1 :: new). split; [now rewrite Hc, <- app_assoc|].
    split; [simpl; now rewrite Hl|]. split; [now rewrite last_cons_default|].
    constructor; [assumption|].
    eapply Forall_impl; [|exact Hall].
    intros xt Hxt. exact (same_keys_trans _ _ _ Hxt Hk).
Qed.

(** X10.  [interior_gradient] cannot be called with its default arguments:
    [lipschitz] defaults to [None] and [sigma / lipschitz] then raises
    [TypeError], unless [_initialize] has raised [ValueError] before (a
    custom loss without total); a Lipschitz constant of zero raises
    [ZeroDivisionError] in the same way.  A call that returns was given a
    non-zero constant. *)
Theorem interior_gradient_needs_lipschitz :
  (forall domain loss known pots oracle iters stepsize,
     interior_gradient domain loss None known pots oracle iters stepsize
     = Raise match loss, known with
             | inr _, None => ValueError
             | _, _ => TypeError
             end)
  /\ (forall domain loss (L : Q) known pots oracle iters stepsize,
        L == 0 ->
        interior_gradient domain loss (Some L) known pots oracle iters stepsize
        = Raise match loss, known with
                | inr _, None => ValueError
                | _, _ => ZeroDivisionError
                end)
  /\ (forall domain loss lipschitz known pots oracle iters stepsize r,
        interior_gradient domain loss lipschitz known pots oracle iters stepsize = Ok r ->
        exists L, lipschitz = Some L /\ ~ L == 0).
Proof.
  split; [|split].
  - intros domain [ms|L0] [t|] pots oracle iters stepsize; reflexivity.
  - intros domain loss L known pots oracle iters stepsize HL.
    apply Qeq_bool_iff in HL.
    destruct loss as [ms|L0], known as [t|]; unfold interior_gradient; simpl;
      unfold py_div; try rewrite HL; reflexivity.
  - intros domain loss lipschitz known pots oracle iters stepsize r H.
    unfold interior_gradient in H.
    apply bind_ok_inv in H as ([[L0 T] P] & _ & H).
    cbv zeta in H. apply bind_ok_inv in H as (l & Hl & _).
    destruct lipschitz as [L|]; [|discriminate].
    exists L. split; [reflexivity|]. now apply py_div_ok in Hl.
Qed.

(** X11.  What [interior_gradient] returns is the marginals [x] of its last
    iteration, the last thing the callback was called with, and not a
    model; without iterations it is the oracle's marginals of the initial
    potentials.  The callback is called once per iteration, with vectors
    over the cliques of these marginals, and [stepsize] has no effect. *)
Theorem interior_gradient_returns_last_iterate domain loss lipschitz known pots
  oracle iters stepsize x callbacks :
  interior_gradient domain loss lipschitz known pots oracle iters stepsize
  = Ok (x, callbacks) ->
  exists L T P,
    _initialize domain loss known pots = Ok (L, T, P)
    /\ List.length callbacks = iters
    /\ x = last callbacks (oracle P T)
    /\ Forall (fun xt => same_keys xt (oracle P T)) callbacks
    /\ forall stepsize',
         interior_gradient domain loss lipschitz known pots oracle iters stepsize'
         = Ok (x, callbacks).
Proof.
  intros H. pose proof H as H0. unfold interior_gradient in H.
  apply bind_ok_inv in H as ([[L T] P] & Hinit & H).
  cbv zeta in H. apply bind_ok_inv in H as (l & _ & H).
  apply bind_ok_inv in H as (st & Hloop & H). injection H as <- <-.
  apply ig_steps_spec in Hloop as (new & Hc & Hl & Hx & Hall).
  simpl in Hc, Hx, Hall. rewrite length_seq in Hl. subst new.
  exists L, T, P. repeat (split; [assumption|]). intros stepsize'. exact H0.
Qed.

End InteriorGradientFacts.

(** *** On explicit inputs *)

Open Scope string_scope.

Lemma mirror_descent_model_witness :
  exists model callbacks,
    @mirror_descent OneCell OneCellExt [] (inr square_loss) (Some 1) (Some ex_V)
      identity_oracle 3 None
    = Ok (model, callbacks)
    /\ marginals model = identity_oracle (potentials model) (total model)
    /\ List.length callbacks = 3%nat.
Proof.
  destruct (ok_by_evaluation
              (@mirror_descent OneCell OneCellExt [] (inr square_loss) (Some 1)
                 (Some ex_V) identity_oracle 3 None) (fun _ => True))
    as ([model callbacks] & H & _); [vm_compute; exact I|].
  exists model, callbacks. split; [exact H|].
  destruct (@mirror_descent_model OneCell OneCellExt _ _ _ _ _ _ _ _ _ H)
    as (Hm & _ & _ & _ & _ & Hl & _).
  split; assumption.
Defined.

Lemma mvut_between_kept_sums_witness :
  py_max 1 100 <= minimum_variance_unbiased_total [ex_M100; ex_M110]
  /\ minimum_variance_unbiased_total [ex_M100; ex_M110] <= py_max 1 110.
Proof.
  apply (mvut_between_kept_sums [ex_M100; ex_M110] 100 110).
  - discriminate.
  - intros M [<-|[<-|[]]]; reflexivity.
  - intros M [<-|[<-|[]]]; split; discriminate.
Defined.

Lemma interior_gradient_returns_last_iterate_witness :
  exists x callbacks,
    @interior_gradient OneCell OneCellExt [] (inr square_loss) (Some 1) (Some 1)
      (Some ex_V) identity_oracle 2 None
    = Ok (x, callbacks)
    /\ List.length callbacks = 2%nat
    /\ x = last callbacks ex_V.
Proof.
  destruct (ok_by_evaluation
              (@interior_gradient OneCell OneCellExt [] (inr square_loss) (Some 1)
                 (Some 1) (Some ex_V) identity_oracle 2 None) (fun _ => True))
    as ([x callbacks] & H & _); [vm_compute; exact I|].
  exists x, callbacks. split; [exact H|].
  destruct (@interior_gradient_returns_last_iterate OneCell OneCellExt
              _ _ _ _ _ _ _ _ _ _ H)
    as (L & T & P & Hinit & Hl & Hx & _).
  injection Hinit as _ _ <-. split; assumption.
Defined.

(** The default call, and two iterations at [lipschitz = 1] on
    [square_loss] from the potential 1. *)
Example interior_gradient_runs :
  @interior_gradient OneCell OneCellExt [] (inl [ex_M100]) None None None
    identity_oracle 2 None
  = Raise TypeError
  /\ @interior_gradient OneCell OneCellExt [] (inr square_loss) (Some 1) (Some 1)
       (Some ex_V) identity_oracle 2 None
     = Ok ([(["A"], (["A"], -1 # 6))],
           [[(["A"], (["A"], 0))]; [(["A"], (["A"], -1 # 6))]]).
Proof. split; vm_compute; reflexivity. Qed.

Close Scope string_scope.

(* ================================================================== *)
(** ** aim_simple.py: [powerset] and [downward_closure] *)

Lemma combinations_zero s : combinations s 0 = [[]].
Proof. now destruct s. Qed.

Lemma list_sum_map_add {A} (f g : A -> nat) (l : list A) :
  list_sum (map (fun x => (f x + g x)%nat) l)
  = (list_sum (map f l) + list_sum (map g l))%nat.
Proof. induction l as [|x l IH]; simpl; [reflexivity | rewrite IH; lia]. Qed.

Lemma list_sum_map_zero {A} (f : A -> nat) (l : list A) :
  (forall x, f x = O) -> list_sum (map f l) = O.
Proof. intros H. induction l as [|x l IH]; simpl; [reflexivity | now rewrite H, IH]. Qed.

Lemma list_sum_cons (x : nat) (l : list nat) : list_sum (x :: l) = (x + list_sum l)%nat.
Proof. reflexivity. Qed.

(** The sub-tuples of all sizes of a tuple of length [n] are [2 ^ n]. *)
Lemma combinations_count s : forall m,
  (List.length s <= m)%nat ->
  list_sum (map (fun r => List.length (combinations s r)) (seq 0 (S m)))
  = (2 ^ List.length s)%nat.
Proof.
  induction s as [|a s IH]; intros m Hm.
  - change (seq 0 (S m)) with (0%nat :: seq 1 m).
    rewrite <- seq_shift, map_cons, map_map, list_sum_cons.
    now rewrite list_sum_map_zero.
  - destruct m as [|m]; [simpl in Hm; lia|]. simpl in Hm.
    assert (Hm' : (List.length s <= m)%nat) by lia.
    change (seq 0 (S (S m))) with (0%nat :: seq 1 (S m)).
    rewrite <- seq_shift, map_cons, map_map, list_sum_cons.
    rewrite combinations_zero.
    rewrite (map_ext (fun r => List.length (combinations (a :: s) (S r)))
               (fun r => (List.length (combinations s r)
                          + List.length (combinations s (S r)))%nat))
      by (intros r; simpl; now rewrite length_app, length_map).
    rewrite list_sum_map_add, (IH m Hm').
    assert (H1 : (1 + list_sum (map (fun r => List.length (combinations s (S r)))
                                  (seq 0 (S m))))%nat
                 = (2 ^ List.length s)%nat).
    { rewrite <- (IH (S m)) by lia.
      change (seq 0 (S (S m))) with (0%nat :: seq 1 (S m)).
      rewrite <- seq_shift, map_cons, map_map, list_sum_cons.
      now rewrite combinations_zero. }
    simpl List.length in *. cbn [Nat.pow]. lia.
Qed.

Lemma sorted_level_app (a : nat) (l1 l2 : list Clique) :
  (forall k, In k l1 -> List.length k = a) ->
  Sorted by_size l2 ->
  (forall k, In k l2 -> (a <= List.length k)%nat) ->
  Sorted by_size (l1 ++ l2).
Proof.
  intros H1 H2 Hge. induction l1 as [|x l1 IH]; simpl; [assumption|].
  constructor.
  - apply IH. intros k Hk. apply H1. now right.
  - assert (Hx : List.length x = a) by (apply H1; now left).
    destruct l1 as [|y l1]; simpl.
    + destruct l2 as [|y l2]; constructor.
      unfold by_size. rewrite Hx. apply Hge. now left.
    + constructor. unfold by_size.
      rewrite Hx, (H1 y) by (right; now left). lia.
Qed.

Lemma combinations_levels s : forall n a,
  Sorted by_size (flat_map (combinations s) (seq a n))
  /\ forall k, In k (flat_map (combinations s) (seq a n)) -> (a <= List.length k)%nat.
Proof.
  induction n as [|n IH]; intros a; simpl.
  - split; [constructor | tauto].
  - destruct (IH (S a)) as [Hs Hge]. split.
    + apply (sorted_level_app a).
      * intros k Hk. now apply combinations_spec in Hk.
      * assumption.
      * intros k Hk. apply Hge in Hk. lia.
    + intros k Hk. apply in_app_iff in Hk as [Hk|Hk].
      * apply combinations_spec in Hk. lia.
      * apply Hge in Hk. lia.
Qed.

Lemma subtuple_head a k w : subtuple (a :: k) w = true -> In a w.
Proof.
  induction w as [|b w IH]; simpl; [discriminate|].
  intros H. apply orb_true_iff in H as [H|H].
  - apply andb_true_iff in H as [H _]. apply String.eqb_eq in H. now left.
  - right. now apply IH.
Qed.

Lemma NoDup_map_cons (a : attr) (l : list Clique) :
  NoDup l -> NoDup (map (cons a) l).
Proof.
  induction 1 as [|x l Hx _ IH]; simpl; constructor; [|assumption].
  intros H. apply in_map_iff in H as (y & Hy & Hin).
  injection Hy as ->. contradiction.
Qed.

Lemma combinations_NoDup s : NoDup s -> forall r, NoDup (combinations s r).
Proof.
  induction 1 as [|a s Ha _ IH]; intros [|r]; simpl;
    try (constructor; [tauto | constructor]); try constructor.
  apply NoDup_app.
  - apply NoDup_map_cons, IH.
  - apply IH.
  - intros k Hk Hk'. apply in_map_iff in Hk as (k0 & <- & _).
    apply combinations_spec in Hk' as [_ Hs].
    apply Ha. eapply subtuple_head. exact Hs.
Qed.

Lemma combinations_levels_NoDup s : NoDup s -> forall n a,
  NoDup (flat_map (combinations s) (seq a n)).
Proof.
  intros Hs. induction n as [|n IH]; intros a; simpl; [constructor|].
  apply NoDup_app.
  - now apply combinations_NoDup.
  - apply IH.
  - intros k Hk Hk'. apply combinations_spec in Hk as [Hk _].
    apply (proj2 (combinations_levels s n (S a))) in Hk'. lia.
Qed.

(** X12.  [powerset(s)] yields [2 ^ len(s) - 1] tuples, in order of increasing
    size and never the empty one; they are distinct when the elements of
    [s] are.  The example of the docstring:
    [powerset([1,2,3]) --> (1,) (2,) (3,) (1,2) (1,3) (2,3) (1,2,3)]. *)
Theorem powerset_count_and_order (s : Clique) :
  List.length (powerset s) = (2 ^ List.length s - 1)%nat
  /\ Sorted by_size (powerset s)
  /\ ~ In [] (powerset s)
  /\ (NoDup s -> NoDup (powerset s))
  /\ forall a b c : attr,
       powerset [a; b; c] = [[a]; [b]; [c]; [a; b]; [a; c]; [b; c]; [a; b; c]].
Proof.
  unfold powerset. split; [|split; [|split; [|split]]].
  - pose proof (combinations_count s (List.length s) (le_n _)) as H.
    change (seq 0 (S (List.length s))) with (0%nat :: seq 1 (List.length s)) in H.
    rewrite map_cons, list_sum_cons, combinations_zero in H.
    rewrite length_flat_map. simpl in H. lia.
  - apply combinations_levels.
  - intros H. apply (proj2 (combinations_levels s (List.length s) 1)) in H.
    simpl in H. lia.
  - intros Hs. now apply combinations_levels_NoDup.
  - reflexivity.
Qed.

Lemma subtuple_refl k : subtuple k k = true.
Proof.
  induction k as [|a k IH]; simpl; [reflexivity|].
  now rewrite String.eqb_refl, IH.
Qed.

Lemma subtuple_nil_r k : subtuple k [] = true -> k = [].
Proof. destruct k; [reflexivity | discriminate]. Qed.

Lemma subtuple_trans c : forall a b,
  subtuple a b = true -> subtuple b c = true -> subtuple a c = true.
Proof.
  induction c as [|x c IH]; intros a b Hab Hbc.
  - apply subtuple_nil_r in Hbc. subst b. apply subtuple_nil_r in Hab. now subst a.
  - destruct a as [|a0 a]; [reflexivity|].
    destruct b as [|b0 b]; [discriminate|].
    simpl in Hbc. simpl. apply orb_true_iff.
    apply orb_true_iff in Hbc as [Hbc|Hbc].
    + apply andb_true_iff in Hbc as [Hx Hbc]. apply String.eqb_eq in Hx. subst x.
      simpl in Hab. apply orb_true_iff in Hab as [Hab|Hab].
      * apply andb_true_iff in Hab as [H0 Hab]. left.
        rewrite H0. simpl. exact (IH _ _ Hab Hbc).
      * right. exact (IH _ _ Hab Hbc).
    + right. exact (IH _ _ Hab Hbc).
Qed.

(** X13.  [downward_closure] is a closure on sets of non-empty cliques: it
    contains the non-empty cliques it is given, it contains every
    non-empty sub-tuple of its members, closing again adds nothing, and a
    larger input gives a larger closure. *)
Theorem downward_closure_is_a_closure (Ws : list Clique) :
  (forall w, In w Ws -> w <> [] -> In w (downward_closure Ws))
  /\ (forall k k', In k (downward_closure Ws) -> k' <> [] ->
        subtuple k' k = true -> In k' (downward_closure Ws))
  /\ (forall k, In k (downward_closure (downward_closure Ws))
                <-> In k (downward_closure Ws))
  /\ (forall Ws', incl Ws Ws' -> incl (downward_closure Ws) (downward_closure Ws'))
  /\ downward_closure [] = [].
Proof.
  pose proof (fun Ws => proj1 (downward_closure_spec Ws)) as Spec.
  split; [|split; [|split; [|split]]].
  - intros w Hw Hne. apply Spec. split; [assumption|].
    exists w. split; [assumption | apply subtuple_refl].
  - intros k k' Hk Hne Hs. apply Spec in Hk as (_ & w & Hw & Hkw).
    apply Spec. split; [assumption|]. exists w. split; [assumption|].
    exact (subtuple_trans _ _ _ Hs Hkw).
  - intros k. split.
    + intros H. apply Spec in H as (Hne & k1 & Hk1 & Hs).
      apply Spec in Hk1 as (_ & w & Hw & Hkw).
      apply Spec. split; [assumption|]. exists w. split; [assumption|].
      exact (subtuple_trans _ _ _ Hs Hkw).
    + intros H. apply Spec. split; [now apply Spec in H|].
      exists k. split; [assumption | apply subtuple_refl].
  - intros Ws' Hi k Hk. apply Spec in Hk as (Hne & w & Hw & Hs).
    apply Spec. split; [assumption|]. exists w. split; [now apply Hi | assumption].
  - reflexivity.
Qed.

(* ================================================================== *)
(** ** aim_simple.py: the scores of the candidates *)

Lemma overlap_mono k k' d : incl k k' -> (overlap k d <= overlap k' d)%nat.
Proof.
  intros Hi. unfold overlap. apply NoDup_incl_length.
  - apply NoDup_filter, distinct_NoDup.
  - intros a Ha. apply filter_In in Ha as [Ha Hd].
    apply filter_In. split; [|assumption].
    apply distinct_in, Hi. now apply distinct_in.
Qed.

Lemma weighted_overlap_mono (weights : list (Clique * Q)) k k' :
  (forall w, In w weights -> 0 <= snd w) ->
  incl k k' ->
  0 <= weighted_overlap weights k
  /\ weighted_overlap weights k <= weighted_overlap weights k'.
Proof.
  intros Hw Hi. unfold weighted_overlap.
  assert (G : forall acc acc', 0 <= acc -> acc <= acc' ->
            0 <= fold_left
                   (fun acc wc => acc + snd wc * inject_Z (Z.of_nat (overlap k (fst wc))))
                   weights acc
            /\ fold_left
                 (fun acc wc => acc + snd wc * inject_Z (Z.of_nat (overlap k (fst wc))))
                 weights acc
               <= fold_left
                    (fun acc wc => acc + snd wc * inject_Z (Z.of_nat (overlap k' (fst wc))))
                    weights acc').
  { induction weights as [|w weights IH]; simpl; intros acc acc' H0 Hle; [auto|].
    assert (Hw0 : 0 <= snd w) by (apply Hw; now left).
    assert (Ho : inject_Z (Z.of_nat (overlap k (fst w)))
                 <= inject_Z (Z.of_nat (overlap k' (fst w)))).
    { rewrite <- Zle_Qle. apply Nat2Z.inj_le. now apply overlap_mono. }
    assert (Hz : 0 <= inject_Z (Z.of_nat (overlap k (fst w)))).
    { change 0 with (inject_Z 0). rewrite <- Zle_Qle. lia. }
    assert (H1 : 0 <= snd w * inject_Z (Z.of_nat (overlap k (fst w))))
      by now apply Qmult_le_0_compat.
    assert (H2 : snd w * inject_Z (Z.of_nat (overlap k (fst w)))
                 <= snd w * inject_Z (Z.of_nat (overlap k' (fst w)))).
    { rewrite !(Qmult_comm (snd w)). now apply Qmult_le_compat_r. }
    apply IH; [intros w' Hin; apply Hw; now right | lra | lra]. }
  apply G; lra.
Qed.

Lemma dict_set_In {V} (k : Clique) (v : V) (d : dict V) kv :
  In kv (dict_set k v d) -> kv = (k, v) \/ In kv d.
Proof.
  induction d as [|[k' v'] d IH]; simpl.
  - intros [<-|[]]. now left.
  - destruct (clique_eqb k k') eqn:Ek; simpl.
    + apply clique_eqb_eq in Ek. subst k'. intros [<-|H]; auto.
    + intros [<-|H]; [auto|]. apply IH in H. tauto.
Qed.

Lemma dict_of_pairs_In {V} (kvs : list (Clique * V)) kv :
  In kv (dict_of_pairs kvs) -> In kv kvs.
Proof.
  unfold dict_of_pairs.
  assert (G : forall acc, In kv (fold_left (fun d kv => dict_set (fst kv) (snd kv) d) kvs acc)
                          -> In kv acc \/ In kv kvs).
  { induction kvs as [|[k v] kvs IH]; simpl; intros acc H; [auto|].
    apply IH in H as [H|H]; [|auto].
    apply dict_set_In in H as [->|H]; auto. }
  intros H. apply G in H as [[]|H]. exact H.
Qed.

Lemma dict_get_tabulate {V} (g : Clique -> V) ks k v :
  dict_get k (map (fun k => (k, g k)) ks) = Ok v -> v = g k.
Proof.
  induction ks as [|k0 ks IH]; simpl; [discriminate|].
  destruct (clique_eqb k k0) eqn:Ek; [|assumption].
  apply clique_eqb_eq in Ek. subst k0. intros H. now injection H.
Qed.

(** X14.  With non-negative weights the scores are non-negative and grow with
    the candidate: a candidate scores at least as much as any candidate
    whose attributes it contains. *)
Theorem compile_workload_scores_monotone (workload : list (Clique * Q)) candidates :
  compile_workload workload = Ok candidates ->
  (forall c q, In (c, q) workload -> 0 <= q) ->
  forall k k' v v',
    dict_get k candidates = Ok v -> dict_get k' candidates = Ok v' ->
    incl k k' -> 0 <= v /\ v <= v'.
Proof.
  intros Hc Hw k k' v v' Hv Hv' Hi.
  rewrite compile_workload_unfold in Hc. injection Hc as <-.
  apply dict_get_tabulate in Hv, Hv'. subst v v'.
  apply weighted_overlap_mono; [|assumption].
  intros [c q] Hin. apply dict_of_pairs_In in Hin. simpl. eauto.
Qed.

(* ================================================================== *)
(** ** aim_simple.py: [filter_candidates] *)

Section FilterCandidates.
Context {B : Base} {E : Externals}.

Lemma filter_candidates_loop (candidates : dict Q) (keeps : Clique -> bool)
  (body : dict Q -> Clique -> result (dict Q)) :
  (forall ans cl,
     body ans cl
     = if keeps cl
       then bind (dict_get cl candidates) (fun wgt => Ok (dict_set cl wgt ans))
       else Ok ans) ->
  forall suffix acc,
  (forall k v, In (k, v) suffix -> dict_get k candidates = Ok v) ->
  NoDup (dict_keys acc ++ dict_keys suffix) ->
  for_each (dict_keys suffix) body acc
  = Ok (acc ++ filter (fun kv => keeps (fst kv)) suffix).
Proof.
  intros Hbody. induction suffix as [|[k v] suffix IH]; simpl; intros acc Hget Hn.
  - now rewrite app_nil_r.
  - rewrite Hbody.
    assert (Hk : ~ In k (dict_keys acc)).
    { intros Hin. apply NoDup_remove_2 in Hn. apply Hn, in_or_app. now left. }
    assert (Hn' : forall x, NoDup (dict_keys (acc ++ [(k, x)]) ++ dict_keys suffix)).
    { intros x. unfold dict_keys. rewrite map_app, <- app_assoc. exact Hn. }
    destruct (keeps k).
    + rewrite (Hget k v) by now left. simpl.
      rewrite dict_set_new by assumption.
      rewrite IH; [now rewrite <- app_assoc | intros; apply Hget; now right | apply Hn'].
    + simpl. rewrite IH; [reflexivity | intros; apply Hget; now right|].
      apply NoDup_remove_1 in Hn. exact Hn.
Qed.

(** X15.  [filter_candidates] returns the candidates, with their weights and
    in their order, that keep the model within the size limit or are
    sub-cliques of the model; the latter pass whatever the limit, and a
    candidate that passes a limit passes every larger one.  It reads the
    domain of the model for each candidate: on a model without potentials
    it raises [TypeError] as soon as there is a candidate. *)
Theorem filter_candidates_keeps :
  (forall (candidates : dict Q) model size_limit dom,
     NoDup (dict_keys candidates) ->
     cv_domain (potentials model) = Ok dom ->
     filter_candidates candidates model size_limit
     = Ok (filter (fun kv => keeps_candidate dom model size_limit (fst kv)) candidates))
  /\ (forall (candidates : dict Q) model size_limit e,
        candidates <> [] ->
        cv_domain (potentials model) = Raise e ->
        filter_candidates candidates model size_limit = Raise e)
  /\ (forall model, potentials model = [] ->
        cv_domain (potentials model) = Raise TypeError)
  /\ (forall model size_limit, filter_candidates [] model size_limit = Ok [])
  /\ (forall dom model (l l' : Q) cl,
        l <= l' ->
        keeps_candidate dom model l cl = true ->
        keeps_candidate dom model l' cl = true)
  /\ (forall dom model size_limit cl w,
        In w (cv_cliques (potentials model)) -> cl <> [] -> subtuple cl w = true ->
        keeps_candidate dom model size_limit cl = true).
Proof.
  split; [|split; [|split; [|split; [|split]]]].
  - intros candidates model size_limit dom Hn Hdom.
    unfold filter_candidates. cbv zeta.
    rewrite (filter_candidates_loop candidates (keeps_candidate dom model size_limit)
               _ (fun ans cl => f_equal (fun r => bind r _) Hdom) candidates []);
      [reflexivity | now apply dict_entries_lookup | exact Hn].
  - intros candidates model size_limit e Hne Hdom.
    unfold filter_candidates. cbv zeta.
    destruct candidates as [|[k v] candidates]; [congruence|].
    simpl. now rewrite Hdom.
  - intros model ->. reflexivity.
  - reflexivity.
  - intros dom model l l' cl Hl. unfold keeps_candidate.
    intros H. apply orb_true_iff in H as [H|H]; apply orb_true_iff.
    + left. apply Qle_bool_iff in H. apply Qle_bool_iff. lra.
    + now right.
  - intros dom model size_limit cl w Hw Hne Hs. unfold keeps_candidate.
    apply orb_true_iff. right. apply set_mem_iff.
    apply downward_closure_spec. eauto.
Qed.

End FilterCandidates.

(* ================================================================== *)
(** ** aim_simple.py: [worst_approximated] *)

Lemma py_max_fold_spec (vs : list Q) : forall v,
  In (fold_left py_max vs v) (v :: vs)
  /\ forall x, In x (v :: vs) -> x <= fold_left py_max vs v.
Proof.
  induction vs as [|y vs IH]; intros v; simpl.
  - split; [now left|]. intros x [<-|[]]. apply Qle_refl.
  - destruct (IH (py_max v y)) as [Hin Hle].
    assert (Hv : v <= py_max v y /\ y <= py_max v y
                 /\ (py_max v y = v \/ py_max v y = y)).
    { unfold py_max. destruct (Qlt_le_dec v y); repeat split; auto; lra. }
    destruct Hv as (Hv & Hy & Hc). split.
    + destruct Hin as [Hin|Hin]; [|right; now right].
      rewrite <- Hin. destruct Hc as [-> | ->]; [now left | right; now left].
    + intros x [<-|[<-|Hx]].
      * eapply Qle_trans; [exact Hv|]. apply Hle. now left.
      * eapply Qle_trans; [exact Hy|]. apply Hle. now left.
      * apply Hle. now right.
Qed.

Lemma dict_set_In_same {V} (k : Clique) (v : V) (d : dict V) :
  In (k, v) (dict_set k v d).
Proof.
  induction d as [|[k' v'] d IH]; simpl; [now left|].
  destruct (clique_eqb k k') eqn:Ek; simpl.
  - apply clique_eqb_eq in Ek. subst k'. now left.
  - now right.
Qed.

Lemma dict_set_In_other {V} (k k' : Clique) (v v' : V) (d : dict V) :
  k' <> k -> In (k', v') d -> In (k', v') (dict_set k v d).
Proof.
  intros N. induction d as [|[k0 v0] d IH]; simpl; [tauto|].
  destruct (clique_eqb k k0) eqn:Ek; simpl.
  - apply clique_eqb_eq in Ek. subst k0. intros [H|H]; [congruence | now right].
  - intros [H|H]; [now left | right; auto].
Qed.

Section WorstApproximated.
Context {B : Base} {E : Externals}.

Lemma wa_body_quality (candidates : dict Q) answers model sigma es cl :
  bind (dict_get cl candidates) (fun wgt =>
  bind (dict_get cl answers) (fun x =>
  bind (cv_domain (potentials model)) (fun model_domain =>
  let bias :=
    np_sqrt (2 / np_pi) * sigma
    * inject_Z (Z.of_nat (domain_size model_domain cl)) in
  let xest := factor_datavector (gm_project model cl) in
  bind (broadcast Qminus x xest) (fun diff =>
  Ok (dict_set cl (wgt * (norm1 diff - bias)) (fst es),
      dict_set cl (Qabs wgt) (snd es))))))
  = bind (candidate_quality candidates answers model sigma cl) (fun q =>
    bind (dict_get cl candidates) (fun wgt =>
    Ok (dict_set cl q (fst es), dict_set cl (Qabs wgt) (snd es)))).
Proof.
  unfold candidate_quality. cbv zeta.
  destruct (dict_get cl candidates) as [wgt|e] eqn:Hw; simpl; [|reflexivity].
  destruct (dict_get cl answers) as [x|e]; simpl; [|reflexivity].
  destruct (cv_domain (potentials model)) as [dom|e]; simpl; [|reflexivity].
  destruct (broadcast Qminus x (factor_datavector (gm_project model cl))) as [diff|e];
    simpl; reflexivity.
Qed.

Lemma wa_steps_spec (candidates : dict Q) (quality : Clique -> result Q)
  (body : dict Q * dict Q -> Clique -> result (dict Q * dict Q)) :
  (forall es cl,
     body es cl
     = bind (quality cl) (fun q =>
       bind (dict_get cl candidates) (fun wgt =>
       Ok (dict_set cl q (fst es), dict_set cl (Qabs wgt) (snd es))))) ->
  forall ks es es',
  for_each ks body es = Ok es' ->
  (forall k, In k (dict_keys (fst es')) <-> In k (dict_keys (fst es)) \/ In k ks)
  /\ (forall k, In k ks -> exists q, quality k = Ok q)
  /\ (forall k q, quality k = Ok q ->
        In k ks \/ dict_get k (fst es) = Ok q -> dict_get k (fst es') = Ok q)
  /\ (forall k s, In (k, s) (snd es') ->
        In (k, s) (snd es)
        \/ (In k ks /\ exists w, dict_get k candidates = Ok w /\ s = Qabs w))
  /\ (forall k w, dict_get k candidates = Ok w ->
        In k ks \/ In (k, Qabs w) (snd es) -> In (k, Qabs w) (snd es')).
Proof.
  intros Hbody. induction ks as [|k0 ks IH]; simpl; intros es es' H.
  - injection H as <-. split; [|split; [|split; [|split]]].
    + intros k. tauto.
    + intros k [].
    + intros k q _ [[]|H]. exact H.
    + intros k s Hin. now left.
    + intros k w _ [[]|H]. exact H.
  - apply bind_ok_inv in H as (es1 & Hstep & H).
    rewrite Hbody in Hstep.
    apply bind_ok_inv in Hstep as (q0 & Hq0 & Hstep).
    apply bind_ok_inv in Hstep as (w0 & Hw0 & Hstep). injection Hstep as <-.
    destruct (IH _ _ H) as (K & Q1 & Q2 & S1 & S2). simpl in K, Q2, S1, S2.
    split; [|split; [|split; [|split]]].
    + intros k. rewrite K, dict_set_keys_in. intuition.
    + intros k [<-|Hk]; [eauto | auto].
    + intros k q Hq Hor. apply (Q2 k q Hq).
      destruct (list_eq_dec string_dec k k0) as [->|N].
      * right. rewrite dict_get_set_same. congruence.
      * destruct Hor as [[Hk|Hk]|Hk]; [congruence | now left |].
        right. now rewrite dict_get_set_other.
    + intros k s Hin. apply S1 in Hin as [Hin|(Hk & w & Hw & Hs)].
      * apply dict_set_In in Hin as [Hin|Hin]; [|now left].
        injection Hin as -> ->. right. split; [now left | eauto].
      * right. split; [now right | eauto].
    + intros k w Hw Hor. apply (S2 k w Hw).
      destruct (list_eq_dec string_dec k k0) as [->|N].
      * right. rewrite Hw0 in Hw. injection Hw as <-. apply dict_set_In_same.
      * destruct Hor as [[Hk|Hk]|Hk]; [congruence | now left |].
        right. now apply dict_set_In_other.
Qed.

(** X16.  [worst_approximated] hands the exponential mechanism one quality
    per candidate, the privacy parameter [sqrt(8 * rho)] and the largest
    absolute weight as sensitivity, and returns its choice; it does not
    touch the budget counter.  It raises [ZeroDivisionError] at
    [rho = 0] and [ValueError] when there is no candidate ([max] of an
    empty sequence). *)
Theorem worst_approximated_selection :
  (forall st (candidates : dict Q) answers model (r : Q),
     r == 0 ->
     worst_approximated st candidates answers model r = Raise ZeroDivisionError)
  /\ (forall st answers model (r : Q),
        ~ r == 0 ->
        worst_approximated st [] answers model r = Raise ValueError)
  /\ (forall st (candidates : dict Q) answers model (r : Q) cl st',
        worst_approximated st candidates answers model r = Ok (cl, st') ->
        rho_used st' = rho_used st /\ stdout st' = stdout st
        /\ exists errors max_sensitivity,
             (cl, prng st')
             = exponential_mechanism (prng st) errors (np_sqrt (8 * r)) max_sensitivity
             /\ (forall k, In k (dict_keys errors) <-> In k (dict_keys candidates))
             /\ (forall k, In k (dict_keys candidates) ->
                   exists q,
                     candidate_quality candidates answers model
                       (np_sqrt (1 / (2 * r))) k = Ok q
                     /\ dict_get k errors = Ok q)
             /\ (forall k w, dict_get k candidates = Ok w -> Qabs w <= max_sensitivity)
             /\ (exists k w, dict_get k candidates = Ok w /\ max_sensitivity = Qabs w)).
Proof.
  split; [|split].
  - intros st candidates answers model r Hr. unfold worst_approximated, py_div.
    assert (H0 : Qeq_bool (2 * r) 0 = true) by (apply Qeq_bool_iff; rewrite Hr; reflexivity).
    now rewrite H0.
  - intros st answers model r Hr. unfold worst_approximated, py_div.
    destruct (Qeq_bool (2 * r) 0) eqn:H0; [|reflexivity].
    apply Qeq_bool_iff in H0. exfalso. apply Hr. lra.
  - intros st candidates answers model r cl st' H.
    unfold worst_approximated in H.
    apply bind_ok_inv in H as (inv & Hinv & H).
    apply py_div_ok in Hinv as [_ ->].
    apply bind_ok_inv in H as ([errors sens] & Hloop & H).
    apply bind_ok_inv in H as (m & Hm & H). simpl in H, Hm.
    destruct (exponential_mechanism (prng st) errors (np_sqrt (8 * r)) m)
      as [c g] eqn:Hex.
    injection H as <- <-. simpl.
    split; [reflexivity|]. split; [reflexivity|].
    exists errors, m. split; [now rewrite Hex|].
    unfold wa_loop in Hloop.
    apply (wa_steps_spec candidates
             (candidate_quality candidates answers model (np_sqrt (1 / (2 * r)))))
      in Hloop; [|intros es k; apply wa_body_quality].
    destruct Hloop as (K & Q1 & Q2 & S1 & S2). simpl in K, Q2, S1, S2.
    destruct (map snd sens) as [|v vs] eqn:Hs; [discriminate|].
    simpl in Hm. injection Hm as <-.
    destruct (py_max_fold_spec vs v) as [Hin Hle]. rewrite <- Hs in Hin, Hle.
    split; [|split; [|split]].
    + intros k. rewrite K. simpl. tauto.
    + intros k Hk. destruct (Q1 k Hk) as [q Hq]. exists q.
      split; [assumption|]. apply (Q2 k q Hq). now left.
    + intros k w Hw. apply Hle. apply in_map_iff. exists (k, Qabs w).
      split; [reflexivity|]. apply (S2 k w Hw). left.
      apply dict_get_ok_iff. eauto.
    + apply in_map_iff in Hin as ([k s] & Hks & Hin). simpl in Hks. subst s.
      apply S1 in Hin as [[]|(_ & w & Hw & Hs')]. eauto.
Qed.

End WorstApproximated.

(* ================================================================== *)
(** ** aim_simple.py: what a run needs, and its budget counter *)

Section AIMRuns.
Context {B : Base} {E : Externals}.


(** X21.  The budget counter of a fresh mechanism when the first round has
    made its measurement (line 159), the last charge before the round
    fails: each of the [k] initial cliques has been charged
    [0.05 * rho / n], [n] being the number of one-way candidates, and the
    measurement [0.475 * rho / m], [m = len(workload) // 4] being the
    number of rounds due.  Nothing bounds [k]: with enough initial
    cliques the counter is above [rho]. *)
Theorem budget_counter_at_first_measurement self st data workload initial_cliques c sm :
  run_setup self st data workload initial_cliques = Ok c ->
  round_measure self data (rc_candidates c) (rc_answers c) (rc_rho_oneway_i c)
    (rc_rho_iters_i c) (rc_round c) = Ok sm ->
  rho_used st == 0 ->
  rho_used (rs_state (rc_round c))
  == rho self * 0.05 * (Qlen (initial_of (rc_candidates c) initial_cliques)
                        / Qlen (oneway_of (rc_candidates c)))
  /\ rho_used (fst sm)
     == rho self
        * (0.05 * (Qlen (initial_of (rc_candidates c) initial_cliques)
                   / Qlen (oneway_of (rc_candidates c)))
           + 0.475 / inject_Z (Z.of_nat (List.length workload / 4)))
  /\ exists cl,
       stdout (fst sm)
       = stdout st ++ [PrintRunning (List.length workload / 4); PrintMeasuring cl]
       /\ map clique (snd sm)
          = initial_of (rc_candidates c) initial_cliques ++ [cl].
Proof.
  intros Hs Hm H0. destruct sm as [st' ms].
  apply run_setup_spec in Hs as (_ & H1 & Hit & H2 & Hused & Hout & Hcl & _).
  apply round_measure_spec in Hm
    as (cl & st1 & y & inv & Hr1 & Ho1 & Hz & _ & Hms).
  apply zcdp_gaussian_mech_spec in Hz as (var & _ & _ & Hr2 & Ho2).
  apply py_div_ok in H1 as [N1 E1]. apply py_div_ok in H2 as [N2 E2].
  rewrite Hit in *. simpl fst. simpl snd.
  rewrite H0, E1 in Hused.
  assert (Hsetup : rho_used (rs_state (rc_round c))
                   == rho self * 0.05
                      * (Qlen (initial_of (rc_candidates c) initial_cliques)
                         / Qlen (oneway_of (rc_candidates c)))).
  { rewrite Hused. field. exact N1. }
  split; [exact Hsetup|]. split.
  - rewrite Hr2, Hr1, Hsetup, E2. field. split; assumption.
  - exists cl. split.
    + rewrite Ho2, Ho1, Hout, <- app_assoc. reflexivity.
    + rewrite Hms, map_app, Hcl. reflexivity.
Qed.

End AIMRuns.

(** *** On explicit inputs *)

Open Scope string_scope.

Lemma compile_workload_scores_monotone_witness :
  exists candidates v v',
    compile_workload ex_workload = Ok candidates
    /\ dict_get ["A"] candidates = Ok v
    /\ dict_get ["A"; "B"] candidates = Ok v'
    /\ 0 <= v /\ v <= v'.
Proof.
  set (candidates := match compile_workload ex_workload with
                     | Ok c => c
                     | Raise _ => []
                     end).
  set (v := match dict_get ["A"] candidates with Ok q => q | Raise _ => 0 end).
  set (v' := match dict_get ["A"; "B"] candidates with Ok q => q | Raise _ => 0 end).
  assert (Hc : compile_workload ex_workload = Ok candidates) by (vm_compute; reflexivity).
  assert (Hv : dict_get ["A"] candidates = Ok v) by (vm_compute; reflexivity).
  assert (Hv' : dict_get ["A"; "B"] candidates = Ok v') by (vm_compute; reflexivity).
  exists candidates, v, v'. repeat (split; [assumption|]).
  apply (compile_workload_scores_monotone ex_workload candidates Hc) with (k := ["A"])
    (k' := ["A"; "B"]); try assumption.
  - intros c q Hin. vm_compute in Hin.
    destruct Hin as [Hin|[Hin|[Hin|[Hin|[]]]]]; injection Hin as _ <-; discriminate.
  - intros a [<-|[]]. now left.
Defined.

(** With the 41 cliques of at most three attributes as initial cliques
    and one round due, the counter stands at [139/6000] after the
    measurement of the round, above [rho = 0.02]. *)
Lemma budget_counter_at_first_measurement_witness :
  exists c sm,
    @run_setup OneCell OneCellExt (fst ex_mech) (snd ex_mech) ex_data ex_workload
      (Some ex_initial_cliques) = Ok c
    /\ @round_measure OneCell OneCellExt (fst ex_mech) ex_data (rc_candidates c)
         (rc_answers c) (rc_rho_oneway_i c) (rc_rho_iters_i c) (rc_round c)
       = Ok sm
    /\ rho_used (fst sm)
       == rho (fst ex_mech)
          * (0.05 * (Qlen (@initial_of (rc_candidates c) (Some ex_initial_cliques))
                     / Qlen (oneway_of (rc_candidates c)))
             + 0.475 / inject_Z (Z.of_nat (List.length ex_workload / 4))).
Proof.
  destruct (ok_by_evaluation2
              (@run_setup OneCell OneCellExt (fst ex_mech) (snd ex_mech) ex_data
                 ex_workload (Some ex_initial_cliques))
              (fun c => @round_measure OneCell OneCellExt (fst ex_mech) ex_data
                          (rc_candidates c) (rc_answers c) (rc_rho_oneway_i c)
                          (rc_rho_iters_i c) (rc_round c))
              (fun _ _ => True))
    as (c & sm & Hs & Hm & _); [vm_compute; exact I|].
  exists c, sm. split; [exact Hs|]. split; [exact Hm|].
  refine (proj1 (proj2 (@budget_counter_at_first_measurement OneCell OneCellExt
                          _ _ _ _ _ _ _ Hs Hm _))).
  reflexivity.
Defined.

(** The same input, evaluated. *)
Example budget_counter_passes_rho :
  exists c sm,
    @run_setup OneCell OneCellExt (fst ex_mech) (snd ex_mech) ex_data ex_workload
      (Some ex_initial_cliques) = Ok c
    /\ @round_measure OneCell OneCellExt (fst ex_mech) ex_data (rc_candidates c)
         (rc_answers c) (rc_rho_oneway_i c) (rc_rho_iters_i c) (rc_round c)
       = Ok sm
    /\ (List.length ex_initial_cliques = 41%nat
        /\ rho (fst ex_mech) == 0.02
        /\ rho_used (fst sm) == 139 # 6000
        /\ rho (fst ex_mech) < rho_used (fst sm)).
Proof.
  apply (ok_by_evaluation2
           (@run_setup OneCell OneCellExt (fst ex_mech) (snd ex_mech) ex_data
              ex_workload (Some ex_initial_cliques))
           (fun c => @round_measure OneCell OneCellExt (fst ex_mech) ex_data
                       (rc_candidates c) (rc_answers c) (rc_rho_oneway_i c)
                       (rc_rho_iters_i c) (rc_round c))).
  vm_compute. repeat split.
Qed.

(** A workload of three cliques: the budget of the rounds is divided by
    [3 // 4 = 0]. *)
Example run_on_three_cliques_raises :
  @run OneCell OneCellExt (fst ex_mech) (snd ex_mech) ex_data
    [(["A"; "B"], 1.0); (["A"; "C"], 1.0); (["B"; "C"], 1.0)] None None
  = Raise ZeroDivisionError.
Proof. apply raise_by_evaluation. vm_compute. reflexivity. Qed.

Close Scope string_scope.
